(** * ShivyC parser: a shallow embedding of [parser.py] and its properties

    The development follows the layout of the Python module: the token
    matcher, the grammar productions, the shift-reduce expression engine and
    the best-error tracker.  Python lists are Rocq lists, indices are [nat],
    exceptions are an explicit outcome type, and the [best_error] attribute of
    the [Parser] object is threaded explicitly through the productions that
    log errors. *)

From Stdlib Require Import String List Arith ZArith Bool Lia PeanoNat.
Import ListNotations.
Open Scope string_scope.
Open Scope list_scope.
Open Scope nat_scope.

Set Warnings "-register-all".

(** ** Tokens, AST nodes and errors (the collaborators of [parser.py]) *)

(** Modelled from the spec: the [token_kinds] module is not part of the
    source tree.  The kinds are the closed enumeration of the external
    interface: the keywords [int], [main], [return], the punctuation
    [( ) { } ; + * =], number literals and identifiers. *)
Module token_kinds.
Inductive TokenKind : Type :=
| int_kw | main | return_kw
| open_paren | close_paren | open_brack | close_brack | semicolon
| plus | star | equals
| number | identifier.

Definition eqb (a b : TokenKind) : bool :=
  match a, b with
  | int_kw, int_kw | main, main | return_kw, return_kw
  | open_paren, open_paren | close_paren, close_paren
  | open_brack, open_brack | close_brack, close_brack
  | semicolon, semicolon | plus, plus | star, star | equals, equals
  | number, number | identifier, identifier => true
  | _, _ => false
  end.
End token_kinds.
Definition TokenKind : Type := token_kinds.TokenKind.

(** Modelled from the spec: [tokens.Token] is an immutable terminal with a
    [kind]; [content] stands for everything else the lexer attaches to it
    (text, source position).  The parser only ever reads [kind]. *)
Record Token : Type := mkToken { kind : TokenKind; content : string }.

(** Modelled from the spec: the node constructors of the [ast] module, used
    by the parser as opaque data constructors. *)
Module ast.
Inductive Node : Type :=
| MainNode (nodes : list Node)
| ReturnNode (return_value : Node)
| ExprStatementNode (expr : Node)
| NumberNode (number : Token)
| IdentifierNode (identifier : Token)
| ParenExprNode (expr : Node)
| BinaryOperatorNode (left_expr : Node) (operator : Token) (right_expr : Node)
| DeclarationNode (variable_name : Token).
End ast.
Definition Node : Type := ast.Node.

(** The three anchoring modes of a diagnostic. *)
Inductive MessageType : Type := AT | GOT | AFTER.

(** Modelled from the spec: [errors.ParserError] carries a message, the
    position it is anchored to, the anchoring mode and the amount of input
    parsed before the failure.  The constructor call
    [ParserError(err, index, self.tokens, mode)] is [ParserError_new]; the
    properties of [log_error] below are stated for arbitrary records, so they
    do not depend on how [amount_parsed] is derived from [index]. *)
Record ParserError : Type := mkParserError {
  message : string;
  error_index : nat;
  message_type : MessageType;
  amount_parsed : nat
}.

Definition ParserError_new (err : string) (index : nat) (tokens : list Token)
    (mode : MessageType) : ParserError :=
  {| message := err; error_index := index; message_type := mode;
     amount_parsed := index |}.

(** What a call can raise: a diagnostic, the internal [MatchError], or one of
    the two built-in exceptions the code could run into ([IndexError] on
    [self.tokens[i]], [TypeError] on [raise None]). *)
Inductive Exception : Type :=
| ParserErr (e : ParserError)
| MatchError
| IndexError
| TypeError.

(** Outcome of a call: a returned value, a raised exception, or a loop that
    was cut off before it finished. *)
Inductive Outcome (A : Type) : Type :=
| Ok (a : A)
| Raise (e : Exception)
| OutOfFuel.
Arguments Ok {A} a.
Arguments Raise {A} e.
Arguments OutOfFuel {A}.

(** ** Token matcher *)

Section TokenMatcher.
Variable tokens : list Token.

(** [match_tokens]: lines 268-285. *)
Definition match_tokens (index : nat) (kinds_expected : list TokenKind)
    : Outcome nat :=
  let toks := skipn index tokens in
  if length toks <? length kinds_expected then Raise MatchError
  else if forallb (fun kt => token_kinds.eqb (fst kt) (kind (snd kt)))
                  (combine kinds_expected toks)
       then Ok (index + length kinds_expected)
       else Raise MatchError.

(** [match_token]: lines 264-266. *)
Definition match_token (index : nat) (kind_expected : TokenKind)
    : Outcome nat :=
  match_tokens index [kind_expected].

(** [expect_semicolon]: lines 251-259. *)
Definition expect_semicolon (index : nat) : Outcome nat :=
  match match_token index token_kinds.semicolon with
  | Raise MatchError =>
      Raise (ParserErr (ParserError_new "expected semicolon" index tokens AFTER))
  | r => r
  end.
End TokenMatcher.

(** ** Expression engine *)

(** An entry of the parsing stack holds a raw token or an expression node
    ([isinstance(_, Token)] against [isinstance(_, ast.Node)]). *)
Inductive Item : Type :=
| Tok (t : Token)
| Nd (n : Node).

(** [StackItem = namedtuple("StackItem", ['item', 'length'])]. *)
Record StackItem : Type := mkStackItem { item : Item; item_length : nat }.

(** The dictionary [binary_operators] (lines 137-139): a lookup that fails
    is [None]. *)
Definition binary_operators (k : TokenKind) : option nat :=
  match k with
  | token_kinds.plus => Some 11
  | token_kinds.star => Some 12
  | token_kinds.equals => Some 1
  | _ => None
  end.

(** [k in binary_operators.keys()]. *)
Definition in_binary_operators (k : TokenKind) : bool :=
  match binary_operators k with Some _ => true | None => false end.

(** The set [assignment_operators] (line 142), as its membership test. *)
Definition assignment_operators (k : TokenKind) : bool :=
  match k with token_kinds.equals => true | _ => false end.

(** One pass through the body of the [while True] loop. *)
Inductive Step : Type :=
| Continue (stack : list StackItem) (i : nat)
| Break
| Crash.

Section ExpressionEngine.
Variable tokens : list Token.

(** The Python stack grows at its end; here the top of the stack is the
    head of the list, so [stack[-1]] is the head and [stack[0]] the last
    element. *)

(** Lines 155-157. *)
Definition reduce_number (stack : list StackItem) : option (list StackItem) :=
  match stack with
  | {| item := Tok t |} :: below =>
      if token_kinds.eqb (kind t) token_kinds.number
      then Some (mkStackItem (Nd (ast.NumberNode t)) 1 :: below)
      else None
  | _ => None
  end.

(** Lines 161-163. *)
Definition reduce_identifier (stack : list StackItem) : option (list StackItem) :=
  match stack with
  | {| item := Tok t |} :: below =>
      if token_kinds.eqb (kind t) token_kinds.identifier
      then Some (mkStackItem (Nd (ast.IdentifierNode t)) 1 :: below)
      else None
  | _ => None
  end.

(** Lines 167-177. *)
Definition reduce_paren (stack : list StackItem) : option (list StackItem) :=
  match stack with
  | {| item := Tok c |} :: {| item := Nd e; item_length := elen |}
      :: {| item := Tok o |} :: below =>
      if token_kinds.eqb (kind c) token_kinds.close_paren
         && token_kinds.eqb (kind o) token_kinds.open_paren
      then Some (mkStackItem (Nd (ast.ParenExprNode e)) (elen + 2) :: below)
      else None
  | _ => None
  end.

(** Lines 188-191: the next token is a binary operator of higher
    precedence than [op].  The lookup of [op] cannot fail where the source
    evaluates this test, since [op] was just checked to be a key. *)
Definition next_is_higher (i : nat) (op : Token) : bool :=
  match nth_error tokens i with
  | Some t =>
      match binary_operators (kind t), binary_operators (kind op) with
      | Some p, Some q => q <? p
      | _, _ => false
      end
  | None => false
  end.

(** Lines 195-197: [op] and the next token are both assignment tokens. *)
Definition both_assignment (i : nat) (op : Token) : bool :=
  match nth_error tokens i with
  | Some t => assignment_operators (kind op) && assignment_operators (kind t)
  | None => false
  end.

(** Lines 181-209. *)
Definition reduce_binary (stack : list StackItem) (i : nat)
    : option (list StackItem) :=
  match stack with
  | {| item := Nd r; item_length := rlen |}
      :: {| item := Tok op; item_length := oplen |}
      :: {| item := Nd l; item_length := llen |} :: below =>
      if in_binary_operators (kind op)
         && negb (next_is_higher i op)
         && negb (both_assignment i op)
      then Some (mkStackItem (Nd (ast.BinaryOperatorNode l op r))
                             (llen + oplen + rlen) :: below)
      else None
  | _ => None
  end.

(** The test of lines 216-220, negated: the token may appear in an
    expression. *)
Definition may_shift (k : TokenKind) : bool :=
  token_kinds.eqb k token_kinds.number
  || token_kinds.eqb k token_kinds.identifier
  || token_kinds.eqb k token_kinds.open_paren
  || token_kinds.eqb k token_kinds.close_paren
  || in_binary_operators k.

(** Lines 215-224. *)
Definition shift (stack : list StackItem) (i : nat) : Step :=
  if i =? length tokens then Break
  else match nth_error tokens i with
       | None => Crash
       | Some t =>
           if may_shift (kind t)
           then Continue (mkStackItem (Tok t) 1 :: stack) (S i)
           else Break
       end.

(** The [if]/[elif] chain of lines 155-224: the first rule that applies. *)
Definition step (stack : list StackItem) (i : nat) : Step :=
  match reduce_number stack with
  | Some stack' => Continue stack' i
  | None =>
  match reduce_identifier stack with
  | Some stack' => Continue stack' i
  | None =>
  match reduce_paren stack with
  | Some stack' => Continue stack' i
  | None =>
  match reduce_binary stack i with
  | Some stack' => Continue stack' i
  | None => shift stack i
  end end end end.

(** The [while True] loop of lines 152-224, cut off after [fuel] passes. *)
Fixpoint loop (fuel : nat) (stack : list StackItem) (i : nat)
    : Outcome (list StackItem) :=
  match fuel with
  | 0 => OutOfFuel
  | S fuel' =>
      match step stack i with
      | Continue stack' i' => loop fuel' stack' i'
      | Break => Ok stack
      | Crash => Raise IndexError
      end
  end.

(** Lines 226-230: what is returned once the loop has stopped.  [rev stack]
    is the stack in the order of the Python list, so its head is
    [stack[0]]. *)
Definition finish (index : nat) (stack : list StackItem)
    : Outcome (Node * nat) :=
  match rev stack with
  | {| item := Nd n; item_length := len |} :: _ => Ok (n, index + len)
  | _ => Raise (ParserErr
                  (ParserError_new "expected expression" index tokens GOT))
  end.

(** Number of raw tokens on the stack. *)
Definition raw_count (stack : list StackItem) : nat :=
  length (filter (fun s => match item s with Tok _ => true | Nd _ => false end)
                 stack).

(** The quantity every pass of the loop decreases. *)
Definition measure (stack : list StackItem) (i : nat) : nat :=
  3 * (length tokens - i) + length stack + raw_count stack.

(** [parse_expression]: lines 127-230.  The loop is given one pass more
    than the measure of its initial state. *)
Definition parse_expression (index : nat) : Outcome (Node * nat) :=
  match loop (S (measure [] index)) [] index with
  | Ok stack => finish index stack
  | Raise e => Raise e
  | OutOfFuel => OutOfFuel
  end.
End ExpressionEngine.

(** ** Error-recovery tracker *)

(** The mutable part of the [Parser] object.  [best_error] is the attribute
    of the source; [logged] is a history variable that records every error
    passed to [log_error], oldest first.  No production reads it; it only
    serves to state what [best_error] holds. *)
Record ParserState : Type := mkParserState {
  best_error : option ParserError;
  logged : list ParserError
}.

(** [__init__]: line 45. *)
Definition init_state : ParserState :=
  {| best_error := None; logged := [] |}.

(** [log_error]: lines 287-296.  An exception object is true in Python, so
    [not self.best_error] holds exactly when the slot is still [None]. *)
Definition log_error (error : ParserError) (self : ParserState) : ParserState :=
  {| best_error :=
       match best_error self with
       | None => Some error
       | Some best =>
           if amount_parsed best <=? amount_parsed error
           then Some error else Some best
       end;
     logged := logged self ++ [error] |}.

(** ** Grammar productions *)

(** Sequencing of calls: an exception or a cut-off loop ends the caller. *)
Definition bind {A B : Type} (m : Outcome A) (k : A -> Outcome B) : Outcome B :=
  match m with
  | Ok a => k a
  | Raise e => Raise e
  | OutOfFuel => OutOfFuel
  end.

Notation "x <- m ;; k" := (bind m (fun x => k))
  (at level 61, m at next level, right associativity).

(** [try: m except MatchError: raise ParserError(...)]. *)
Definition except_MatchError {A : Type} (m : Outcome A) (e : ParserError)
    : Outcome A :=
  match m with
  | Raise MatchError => Raise (ParserErr e)
  | r => r
  end.

Section Productions.
Variable tokens : list Token.

(** [parse_return]: lines 111-120. *)
Definition parse_return (index : nat) : Outcome (Node * nat) :=
  index1 <- except_MatchError
              (match_token tokens index token_kinds.return_kw)
              (ParserError_new "expected return keyword" index tokens GOT) ;;
  r <- parse_expression tokens index1 ;;
  index2 <- expect_semicolon tokens (snd r) ;;
  Ok (ast.ReturnNode (fst r), index2).

(** [parse_expr_statement]: lines 122-125. *)
Definition parse_expr_statement (index : nat) : Outcome (Node * nat) :=
  r <- parse_expression tokens index ;;
  index1 <- expect_semicolon tokens (snd r) ;;
  Ok (ast.ExprStatementNode (fst r), index1).

(** [parse_declaration]: lines 232-249. *)
Definition parse_declaration (index : nat) : Outcome (Node * nat) :=
  index1 <- except_MatchError
              (match_token tokens index token_kinds.int_kw)
              (ParserError_new "expected type name" index tokens GOT) ;;
  index2 <- except_MatchError
              (match_token tokens index1 token_kinds.identifier)
              (ParserError_new "expected identifier" index1 tokens AFTER) ;;
  variable_name <- match nth_error tokens (index2 - 1) with
                   | Some t => Ok t
                   | None => Raise IndexError
                   end ;;
  index3 <- expect_semicolon tokens index2 ;;
  Ok (ast.DeclarationNode variable_name, index3).

(** [parse_statement]: lines 103-109.  Only a [ParserError] is caught and
    logged. *)
Definition parse_statement (index : nat) (self : ParserState)
    : Outcome (Node * nat) * ParserState :=
  match parse_return index with
  | Raise (ParserErr e) => (parse_expr_statement index, log_error e self)
  | r => (r, self)
  end.

(** The [while True] loop of [parse_main], lines 78-93, cut off after
    [fuel] passes.  It returns the collected nodes and the index reached
    when it breaks. *)
Fixpoint main_loop (fuel : nat) (index : nat) (nodes : list Node)
    (self : ParserState) : Outcome (list Node * nat) * ParserState :=
  match fuel with
  | 0 => (OutOfFuel, self)
  | S fuel' =>
      match parse_statement index self with
      | (Ok (node, index'), self1) =>
          main_loop fuel' index' (nodes ++ [node]) self1
      | (Raise (ParserErr e), self1) =>
          let self2 := log_error e self1 in
          match parse_declaration index with
          | Ok (node, index') =>
              main_loop fuel' index' (nodes ++ [node]) self2
          | Raise (ParserErr e') => (Ok (nodes, index), log_error e' self2)
          | Raise x => (Raise x, self2)
          | OutOfFuel => (OutOfFuel, self2)
          end
      | (Raise x, self1) => (Raise x, self1)
      | (OutOfFuel, self1) => (OutOfFuel, self1)
      end
  end.

(** Line 68. *)
Definition kinds_before : list TokenKind :=
  [token_kinds.int_kw; token_kinds.main; token_kinds.open_paren;
   token_kinds.close_paren; token_kinds.open_brack].

(** [parse_main]: lines 65-101.  The loop gets one pass per remaining
    token and one more for the pass that breaks. *)
Definition parse_main (index : nat) (self : ParserState)
    : Outcome (Node * nat) * ParserState :=
  match except_MatchError
          (match_tokens tokens index kinds_before)
          (ParserError_new "expected main function starting" index tokens AT)
  with
  | Ok index1 =>
      match main_loop (S (length tokens - index1)) index1 [] self with
      | (Ok (nodes, index2), self') =>
          (index3 <- except_MatchError
                       (match_token tokens index2 token_kinds.close_brack)
                       (ParserError_new "expected closing brace" index2
                                        tokens GOT) ;;
           Ok (ast.MainNode nodes, index3), self')
      | (Raise x, self') => (Raise x, self')
      | (OutOfFuel, self') => (OutOfFuel, self')
      end
  | Raise x => (Raise x, self)
  | OutOfFuel => (OutOfFuel, self)
  end.

(** [parse]: lines 47-63, run on a fresh [Parser] object.  The second
    component is the state of the object when the call ends. *)
Definition parse : Outcome Node * ParserState :=
  match parse_main 0 init_state with
  | (Raise (ParserErr e), self) =>
      let self' := log_error e self in
      (match best_error self' with
       | Some best => Raise (ParserErr best)
       | None => Raise TypeError
       end, self')
  | (Ok (node, index), self) =>
      match skipn index tokens with
      | _ :: _ =>
          (Raise (ParserErr
                    (ParserError_new "unexpected token" index tokens AT)),
           self)
      | [] => (Ok node, self)
      end
  | (Raise x, self) => (Raise x, self)
  | (OutOfFuel, self) => (OutOfFuel, self)
  end.
End Productions.

(** ** Sample inputs *)

Definition tk (k : TokenKind) (s : string) : Token := mkToken k s.
Definition t_int := tk token_kinds.int_kw "int".
Definition t_main := tk token_kinds.main "main".
Definition t_return := tk token_kinds.return_kw "return".
Definition t_lparen := tk token_kinds.open_paren "(".
Definition t_rparen := tk token_kinds.close_paren ")".
Definition t_lbrace := tk token_kinds.open_brack "{".
Definition t_rbrace := tk token_kinds.close_brack "}".
Definition t_semi := tk token_kinds.semicolon ";".
Definition t_plus := tk token_kinds.plus "+".
Definition t_star := tk token_kinds.star "*".
Definition t_eq := tk token_kinds.equals "=".
Definition t_num (s : string) := tk token_kinds.number s.
Definition t_id (s : string) := tk token_kinds.identifier s.

(** * Vocabulary of the statements and of their proofs *)

(** ** Token runs *)

(** The kinds of the [n] tokens found from position [index] on (fewer when
    the list ends earlier). *)
Definition kinds_at (tokens : list Token) (index n : nat) : list TokenKind :=
  map kind (firstn n (skipn index tokens)).

(** ** Runs of the expression engine *)

Section Runs.
Variable tokens : list Token.

(** The passes that continue the loop, as a relation: the four reductions
    and the shift. *)
Inductive transition
    : list StackItem -> nat -> list StackItem -> nat -> Prop :=
| T_number t len below i :
    kind t = token_kinds.number ->
    transition (mkStackItem (Tok t) len :: below) i
               (mkStackItem (Nd (ast.NumberNode t)) 1 :: below) i
| T_identifier t len below i :
    kind t = token_kinds.identifier ->
    transition (mkStackItem (Tok t) len :: below) i
               (mkStackItem (Nd (ast.IdentifierNode t)) 1 :: below) i
| T_paren c clen e elen o olen below i :
    kind c = token_kinds.close_paren ->
    kind o = token_kinds.open_paren ->
    transition (mkStackItem (Tok c) clen :: mkStackItem (Nd e) elen
                  :: mkStackItem (Tok o) olen :: below) i
               (mkStackItem (Nd (ast.ParenExprNode e)) (elen + 2) :: below) i
| T_binary r rlen op oplen l llen below i :
    in_binary_operators (kind op) = true ->
    next_is_higher tokens i op = false ->
    both_assignment tokens i op = false ->
    transition (mkStackItem (Nd r) rlen :: mkStackItem (Tok op) oplen
                  :: mkStackItem (Nd l) llen :: below) i
               (mkStackItem (Nd (ast.BinaryOperatorNode l op r))
                            (llen + oplen + rlen) :: below) i
| T_shift stack i t :
    nth_error tokens i = Some t ->
    may_shift (kind t) = true ->
    transition stack i (mkStackItem (Tok t) 1 :: stack) (S i).

(** Runs of the loop: any number of passes that continue. *)
Inductive steps : list StackItem -> nat -> list StackItem -> nat -> Prop :=
| steps_refl stack i : steps stack i stack i
| steps_step stack i stack1 i1 stack2 i2 :
    step tokens stack i = Continue stack1 i1 ->
    steps stack1 i1 stack2 i2 ->
    steps stack i stack2 i2.
End Runs.

(** Number of input tokens the stack accounts for. *)
Definition total_length (stack : list StackItem) : nat :=
  list_sum (map item_length stack).

(** A raw token on the stack has span 1, a node a span of at least 1. *)
Definition span_ok (s : StackItem) : Prop :=
  match item s with
  | Tok _ => item_length s = 1
  | Nd _ => 1 <= item_length s
  end.

Section Spans.
Variable tokens : list Token.
Variable index : nat.

(** The items of the stack cover the tokens between the starting position
    and the cursor, each item at least one of them. *)
Definition spans_ok (stack : list StackItem) (i : nat) : Prop :=
  index + total_length stack = i
  /\ Forall span_ok stack
  /\ (stack <> [] -> i <= length tokens).
End Spans.

(** ** Chains of operands and operators *)

(** Number of tokens a node was built from. *)
Fixpoint span (n : Node) : nat :=
  match n with
  | ast.MainNode nodes => 6 + list_sum (map span nodes)
  | ast.ReturnNode e => span e + 2
  | ast.ExprStatementNode e => span e + 1
  | ast.NumberNode _ => 1
  | ast.IdentifierNode _ => 1
  | ast.ParenExprNode e => span e + 2
  | ast.BinaryOperatorNode l _ r => span l + 1 + span r
  | ast.DeclarationNode _ => 3
  end.

Definition node_item (n : Node) : StackItem := mkStackItem (Nd n) (span n).

Definition token_item (t : Token) : StackItem := mkStackItem (Tok t) 1.

(** The next input token pre-empts the reduction of the stacked operator
    [op]: it has a higher precedence, or both are assignments. *)
Definition preempts (next : option Token) (op : Token) : bool :=
  match next with
  | Some t =>
      match binary_operators (kind t), binary_operators (kind op) with
      | Some p, Some q => q <? p
      | _, _ => false
      end
      || (assignment_operators (kind op) && assignment_operators (kind t))
  | None => false
  end.

(** Operands with a pending operator, innermost first: what the stack holds
    above its base while a chain of operators is being read. *)
Definition Pending : Type := list (Node * Token).

Fixpoint pending_stack (p : Pending) (base : list StackItem) : list StackItem :=
  match p with
  | [] => base
  | (l, op) :: p' => token_item op :: node_item l :: pending_stack p' base
  end.

(** The reductions the engine performs on a completed operand [n] before it
    looks at anything but the next token. *)
Fixpoint collapse (next : option Token) (p : Pending) (n : Node)
    : Pending * Node :=
  match p with
  | [] => ([], n)
  | (l, op) :: p' =>
      if preempts next op then (p, n)
      else collapse next p' (ast.BinaryOperatorNode l op n)
  end.

(** The tree the engine builds from an operand [n] followed by operators
    and operands [rest], with [p] pending. *)
Fixpoint fold_chain (p : Pending) (n : Node) (rest : list (Token * Node))
    : Node :=
  match rest with
  | [] => snd (collapse None p n)
  | (op, m) :: rest' =>
      fold_chain ((snd (collapse (Some op) p n), op)
                    :: fst (collapse (Some op) p n)) m rest'
  end.

Definition chain_tree (first : Node) (rest : list (Token * Node)) : Node :=
  fold_chain [] first rest.

(** Token lists that form an operand, and token lists that form a chain of
    operands separated by binary operators, each with the trees of its
    operands. *)
Inductive operand_of : list Token -> Node -> Prop :=
| operand_number t :
    kind t = token_kinds.number -> operand_of [t] (ast.NumberNode t)
| operand_identifier t :
    kind t = token_kinds.identifier -> operand_of [t] (ast.IdentifierNode t)
| operand_paren o e c first rest :
    kind o = token_kinds.open_paren ->
    kind c = token_kinds.close_paren ->
    chain_of e first rest ->
    operand_of (o :: e ++ [c]) (ast.ParenExprNode (chain_tree first rest))
with chain_of : list Token -> Node -> list (Token * Node) -> Prop :=
| chain_one a n :
    operand_of a n -> chain_of a n []
| chain_more a n op e m rest :
    operand_of a n ->
    in_binary_operators (kind op) = true ->
    chain_of e m rest ->
    chain_of (a ++ op :: e) n ((op, m) :: rest).

Scheme operand_of_mut := Minimality for operand_of Sort Prop
  with chain_of_mut := Minimality for chain_of Sort Prop.

Combined Scheme operand_chain_ind from operand_of_mut, chain_of_mut.

(** The stack is waiting for an operand: it is empty, or its top is an open
    parenthesis or a binary operator. *)
Definition awaiting (stack : list StackItem) : Prop :=
  match stack with
  | [] => True
  | s :: _ => exists t, s = token_item t
                        /\ (kind t = token_kinds.open_paren
                            \/ in_binary_operators (kind t) = true)
  end.

(** The part of the stack no reduction of the current chain can reach. *)
Definition barrier (base : list StackItem) : Prop :=
  match base with
  | [] => True
  | s :: _ => exists o, s = token_item o /\ kind o = token_kinds.open_paren
  end.

Definition binary_pending (p : Pending) : Prop :=
  Forall (fun lo => in_binary_operators (kind (snd lo)) = true) p.

(** The input that follows does not start with a binary operator. *)
Definition no_operator_next (post : list Token) : Prop :=
  match post with
  | [] => True
  | t :: _ => in_binary_operators (kind t) = false
  end.

(** An input cannot continue the expression: it is exhausted or its next
    token is none of those the engine shifts. *)
Definition stops (post : list Token) : Prop :=
  match post with
  | [] => True
  | t :: _ => may_shift (kind t) = false
  end.

(** ** Chains of numbers and identifiers *)

Definition is_atom (t : Token) : Prop :=
  kind t = token_kinds.number \/ kind t = token_kinds.identifier.

(** The node the engine makes of a number or identifier token. *)
Definition atom_node (t : Token) : Node :=
  match kind t with
  | token_kinds.number => ast.NumberNode t
  | _ => ast.IdentifierNode t
  end.

(** The tokens of [first op1 a1 op2 a2 ...]. *)
Definition chain_tokens (first : Token) (rest : list (Token * Token))
    : list Token :=
  first :: flat_map (fun oa => [fst oa; snd oa]) rest.

Definition atom_nodes (rest : list (Token * Token)) : list (Token * Node) :=
  map (fun oa => (fst oa, atom_node (snd oa))) rest.

(** The tokens held by the leaves of a tree, read left to right. *)
Fixpoint leaves (n : Node) : list Token :=
  match n with
  | ast.MainNode nodes => flat_map leaves nodes
  | ast.ReturnNode e => leaves e
  | ast.ExprStatementNode e => leaves e
  | ast.NumberNode t => [t]
  | ast.IdentifierNode t => [t]
  | ast.ParenExprNode e => leaves e
  | ast.BinaryOperatorNode l op r => leaves l ++ op :: leaves r
  | ast.DeclarationNode t => [t]
  end.

(** [attach (Some (l, op)) n] is [l op n]; nothing is attached to [None]. *)
Definition attach (left : option (Node * Token)) (n : Node) : Node :=
  match left with
  | Some (l, op) => ast.BinaryOperatorNode l op n
  | None => n
  end.

(** The tree of a sum of products, read left to right: [sum] is the sum so
    far with its [+], [prod] the product so far with its [*], [n] the
    operand just read. *)
Fixpoint sum_of_products (sum prod : option (Node * Token)) (n : Node)
    (rest : list (Token * Token)) : Node :=
  match rest with
  | [] => attach sum (attach prod n)
  | (op, a) :: rest' =>
      if token_kinds.eqb (kind op) token_kinds.star
      then sum_of_products sum (Some (attach prod n, op)) (atom_node a) rest'
      else sum_of_products (Some (attach sum (attach prod n), op)) None
                           (atom_node a) rest'
  end.

Definition expected_tree (first : Token) (rest : list (Token * Token)) : Node :=
  sum_of_products None None (atom_node first) rest.

(** Trees of the grammar [S ::= S + P | P], [P ::= P * A | A], where [A] is
    a number or an identifier: multiplication binds tighter than addition
    and both group to the left. *)
Inductive atom_tree : Node -> Prop :=
| atom_tree_number t :
    kind t = token_kinds.number -> atom_tree (ast.NumberNode t)
| atom_tree_identifier t :
    kind t = token_kinds.identifier -> atom_tree (ast.IdentifierNode t).

Inductive product_tree : Node -> Prop :=
| product_atom n : atom_tree n -> product_tree n
| product_star l op r :
    product_tree l -> kind op = token_kinds.star -> atom_tree r ->
    product_tree (ast.BinaryOperatorNode l op r).

Inductive sum_tree : Node -> Prop :=
| sum_product n : product_tree n -> sum_tree n
| sum_plus l op r :
    sum_tree l -> kind op = token_kinds.plus -> product_tree r ->
    sum_tree (ast.BinaryOperatorNode l op r).

Definition plus_or_star (op : Token) : Prop :=
  kind op = token_kinds.plus \/ kind op = token_kinds.star.

Definition sum_pending (sum : option (Node * Token)) : Prop :=
  match sum with
  | Some (s, op) => sum_tree s /\ kind op = token_kinds.plus
  | None => True
  end.

Definition product_pending (prod : option (Node * Token)) : Prop :=
  match prod with
  | Some (p, op) => product_tree p /\ kind op = token_kinds.star
  | None => True
  end.

Definition pending_of (left : option (Node * Token)) : Pending :=
  match left with Some lo => [lo] | None => [] end.

Definition pending_leaves (left : option (Node * Token)) : list Token :=
  match left with Some (l, op) => leaves l ++ [op] | None => [] end.

Definition operator_kind (k : TokenKind) (left : option (Node * Token)) : Prop :=
  match left with
  | Some (_, op) => kind op = k
  | None => True
  end.

(** The right-nested tree of [n op1 m1 op2 m2 ...]. *)
Fixpoint right_chain (n : Node) (rest : list (Token * Node)) : Node :=
  match rest with
  | [] => n
  | (op, m) :: rest' => ast.BinaryOperatorNode n op (right_chain m rest')
  end.

(** The tree [a = (b = (c = ...))] of a chain of identifiers. *)
Definition assignment_tree (first : Token) (rest : list (Token * Token)) : Node :=
  right_chain (ast.IdentifierNode first)
              (map (fun oa => (fst oa, ast.IdentifierNode (snd oa))) rest).

Definition assignments (p : Pending) : Prop :=
  Forall (fun lo => kind (snd lo) = token_kinds.equals) p.

(** ** Outcomes and the best-error slot *)

(** Outcomes that are neither a cut-off loop nor the internal
    [MatchError]. *)
Definition clean {A : Type} (r : Outcome A) : Prop :=
  r <> OutOfFuel /\ r <> Raise MatchError.

(** [e] is, among the errors of [l] (oldest first), the newest of those
    whose amount parsed is maximal. *)
Definition newest_max (l : list ParserError) (e : ParserError) : Prop :=
  exists older newer,
    l = older ++ e :: newer
    /\ Forall (fun x => amount_parsed x <= amount_parsed e) older
    /\ Forall (fun x => amount_parsed x < amount_parsed e) newer.

(** The slot holds what the history of logged errors determines: nothing
    before the first error, the newest maximal error afterwards. *)
Definition tracks (self : ParserState) : Prop :=
  match best_error self with
  | None => logged self = []
  | Some e => newest_max (logged self) e
  end.

(** A failing statement list: the statement that got furthest decides the
    error that is raised.  On [int main(){ return 4 }] the main production
    fails with "expected closing brace" at index 5, and [parse] raises the
    "expected semicolon" error logged at index 7. *)
Definition missing_semicolon : list Token :=
  [t_int; t_main; t_lparen; t_rparen; t_lbrace; t_return; t_num "4"; t_rbrace].

(** ** Token spans of trees *)

(** What a tree retains of a token: its kind, and the token itself when it
    is stored in a leaf (numbers, identifiers and operators).  Keywords and
    punctuation are not stored, so only their kind can be recovered. *)
Definition Shape : Type := (TokenKind * option Token)%type.

Definition is_leaf_kind (k : TokenKind) : bool :=
  match k with
  | token_kinds.number | token_kinds.identifier
  | token_kinds.plus | token_kinds.star | token_kinds.equals => true
  | _ => false
  end.

Definition describe (t : Token) : Shape :=
  (kind t, if is_leaf_kind (kind t) then Some t else None).

Definition leaf (t : Token) : Shape := (kind t, Some t).

Definition punct (k : TokenKind) : Shape := (k, None).

(** Modelled from the spec: the token span of a node, flattened left to
    right.  Leaves contribute their token, every other position the kind of
    keyword or punctuation the production of the node consumed there. *)
Fixpoint flatten (n : Node) : list Shape :=
  match n with
  | ast.MainNode nodes =>
      map punct kinds_before ++ flat_map flatten nodes
        ++ [punct token_kinds.close_brack]
  | ast.ReturnNode e =>
      punct token_kinds.return_kw :: flatten e ++ [punct token_kinds.semicolon]
  | ast.ExprStatementNode e => flatten e ++ [punct token_kinds.semicolon]
  | ast.NumberNode t => [leaf t]
  | ast.IdentifierNode t => [leaf t]
  | ast.ParenExprNode e =>
      punct token_kinds.open_paren :: flatten e
        ++ [punct token_kinds.close_paren]
  | ast.BinaryOperatorNode l op r => flatten l ++ leaf op :: flatten r
  | ast.DeclarationNode t =>
      [punct token_kinds.int_kw; leaf t; punct token_kinds.semicolon]
  end.

(** The token a position of a flattened span carries, if any. *)
Definition stored (sh : Shape) : list Token :=
  match snd sh with
  | Some t => [t]
  | None => []
  end.

(** The tokens of a list that trees store in their leaves. *)
Definition leaf_tokens (tokens : list Token) : list Token :=
  filter (fun t => is_leaf_kind (kind t)) tokens.

(** [tokens[index:j]]. *)
Definition segment (tokens : list Token) (index j : nat) : list Token :=
  firstn (j - index) (skipn index tokens).

(** What an item of the stack stands for. *)
Definition yield (s : StackItem) : list Shape :=
  match item s with
  | Tok t => [describe t]
  | Nd n => flatten n
  end.

(** The stack read from the bottom up. *)
Definition stack_yield (stack : list StackItem) : list Shape :=
  concat (map yield (rev stack)).

Section Yields.
Variable tokens : list Token.
Variable index : nat.

(** The stack stands for the tokens between the starting position and the
    cursor, and the recorded span of each item is the number of tokens it
    stands for. *)
Definition yields_ok (stack : list StackItem) (i : nat) : Prop :=
  stack_yield stack = map describe (segment tokens index i)
  /\ Forall (fun s => length (yield s) = item_length s) stack.
End Yields.

(** ** Valid programs *)

(** The expressions of the grammar, as token lists:
    [E ::= number | identifier | ( E ) | E op E]. *)
Inductive expression : list Token -> Prop :=
| expression_number t :
    kind t = token_kinds.number -> expression [t]
| expression_identifier t :
    kind t = token_kinds.identifier -> expression [t]
| expression_paren o e c :
    kind o = token_kinds.open_paren -> expression e ->
    kind c = token_kinds.close_paren -> expression (o :: e ++ [c])
| expression_binary l op r :
    expression l -> in_binary_operators (kind op) = true -> expression r ->
    expression (l ++ op :: r).

(** A statement or declaration: [return E ;], [E ;] or [int identifier ;]. *)
Inductive body_item : list Token -> Prop :=
| item_return kw e s :
    kind kw = token_kinds.return_kw -> expression e ->
    kind s = token_kinds.semicolon -> body_item (kw :: e ++ [s])
| item_expression e s :
    expression e -> kind s = token_kinds.semicolon -> body_item (e ++ [s])
| item_declaration ty name s :
    kind ty = token_kinds.int_kw -> kind name = token_kinds.identifier ->
    kind s = token_kinds.semicolon -> body_item [ty; name; s].

Inductive body : list Token -> Prop :=
| body_nil : body []
| body_cons it rest : body_item it -> body rest -> body (it ++ rest).

(** [int main ( ) { <statements and declarations> }]. *)
Definition valid_program (tokens : list Token) : Prop :=
  exists header items close,
    tokens = header ++ items ++ [close]
    /\ map kind header = kinds_before
    /\ body items
    /\ kind close = token_kinds.close_brack.

(** [int main(){ int x; x = (4 + y) * 2; return x; }] *)
Definition sample_program : list Token :=
  [t_int; t_main; t_lparen; t_rparen; t_lbrace;
   t_int; t_id "x"; t_semi;
   t_id "x"; t_eq; t_lparen; t_num "4"; t_plus; t_id "y"; t_rparen; t_star;
   t_num "2"; t_semi;
   t_return; t_id "x"; t_semi;
   t_rbrace].

(** ** Further vocabulary: expression trees and grouping *)

(** The trees the expression engine builds: numbers, identifiers,
    parenthesised trees and binary operators, each leaf token of the kind
    its node says. *)
Inductive expression_tree : Node -> Prop :=
| expression_tree_number t :
    kind t = token_kinds.number -> expression_tree (ast.NumberNode t)
| expression_tree_identifier t :
    kind t = token_kinds.identifier -> expression_tree (ast.IdentifierNode t)
| expression_tree_paren e :
    expression_tree e -> expression_tree (ast.ParenExprNode e)
| expression_tree_binary l op r :
    expression_tree l -> in_binary_operators (kind op) = true ->
    expression_tree r -> expression_tree (ast.BinaryOperatorNode l op r).

(** Every node on the stack is an expression tree. *)
Definition trees_ok (stack : list StackItem) : Prop :=
  Forall (fun s => match item s with
                   | Nd n => expression_tree n
                   | Tok _ => True
                   end) stack.

(** The operator at the root of a tree, if the root is a binary node. *)
Definition root_operator (n : Node) : option Token :=
  match n with
  | ast.BinaryOperatorNode _ op _ => Some op
  | _ => None
  end.

(** A tree whose root operator is [child] may stand to the left of [op]:
    [child] binds at least as tightly as [op], and the two are not both
    assignments. *)
Definition may_be_left (child op : Token) : bool :=
  match binary_operators (kind child), binary_operators (kind op) with
  | Some c, Some o =>
      (o <=? c)
      && negb (assignment_operators (kind child)
               && assignment_operators (kind op))
  | _, _ => false
  end.

(** A tree whose root operator is [child] may stand to the right of [op]:
    [child] binds strictly tighter than [op], or both are assignments. *)
Definition may_be_right (child op : Token) : bool :=
  match binary_operators (kind child), binary_operators (kind op) with
  | Some c, Some o =>
      (o <? c)
      || (assignment_operators (kind child) && assignment_operators (kind op))
  | _, _ => false
  end.

(** An operand fits next to [op]: it is not a binary node (a number, an
    identifier, a parenthesised tree), or its root operator may stand
    there. *)
Definition operand_fits (fits : Token -> Token -> bool) (child : Node)
    (op : Token) : Prop :=
  match root_operator child with
  | Some o => fits o op = true
  | None => True
  end.

(** Trees grouped by precedence and associativity, at every binary node
    outside and inside parentheses. *)
Inductive well_grouped : Node -> Prop :=
| well_grouped_number t : well_grouped (ast.NumberNode t)
| well_grouped_identifier t : well_grouped (ast.IdentifierNode t)
| well_grouped_paren e : well_grouped e -> well_grouped (ast.ParenExprNode e)
| well_grouped_binary l op r :
    well_grouped l -> well_grouped r ->
    operand_fits may_be_left l op -> operand_fits may_be_right r op ->
    well_grouped (ast.BinaryOperatorNode l op r).

(** What the engine keeps true of the pending operands: each is well
    grouped and fits to the left of its operator, and each operator may be
    the root of the right operand of the one pending below it. *)
Fixpoint pending_ok (p : Pending) : Prop :=
  match p with
  | [] => True
  | (l, op) :: p' =>
      well_grouped l /\ operand_fits may_be_left l op
      /\ in_binary_operators (kind op) = true
      /\ match p' with
         | (_, op') :: _ => may_be_right op op' = true
         | [] => True
         end
      /\ pending_ok p'
  end.

(** The operand just completed fits to the right of the innermost pending
    operator. *)
Definition fits_top (n : Node) (p : Pending) : Prop :=
  match p with
  | (_, op) :: _ => operand_fits may_be_right n op
  | [] => True
  end.

(** An operand of a chain: well grouped and not itself a binary node. *)
Definition closed_operand (n : Node) : Prop :=
  well_grouped n /\ root_operator n = None.

(** The bottom item of the stack ([stack[0]]), if there is one. *)
Fixpoint bottom (stack : list StackItem) : option StackItem :=
  match stack with
  | [] => None
  | [s] => Some s
  | _ :: below => bottom below
  end.

Definition bottom_is_node (stack : list StackItem) : Prop :=
  match bottom stack with
  | Some {| item := Nd _ |} => True
  | _ => False
  end.

(** The bottom item is a raw token that no reduction can ever consume: a
    close parenthesis or a binary operator. *)
Definition bottom_is_stuck (stack : list StackItem) : Prop :=
  match bottom stack with
  | Some {| item := Tok t |} =>
      kind t = token_kinds.close_paren \/ in_binary_operators (kind t) = true
  | _ => False
  end.

(** No expression can start at [index]: the input ends there, or the token
    found is neither a number, nor an identifier, nor an open
    parenthesis. *)
Definition cannot_start (tokens : list Token) (index : nat) : Prop :=
  match nth_error tokens index with
  | None => True
  | Some t => kind t <> token_kinds.number
              /\ kind t <> token_kinds.identifier
              /\ kind t <> token_kinds.open_paren
  end.

(** An outcome that is a value or a diagnostic anchored at an index of at
    most [bound]: no other exception, no loop cut off. *)
Definition diagnostic {A : Type} (bound : nat) (r : Outcome A) : Prop :=
  match r with
  | Ok _ => True
  | Raise (ParserErr e) => error_index e <= bound
  | _ => False
  end.

(** Every error logged so far is anchored at an index of at most [bound]. *)
Definition log_within (bound : nat) (self : ParserState) : Prop :=
  Forall (fun e => error_index e <= bound) (logged self).

(** The token list has a token of kind [k] at position [i]. *)
Definition has_kind (tokens : list Token) (i : nat) (k : TokenKind) : Prop :=
  exists t, nth_error tokens i = Some t /\ kind t = k.

(** [self'] continues [self]: the history has only grown, and a best error
    that was held is still held or replaced by one that parsed at least as
    much. *)
Definition continues (self self' : ParserState) : Prop :=
  (exists more, logged self' = logged self ++ more)
  /\ (forall b, best_error self = Some b ->
        exists b', best_error self' = Some b'
                   /\ amount_parsed b <= amount_parsed b').

(** * Properties *)

(** ** Token kinds *)

Lemma kind_eqb_eq (a b : TokenKind) : token_kinds.eqb a b = true <-> a = b.
Proof.
  split.
  - destruct a, b; simpl; intro H; try reflexivity; discriminate H.
  - intros ->. destruct b; reflexivity.
Qed.

Lemma kind_eqb_refl (a : TokenKind) : token_kinds.eqb a a = true.
Proof. apply kind_eqb_eq. reflexivity. Qed.

Lemma kind_eqb_neq (a b : TokenKind) : token_kinds.eqb a b = false <-> a <> b.
Proof.
  split.
  - intros H E. apply kind_eqb_eq in E. congruence.
  - intro H. destruct (token_kinds.eqb a b) eqn:E; [|reflexivity].
    apply kind_eqb_eq in E. contradiction.
Qed.

(** ** The token matcher *)

Lemma all_kinds_match (ks : list TokenKind) : forall toks : list Token,
  length ks <= length toks ->
  (forallb (fun kt => token_kinds.eqb (fst kt) (kind (snd kt))) (combine ks toks)
     = true
   <-> map kind (firstn (length ks) toks) = ks).
Proof.
  induction ks as [|k ks IH]; intros toks Hlen.
  - simpl. split; reflexivity.
  - destruct toks as [|t toks]; [simpl in Hlen; lia|].
    simpl in Hlen. simpl. rewrite andb_true_iff, IH by lia.
    rewrite kind_eqb_eq. split.
    + intros [-> ->]. reflexivity.
    + intro H. injection H as H1 H2. split; [symmetry|]; assumption.
Qed.

Lemma kinds_at_short (tokens : list Token) (index n : nat) :
  length tokens - index < n -> length (kinds_at tokens index n) < n.
Proof.
  intro H. unfold kinds_at.
  rewrite length_map, length_firstn, length_skipn. lia.
Qed.

Lemma match_tokens_cases (tokens : list Token) (index : nat) (ks : list TokenKind) :
  (kinds_at tokens index (length ks) = ks
   /\ match_tokens tokens index ks = Ok (index + length ks))
  \/ (kinds_at tokens index (length ks) <> ks
      /\ match_tokens tokens index ks = Raise MatchError).
Proof.
  unfold match_tokens.
  destruct (length (skipn index tokens) <? length ks) eqn:Hlt.
  - right. split; [|reflexivity].
    apply Nat.ltb_lt in Hlt. rewrite length_skipn in Hlt.
    intro E. pose proof (kinds_at_short tokens index _ Hlt) as Hs.
    rewrite E in Hs. lia.
  - apply Nat.ltb_ge in Hlt.
    pose proof (all_kinds_match ks (skipn index tokens) Hlt) as Hiff.
    destruct (forallb _ _).
    + left. split; [|reflexivity]. apply Hiff. reflexivity.
    + right. split; [|reflexivity]. intro E. apply Hiff in E. discriminate E.
Qed.

Lemma match_token_cases (tokens : list Token) (index : nat) (k : TokenKind) :
  (exists t, nth_error tokens index = Some t /\ kind t = k
             /\ match_token tokens index k = Ok (S index))
  \/ ((forall t, nth_error tokens index = Some t -> kind t <> k)
      /\ match_token tokens index k = Raise MatchError).
Proof.
  unfold match_token.
  destruct (match_tokens_cases tokens index [k]) as [[Hk Hm]|[Hk Hm]];
    unfold kinds_at in Hk; simpl in Hk.
  - left. destruct (skipn index tokens) as [|t rest] eqn:Hs; [discriminate Hk|].
    exists t. simpl in Hk. injection Hk as Hk.
    repeat split; [|assumption|].
    + rewrite <- (firstn_skipn index tokens) at 1.
      destruct (Nat.le_gt_cases (length tokens) index) as [Hle|Hgt].
      * rewrite skipn_all2 in Hs by assumption. discriminate Hs.
      * rewrite nth_error_app2; rewrite length_firstn.
        -- replace (index - Nat.min index (length tokens)) with 0 by lia.
           rewrite Hs. reflexivity.
        -- lia.
    + rewrite Hm. f_equal. simpl. lia.
  - right. split; [|assumption]. intros t Ht Hkt. apply Hk.
    apply nth_error_split in Ht. destruct Ht as (l1 & l2 & -> & <-).
    rewrite skipn_app, skipn_all, Nat.sub_diag. simpl. rewrite Hkt. reflexivity.
Qed.

(** C7: [match_tokens] succeeds, returning [index + len(kinds_expected)],
    exactly when the tokens found from [index] on have the expected kinds in
    order; in every other case it raises [MatchError], and it does so in
    particular when fewer tokens remain than kinds are expected.  Its only
    outcomes are these two, so no access outside the token list is made. *)
Theorem match_tokens_contract :
  forall (tokens : list Token) (index : nat) (kinds_expected : list TokenKind),
    (match_tokens tokens index kinds_expected
       = Ok (index + length kinds_expected)
     <-> kinds_at tokens index (length kinds_expected) = kinds_expected)
    /\ (match_tokens tokens index kinds_expected
          = Ok (index + length kinds_expected)
        \/ match_tokens tokens index kinds_expected = Raise MatchError)
    /\ (length tokens - index < length kinds_expected ->
        match_tokens tokens index kinds_expected = Raise MatchError).
Proof.
  intros tokens index ks.
  destruct (match_tokens_cases tokens index ks) as [[Hk Hm]|[Hk Hm]].
  - repeat split.
    + intros _. exact Hk.
    + intros _. exact Hm.
    + left. exact Hm.
    + intro Hshort. apply kinds_at_short in Hshort. rewrite Hk in Hshort. lia.
  - repeat split.
    + rewrite Hm. discriminate.
    + intro E. contradiction.
    + right. exact Hm.
    + intros _. exact Hm.
Qed.

(** With two tokens left, five expected kinds cannot match. *)
Lemma match_tokens_contract_witness :
  match_tokens [t_int; t_main] 0 kinds_before = Raise MatchError.
Proof.
  apply (proj2 (proj2 (match_tokens_contract [t_int; t_main] 0 kinds_before))).
  simpl. lia.
Defined.

(** ** The expression engine: one pass of the loop *)

Section EngineFacts.
Variable tokens : list Token.

Lemma reduce_number_Some stack stack' :
  reduce_number stack = Some stack' -> forall i, transition tokens stack i stack' i.
Proof.
  unfold reduce_number. intros H i.
  destruct stack as [|[[t|n] len] below]; try discriminate H.
  destruct (token_kinds.eqb (kind t) token_kinds.number) eqn:E;
    [|discriminate H].
  injection H as <-. apply T_number. apply kind_eqb_eq. exact E.
Qed.

Lemma reduce_identifier_Some stack stack' :
  reduce_identifier stack = Some stack' -> forall i, transition tokens stack i stack' i.
Proof.
  unfold reduce_identifier. intros H i.
  destruct stack as [|[[t|n] len] below]; try discriminate H.
  destruct (token_kinds.eqb (kind t) token_kinds.identifier) eqn:E;
    [|discriminate H].
  injection H as <-. apply T_identifier. apply kind_eqb_eq. exact E.
Qed.

Lemma reduce_paren_Some stack stack' :
  reduce_paren stack = Some stack' -> forall i, transition tokens stack i stack' i.
Proof.
  unfold reduce_paren. intros H i.
  destruct stack as [|[[c|?] clen] [|[[?|e] elen] [|[[o|?] olen] below]]];
    try discriminate H.
  destruct (token_kinds.eqb (kind c) token_kinds.close_paren) eqn:E1;
    [|discriminate H].
  destruct (token_kinds.eqb (kind o) token_kinds.open_paren) eqn:E2;
    [|discriminate H].
  injection H as <-. apply T_paren; apply kind_eqb_eq; assumption.
Qed.

Lemma reduce_binary_Some stack stack' i :
  reduce_binary tokens stack i = Some stack' -> transition tokens stack i stack' i.
Proof.
  unfold reduce_binary. intro H.
  destruct stack as [|[[?|r] rlen] [|[[op|?] oplen] [|[[?|l] llen] below]]];
    try discriminate H.
  destruct (in_binary_operators (kind op)) eqn:E1; [|discriminate H].
  destruct (next_is_higher tokens i op) eqn:E2; [discriminate H|].
  destruct (both_assignment tokens i op) eqn:E3; [discriminate H|].
  injection H as <-. apply T_binary; assumption.
Qed.

Lemma step_Continue stack i stack' i' :
  step tokens stack i = Continue stack' i' -> transition tokens stack i stack' i'.
Proof.
  unfold step. intro H.
  destruct (reduce_number stack) as [s1|] eqn:R1.
  { injection H as <- <-. apply reduce_number_Some. exact R1. }
  destruct (reduce_identifier stack) as [s2|] eqn:R2.
  { injection H as <- <-. apply reduce_identifier_Some. exact R2. }
  destruct (reduce_paren stack) as [s3|] eqn:R3.
  { injection H as <- <-. apply reduce_paren_Some. exact R3. }
  destruct (reduce_binary tokens stack i) as [s4|] eqn:R4.
  { injection H as <- <-. apply reduce_binary_Some. exact R4. }
  unfold shift in H.
  destruct (i =? length tokens); [discriminate H|].
  destruct (nth_error tokens i) as [t|] eqn:Ht; [|discriminate H].
  destruct (may_shift (kind t)) eqn:Hs; [|discriminate H].
  injection H as <- <-. apply T_shift; assumption.
Qed.

(** A pass crashes only when the cursor lies beyond the end of the list. *)
Lemma step_Crash stack i :
  step tokens stack i = Crash -> length tokens < i.
Proof.
  unfold step. intro H.
  destruct (reduce_number stack); [discriminate H|].
  destruct (reduce_identifier stack); [discriminate H|].
  destruct (reduce_paren stack); [discriminate H|].
  destruct (reduce_binary tokens stack i); [discriminate H|].
  unfold shift in H.
  destruct (i =? length tokens) eqn:E; [discriminate H|].
  apply Nat.eqb_neq in E.
  destruct (nth_error tokens i) as [t|] eqn:Ht.
  - destruct (may_shift (kind t)); discriminate H.
  - apply nth_error_None in Ht. lia.
Qed.

(** Each shift advances the cursor; each reduction leaves the cursor in
    place and either shrinks the stack or keeps its height and turns its
    top raw token into a node. *)
Lemma transition_progress stack i stack' i' :
  transition tokens stack i stack' i' ->
  (i' = S i /\ i < length tokens /\ length stack' = S (length stack)
   /\ raw_count stack' = S (raw_count stack))
  \/ (i' = i /\ length stack' < length stack
      /\ raw_count stack' <= raw_count stack)
  \/ (i' = i /\ length stack' = length stack
      /\ raw_count stack' < raw_count stack).
Proof.
  intro H. destruct H; unfold raw_count; simpl.
  - right. right. lia.
  - right. right. lia.
  - right. left. lia.
  - right. left. lia.
  - left. repeat split. apply nth_error_Some. congruence.
Qed.

Lemma transition_measure stack i stack' i' :
  transition tokens stack i stack' i' ->
  measure tokens stack' i' < measure tokens stack i.
Proof.
  intro H. apply transition_progress in H. unfold measure.
  destruct H as [(-> & ? & -> & ->)|[(-> & ? & ?)|(-> & ? & ?)]]; lia.
Qed.

Lemma steps_trans s1 i1 s2 i2 s3 i3 :
  steps tokens s1 i1 s2 i2 -> steps tokens s2 i2 s3 i3 -> steps tokens s1 i1 s3 i3.
Proof.
  induction 1; intro H'; [assumption|].
  eapply steps_step; [eassumption|]. apply IHsteps. exact H'.
Qed.

Lemma steps_one s i s' i' :
  step tokens s i = Continue s' i' -> steps tokens s i s' i'.
Proof. intro H. eapply steps_step; [exact H|apply steps_refl]. Qed.

(** With more passes allowed than the measure of the state, the loop is
    never cut off. *)
Lemma loop_enough_fuel (fuel : nat) : forall stack i,
  measure tokens stack i < fuel -> loop tokens fuel stack i <> OutOfFuel.
Proof.
  induction fuel as [|fuel IH]; intros stack i Hm; [lia|].
  simpl. destruct (step tokens stack i) as [s1 i1| |] eqn:Hs;
    try discriminate.
  apply IH. apply step_Continue, transition_measure in Hs. lia.
Qed.

(** When the loop stops normally, it has run to a state whose pass
    breaks. *)
Lemma loop_Ok_steps (fuel : nat) : forall stack i final,
  loop tokens fuel stack i = Ok final ->
  exists i', steps tokens stack i final i' /\ step tokens final i' = Break.
Proof.
  induction fuel as [|fuel IH]; intros stack i final H; [discriminate H|].
  simpl in H. destruct (step tokens stack i) as [s1 i1| |] eqn:Hs.
  - destruct (IH _ _ _ H) as (i' & Hst & Hbr).
    exists i'. split; [|exact Hbr]. eapply steps_step; eassumption.
  - injection H as <-. exists i. split; [apply steps_refl|exact Hs].
  - discriminate H.
Qed.

Lemma steps_loop s i s' i' :
  steps tokens s i s' i' -> step tokens s' i' = Break ->
  forall fuel, measure tokens s i < fuel -> loop tokens fuel s i = Ok s'.
Proof.
  induction 1 as [s i|s i s1 i1 s2 i2 Hs Hrest IH]; intros Hbr fuel Hm.
  - destruct fuel as [|fuel]; [lia|]. simpl. rewrite Hbr. reflexivity.
  - destruct fuel as [|fuel]; [lia|]. simpl. rewrite Hs.
    apply IH; [exact Hbr|].
    apply step_Continue, transition_measure in Hs. lia.
Qed.

Lemma loop_Crash (fuel : nat) : forall stack i e,
  loop tokens fuel stack i = Raise e ->
  e = IndexError /\ exists final i', steps tokens stack i final i'
                                    /\ step tokens final i' = Crash.
Proof.
  induction fuel as [|fuel IH]; intros stack i e H; [discriminate H|].
  simpl in H. destruct (step tokens stack i) as [s1 i1| |] eqn:Hs.
  - destruct (IH _ _ _ H) as (He & final & i' & Hst & Hc).
    split; [exact He|]. exists final, i'. split; [|exact Hc].
    eapply steps_step; eassumption.
  - discriminate H.
  - injection H as <-. split; [reflexivity|].
    exists stack, i. split; [apply steps_refl|exact Hs].
Qed.
End EngineFacts.

(** ** The expression engine: spans of the stack items *)

Lemma total_length_app (s1 s2 : list StackItem) :
  total_length (s1 ++ s2) = total_length s1 + total_length s2.
Proof. unfold total_length. rewrite map_app, list_sum_app. reflexivity. Qed.

Section EngineSpans.
Variable tokens : list Token.
Variable index : nat.

Lemma span_ok_pos s : span_ok s -> 1 <= item_length s.
Proof. unfold span_ok. destruct (item s); lia. Qed.

Lemma spans_ok_init : spans_ok tokens index [] index.
Proof.
  unfold spans_ok, total_length. simpl.
  split; [lia|]. split; [constructor|]. intro H. contradiction.
Qed.

Lemma spans_ok_transition stack i stack' i' :
  transition tokens stack i stack' i' ->
  spans_ok tokens index stack i -> spans_ok tokens index stack' i'.
Proof.
  intros Ht (Hsum & Hall & Hle).
  assert (Hne : forall (x : StackItem) l, x :: l <> []) by discriminate.
  destruct Ht; unfold spans_ok, total_length in *; simpl in *.
  - inversion Hall as [|? ? Ha Hall1]; subst. unfold span_ok in Ha.
    simpl in Ha. repeat split; try lia.
    + constructor; [unfold span_ok; simpl; lia|assumption].
    + intros _. apply Hle, Hne.
  - inversion Hall as [|? ? Ha Hall1]; subst. unfold span_ok in Ha.
    simpl in Ha. repeat split; try lia.
    + constructor; [unfold span_ok; simpl; lia|assumption].
    + intros _. apply Hle, Hne.
  - inversion Hall as [|? ? Ha Hall1]; subst.
    inversion Hall1 as [|? ? Hb Hall2]; subst.
    inversion Hall2 as [|? ? Hc Hall3]; subst.
    unfold span_ok in Ha, Hb, Hc. simpl in *.
    repeat split; try lia.
    + constructor; [unfold span_ok; simpl; lia|assumption].
    + intros _. apply Hle, Hne.
  - inversion Hall as [|? ? Ha Hall1]; subst.
    inversion Hall1 as [|? ? Hb Hall2]; subst.
    inversion Hall2 as [|? ? Hc Hall3]; subst.
    unfold span_ok in Ha, Hb, Hc. simpl in *.
    repeat split; try lia.
    + constructor; [unfold span_ok; simpl; lia|assumption].
    + intros _. apply Hle, Hne.
  - repeat split; try lia.
    + constructor; [reflexivity|assumption].
    + intros _. apply Nat.le_succ_l. apply nth_error_Some. congruence.
Qed.

Lemma spans_ok_steps stack i stack' i' :
  steps tokens stack i stack' i' -> spans_ok tokens index stack i -> spans_ok tokens index stack' i'.
Proof.
  induction 1 as [|s i s1 i1 s2 i2 Hs Hrest IH]; intro Hok; [assumption|].
  apply IH. eapply spans_ok_transition; [|exact Hok].
  apply step_Continue. exact Hs.
Qed.

(** The three shapes of the final stack and what [finish] makes of them. *)
Lemma finish_node above n len :
  finish tokens index (above ++ [mkStackItem (Nd n) len]) = Ok (n, index + len).
Proof. unfold finish. rewrite rev_unit. reflexivity. Qed.

Lemma finish_token above t len :
  finish tokens index (above ++ [mkStackItem (Tok t) len])
  = Raise (ParserErr (ParserError_new "expected expression" index tokens GOT)).
Proof. unfold finish. rewrite rev_unit. reflexivity. Qed.

Lemma finish_empty :
  finish tokens index []
  = Raise (ParserErr (ParserError_new "expected expression" index tokens GOT)).
Proof. reflexivity. Qed.

Lemma finish_Ok stack n j :
  finish tokens index stack = Ok (n, j) ->
  exists above len, stack = above ++ [mkStackItem (Nd n) len]
                    /\ j = index + len.
Proof.
  destruct stack as [|x l] using rev_ind.
  - rewrite finish_empty. discriminate.
  - clear IHl. destruct x as [[t|m] len].
    + rewrite finish_token. discriminate.
    + rewrite finish_node. intro H. injection H as <- <-.
      exists l, len. split; reflexivity.
Qed.

Lemma finish_outcomes stack :
  (exists n j, finish tokens index stack = Ok (n, j))
  \/ finish tokens index stack
     = Raise (ParserErr (ParserError_new "expected expression" index tokens GOT)).
Proof.
  destruct stack as [|x l] using rev_ind.
  - right. apply finish_empty.
  - destruct x as [[t|m] len].
    + right. apply finish_token.
    + left. rewrite finish_node. eauto.
Qed.

(** The loop started by [parse_expression] is never cut off. *)
Lemma parse_expression_loop_total :
  loop tokens (S (measure tokens [] index)) [] index <> OutOfFuel.
Proof. apply loop_enough_fuel. lia. Qed.

(** [parse_expression] in terms of runs of the loop. *)
Lemma parse_expression_steps final i :
  steps tokens [] index final i -> step tokens final i = Break ->
  parse_expression tokens index = finish tokens index final.
Proof.
  intros Hst Hbr. unfold parse_expression.
  rewrite (steps_loop tokens _ _ _ _ Hst Hbr) by lia. reflexivity.
Qed.

Lemma parse_expression_Ok n j :
  parse_expression tokens index = Ok (n, j) ->
  exists final i above len,
    steps tokens [] index final i /\ step tokens final i = Break
    /\ final = above ++ [mkStackItem (Nd n) len] /\ j = index + len.
Proof.
  unfold parse_expression. intro H.
  destruct (loop tokens (S (measure tokens [] index)) [] index)
    as [final|e|] eqn:Hl; try discriminate H.
  destruct (loop_Ok_steps tokens _ _ _ _ Hl) as (i & Hst & Hbr).
  destruct (finish_Ok _ _ _ H) as (above & len & Hf & Hj).
  exists final, i, above, len. repeat split; assumption.
Qed.

(** A successful [parse_expression] consumes at least one token and stays
    within the token list. *)
Lemma parse_expression_progress n j :
  parse_expression tokens index = Ok (n, j) ->
  index < j /\ j <= length tokens.
Proof.
  intro H. apply parse_expression_Ok in H.
  destruct H as (final & i & above & len & Hst & _ & -> & ->).
  apply spans_ok_steps in Hst; [|apply spans_ok_init].
  destruct Hst as (Hsum & Hall & Hle).
  rewrite total_length_app in Hsum. unfold total_length in Hsum at 2.
  simpl in Hsum. apply Forall_app in Hall. destruct Hall as [_ Hall].
  inversion Hall as [|? ? H1 _]; subst. unfold span_ok in H1. simpl in H1.
  assert (above ++ [mkStackItem (Nd n) len] <> []) as Hne
    by (destruct above; discriminate).
  specialize (Hle Hne). lia.
Qed.

(** The only exceptions of [parse_expression] are its own diagnostic and
    the [IndexError] of a cursor beyond the end of the list. *)
Lemma parse_expression_Raise e :
  parse_expression tokens index = Raise e ->
  e = ParserErr (ParserError_new "expected expression" index tokens GOT)
  \/ (e = IndexError /\ length tokens < index).
Proof.
  unfold parse_expression. intro H.
  destruct (loop tokens (S (measure tokens [] index)) [] index)
    as [final|x|] eqn:Hl; try discriminate H.
  - destruct (finish_outcomes final) as [(n & j & Hf)|Hf];
      rewrite Hf in H; [discriminate H|].
    injection H as <-. left. reflexivity.
  - injection H as <-. right.
    destruct (loop_Crash tokens _ _ _ _ Hl) as (-> & final & i & Hst & Hc).
    split; [reflexivity|].
    apply step_Crash in Hc.
    apply spans_ok_steps in Hst; [|apply spans_ok_init].
    destruct Hst as (Hsum & _ & Hle).
    destruct final as [|x l].
    + unfold total_length in Hsum. simpl in Hsum. lia.
    + assert (i <= length tokens) by (apply Hle; discriminate). lia.
Qed.

Lemma parse_expression_not_OutOfFuel :
  parse_expression tokens index <> OutOfFuel.
Proof.
  unfold parse_expression.
  pose proof parse_expression_loop_total as Ht.
  destruct (loop tokens (S (measure tokens [] index)) [] index) as [f|e|];
    try discriminate; [|contradiction].
  destruct (finish_outcomes f) as [(n & j & Hf)|Hf]; rewrite Hf; discriminate.
Qed.
End EngineSpans.

(** ** The expression engine on well-formed expressions *)

Lemma skipn_head {A : Type} {i : nat} {l : list A} {x : A} {r : list A} :
  skipn i l = x :: r -> nth_error l i = Some x /\ skipn (S i) l = r.
Proof.
  intro H. split.
  - rewrite <- hd_error_skipn, H. reflexivity.
  - change (S i) with (1 + i). rewrite <- skipn_skipn, H. reflexivity.
Qed.

Lemma skipn_past {A : Type} {i : nat} {l a r : list A} :
  skipn i l = a ++ r -> skipn (i + length a) l = r.
Proof.
  intro H. rewrite Nat.add_comm, <- skipn_skipn, H.
  rewrite skipn_app, skipn_all, Nat.sub_diag. reflexivity.
Qed.

Lemma skipn_nil_length {A : Type} {i : nat} {l : list A} :
  skipn i l = [] -> length l <= i.
Proof.
  intro H. pose proof (length_skipn i l) as Hl. rewrite H in Hl.
  simpl in Hl. lia.
Qed.

Lemma collapse_binary next (p : Pending) : forall n,
  binary_pending p -> binary_pending (fst (collapse next p n)).
Proof.
  induction p as [|[l op] p IH]; intros n Hb; simpl; [constructor|].
  destruct (preempts next op); [exact Hb|].
  apply IH. inversion Hb. assumption.
Qed.

(** After [collapse], nothing is pending or the innermost pending operator
    is pre-empted. *)
Lemma collapse_stable next (p : Pending) : forall n,
  match fst (collapse next p n) with
  | [] => True
  | (_, op) :: _ => preempts next op = true
  end.
Proof.
  induction p as [|[l op] p IH]; intro n; simpl; [exact I|].
  destruct (preempts next op) eqn:E; [exact E|apply IH].
Qed.

Lemma preempts_no_operator (t : Token) (op : Token) :
  in_binary_operators (kind t) = false -> preempts (Some t) op = false.
Proof.
  unfold preempts, in_binary_operators. intro H.
  destruct (kind t); simpl in *; try discriminate H;
    rewrite ?andb_false_r; reflexivity.
Qed.

Lemma collapse_no_preempt next (p : Pending) : forall n,
  (forall op, preempts next op = false) ->
  collapse next p n = collapse None p n.
Proof.
  induction p as [|[l op] p IH]; intros n H; simpl; [reflexivity|].
  rewrite H. apply IH. exact H.
Qed.

Lemma collapse_None_fst (p : Pending) : forall n, fst (collapse None p n) = [].
Proof. induction p as [|[l op] p IH]; intro n; simpl; [reflexivity|apply IH]. Qed.

Section EngineOnChains.
Variable tokens : list Token.

Lemma preempts_source i op :
  next_is_higher tokens i op || both_assignment tokens i op
  = preempts (nth_error tokens i) op.
Proof.
  unfold next_is_higher, both_assignment, preempts.
  destruct (nth_error tokens i); reflexivity.
Qed.

(** On a stack that awaits an operand no reduction applies. *)
Lemma awaiting_no_reduction stack i :
  awaiting stack -> step tokens stack i = shift tokens stack i.
Proof.
  intro Ha. destruct stack as [|s below]; [reflexivity|].
  destruct Ha as (t & -> & Hk). unfold step.
  assert (reduce_number (token_item t :: below) = None) as ->.
  { simpl. destruct Hk as [Hk|Hk]; [rewrite Hk; reflexivity|].
    destruct (kind t); try discriminate Hk; reflexivity. }
  assert (reduce_identifier (token_item t :: below) = None) as ->.
  { simpl. destruct Hk as [Hk|Hk]; [rewrite Hk; reflexivity|].
    destruct (kind t); try discriminate Hk; reflexivity. }
  assert (reduce_paren (token_item t :: below) = None) as ->.
  { simpl. destruct below as [|[[?|?] ?] [|[[?|?] ?] ?]]; try reflexivity.
    destruct Hk as [Hk|Hk]; [rewrite Hk; reflexivity|].
    destruct (kind t); try discriminate Hk; reflexivity. }
  reflexivity.
Qed.

Lemma shift_next stack i t rest :
  skipn i tokens = t :: rest -> may_shift (kind t) = true ->
  shift tokens stack i = Continue (token_item t :: stack) (S i)
  /\ skipn (S i) tokens = rest.
Proof.
  intros Hs Hm. destruct (skipn_head Hs) as [Hn Hr].
  split; [|exact Hr]. unfold shift.
  assert (i < length tokens) as Hlt by (apply nth_error_Some; congruence).
  destruct (i =? length tokens) eqn:E; [apply Nat.eqb_eq in E; lia|].
  rewrite Hn, Hm. reflexivity.
Qed.

(** A completed operand above pending operators: the engine performs the
    reductions of [collapse]. *)
Lemma collapse_steps (p : Pending) : forall n base i,
  binary_pending p ->
  steps tokens (node_item n :: pending_stack p base) i
    (node_item (snd (collapse (nth_error tokens i) p n))
       :: pending_stack (fst (collapse (nth_error tokens i) p n)) base) i.
Proof.
  induction p as [|[l op] p IH]; intros n base i Hb; simpl.
  - apply steps_refl.
  - destruct (preempts (nth_error tokens i) op) eqn:E; simpl.
    + apply steps_refl.
    + inversion Hb as [|? ? Hop Hb']; subst. simpl in Hop.
      eapply steps_step; [|apply IH; exact Hb'].
      unfold step. simpl. rewrite Hop.
      rewrite <- preempts_source in E. apply orb_false_elim in E.
      destruct E as [-> ->]. simpl. reflexivity.
Qed.

(** Once [collapse] is done and the base is a barrier, no reduction
    applies. *)
Lemma stable_no_reduction (p : Pending) n base i :
  barrier base ->
  match p with
  | [] => True
  | (_, op) :: _ => preempts (nth_error tokens i) op = true
  end ->
  step tokens (node_item n :: pending_stack p base) i
  = shift tokens (node_item n :: pending_stack p base) i.
Proof.
  intros Hbase Hst. unfold step.
  assert (reduce_binary tokens (node_item n :: pending_stack p base) i
          = None) as Hrb.
  { destruct p as [|[l op] p]; simpl.
    - destruct base as [|s [|[[?|?] ?] ?]]; try reflexivity;
        destruct Hbase as (o & -> & Ho); simpl; try reflexivity.
      unfold in_binary_operators. rewrite Ho. reflexivity.
    - rewrite <- preempts_source in Hst.
      destruct (in_binary_operators (kind op)); [|reflexivity].
      apply orb_true_iff in Hst. destruct Hst as [-> | ->];
        simpl; rewrite ?andb_false_r; reflexivity. }
  simpl reduce_number. simpl reduce_identifier. simpl reduce_paren.
  rewrite Hrb. reflexivity.
Qed.

Lemma awaiting_pending (p : Pending) base :
  barrier base -> binary_pending p -> awaiting (pending_stack p base).
Proof.
  intros Hbase Hb. destruct p as [|[l op] p]; simpl.
  - destruct base as [|s ?]; [exact I|].
    destruct Hbase as (o & -> & Ho). exists o. auto.
  - inversion Hb; subst. exists op. auto.
Qed.

(** The engine reads an operand into a node on top of the stack, and a
    chain of operands into the single node [fold_chain] above the base. *)
Lemma engine_reads :
  (forall a n, operand_of a n ->
     forall stack i post,
       awaiting stack -> skipn i tokens = a ++ post ->
       steps tokens stack i (node_item n :: stack) (i + length a))
  /\ (forall e first rest, chain_of e first rest ->
        forall p base i post,
          barrier base -> binary_pending p ->
          skipn i tokens = e ++ post -> no_operator_next post ->
          steps tokens (pending_stack p base) i
            (node_item (fold_chain p first rest) :: base) (i + length e)).
Proof.
  apply operand_chain_ind.
  - (* a number *)
    intros t Hk stack i post Ha Hs. simpl in Hs.
    assert (Hmay : may_shift (kind t) = true) by
      (unfold may_shift; rewrite Hk; reflexivity).
    destruct (shift_next stack i _ _ Hs Hmay) as [Hsh _]; clear Hmay.
    eapply steps_step.
    { rewrite awaiting_no_reduction by exact Ha. exact Hsh. }
    simpl length. replace (i + 1) with (S i) by lia.
    apply steps_one. unfold step. simpl. rewrite Hk. reflexivity.
  - (* an identifier *)
    intros t Hk stack i post Ha Hs. simpl in Hs.
    assert (Hmay : may_shift (kind t) = true) by
      (unfold may_shift; rewrite Hk; reflexivity).
    destruct (shift_next stack i _ _ Hs Hmay) as [Hsh _]; clear Hmay.
    eapply steps_step.
    { rewrite awaiting_no_reduction by exact Ha. exact Hsh. }
    simpl length. replace (i + 1) with (S i) by lia.
    apply steps_one. unfold step. simpl. rewrite Hk. reflexivity.
  - (* a parenthesised chain *)
    intros o e c first rest Ho Hc _ IH stack i post Ha Hs.
    simpl in Hs. rewrite <- app_assoc in Hs. simpl in Hs.
    assert (Hmay : may_shift (kind o) = true) by
      (unfold may_shift; rewrite Ho; reflexivity).
    destruct (shift_next stack i _ _ Hs Hmay) as [Hsh Hs1]; clear Hmay.
    eapply steps_step.
    { rewrite awaiting_no_reduction by exact Ha. exact Hsh. }
    assert (barrier (token_item o :: stack)) as Hbar
      by (exists o; split; [reflexivity|exact Ho]).
    eapply steps_trans.
    { apply (IH [] (token_item o :: stack) (S i) (c :: post)).
      - exact Hbar.
      - constructor.
      - exact Hs1.
      - simpl. unfold in_binary_operators. rewrite Hc. reflexivity. }
    fold (chain_tree first rest).
    apply skipn_past in Hs1.
    assert (Hmay : may_shift (kind c) = true) by
      (unfold may_shift; rewrite Hc; reflexivity).
    destruct (shift_next (node_item (chain_tree first rest)
                            :: token_item o :: stack)
                         (S i + length e) _ _ Hs1 Hmay) as [Hsh2 _]; clear Hmay.
    eapply steps_step.
    { rewrite (stable_no_reduction [] _ (token_item o :: stack))
        by (exact Hbar || exact I).
      exact Hsh2. }
    simpl length. rewrite length_app. simpl length.
    replace (i + S (length e + 1)) with (S (S i + length e)) by lia.
    apply steps_one. unfold step. simpl. rewrite Hc, Ho. reflexivity.
  - (* a chain of one operand *)
    intros a n _ IHa p base i post Hbase Hb Hs Hpost.
    eapply steps_trans.
    { apply (IHa (pending_stack p base) i post);
        [apply awaiting_pending; assumption|exact Hs]. }
    pose proof (collapse_steps p n base (i + length a) Hb) as Hcol.
    assert (collapse (nth_error tokens (i + length a)) p n
            = collapse None p n) as Hnone.
    { apply skipn_past in Hs. destruct post as [|t post'].
      - apply skipn_nil_length in Hs.
        apply nth_error_None in Hs. rewrite Hs. reflexivity.
      - apply skipn_head in Hs. destruct Hs as [-> _].
        apply collapse_no_preempt. intro op.
        apply preempts_no_operator. exact Hpost. }
    rewrite Hnone, collapse_None_fst in Hcol. exact Hcol.
  - (* an operand, an operator and the rest of the chain *)
    intros a n op e m rest _ IHa Hop _ IHe p base i post Hbase Hb Hs Hpost.
    rewrite <- app_assoc in Hs. simpl in Hs.
    eapply steps_trans.
    { apply (IHa (pending_stack p base) i (op :: e ++ post));
        [apply awaiting_pending; assumption|exact Hs]. }
    apply skipn_past in Hs.
    destruct (skipn_head Hs) as [Hnext _].
    eapply steps_trans; [apply collapse_steps; exact Hb|].
    rewrite Hnext.
    assert (Hmay : may_shift (kind op) = true) by
      (unfold may_shift; rewrite Hop; apply orb_true_r).
    destruct (shift_next
                (node_item (snd (collapse (Some op) p n))
                   :: pending_stack (fst (collapse (Some op) p n)) base)
                (i + length a) _ _ Hs Hmay) as [Hsh Hs1]; clear Hmay.
    eapply steps_step.
    { rewrite stable_no_reduction; [exact Hsh|exact Hbase|].
      rewrite Hnext. apply collapse_stable. }
    simpl fold_chain. rewrite length_app. simpl length.
    replace (i + (length a + S (length e)))
      with (S (i + length a) + length e) by lia.
    apply (IHe ((snd (collapse (Some op) p n), op)
                  :: fst (collapse (Some op) p n)) base _ post);
      try assumption.
    constructor; [exact Hop|]. apply collapse_binary. exact Hb.
Qed.

Lemma stops_no_operator post : stops post -> no_operator_next post.
Proof.
  destruct post as [|t post]; [trivial|]. simpl. unfold may_shift.
  intro H. repeat (apply orb_false_elim in H; destruct H as [H ?]).
  assumption.
Qed.

(** [parse_expression] on a well-formed chain followed by input that
    cannot continue it: the whole chain is consumed and the tree is the
    one [chain_tree] describes. *)
Lemma parse_expression_chain e first rest index post :
  chain_of e first rest ->
  skipn index tokens = e ++ post -> stops post ->
  parse_expression tokens index
  = Ok (chain_tree first rest, index + length e).
Proof.
  intros Hch Hs Hstop.
  destruct engine_reads as [_ Hread].
  pose proof (Hread _ _ _ Hch [] [] index post I (Forall_nil _) Hs
                (stops_no_operator _ Hstop)) as Hst.
  simpl in Hst. fold (chain_tree first rest) in Hst.
  assert (step tokens [node_item (chain_tree first rest)]
               (index + length e) = Break) as Hbr.
  { unfold step. simpl. unfold shift. apply skipn_past in Hs.
    destruct post as [|t post'].
    - apply skipn_nil_length in Hs.
      destruct (index + length e =? length tokens) eqn:E; [reflexivity|].
      apply Nat.eqb_neq in E.
      assert (nth_error tokens (index + length e) = None) as ->
        by (apply nth_error_None; lia).
      pose proof (spans_ok_steps _ _ _ _ _ _ Hst (spans_ok_init _ _))
        as (_ & _ & Hle).
      assert (index + length e <= length tokens)
        by (apply Hle; discriminate).
      lia.
    - destruct (skipn_head Hs) as [Hn _].
      destruct (index + length e =? length tokens); [reflexivity|].
      rewrite Hn. simpl in Hstop. rewrite Hstop. reflexivity. }
  rewrite (parse_expression_steps _ _ _ _ Hst Hbr).
  pose proof (spans_ok_steps _ _ _ _ _ _ Hst (spans_ok_init _ _))
    as (Hsum & _ & _).
  unfold total_length in Hsum. simpl in Hsum.
  change [node_item (chain_tree first rest)]
    with ([] ++ [mkStackItem (Nd (chain_tree first rest))
                             (span (chain_tree first rest))]).
  rewrite finish_node. f_equal. f_equal. lia.
Qed.
End EngineOnChains.

(** ** Chains of identifiers and numbers *)

Lemma operand_atom (t : Token) : is_atom t -> operand_of [t] (atom_node t).
Proof.
  unfold atom_node. intros [H|H]; rewrite H.
  - apply operand_number. exact H.
  - apply operand_identifier. exact H.
Qed.

Lemma leaves_atom (t : Token) : leaves (atom_node t) = [t].
Proof. unfold atom_node. destruct (kind t); reflexivity. Qed.

Lemma atoms_chain (rest : list (Token * Token)) : forall first,
  is_atom first ->
  Forall (fun oa => in_binary_operators (kind (fst oa)) = true
                    /\ is_atom (snd oa)) rest ->
  chain_of (chain_tokens first rest) (atom_node first) (atom_nodes rest).
Proof.
  induction rest as [|[op a] rest IH]; intros first Hf Hall.
  - apply chain_one. apply operand_atom. exact Hf.
  - inversion Hall as [|? ? [Hop Ha] Hall']; subst. simpl in Hop, Ha.
    change (chain_tokens first ((op, a) :: rest))
      with ([first] ++ op :: chain_tokens a rest).
    apply chain_more; [apply operand_atom; exact Hf|exact Hop|].
    apply IH; assumption.
Qed.

(** *** Addition and multiplication *)

Lemma atom_node_tree (t : Token) : is_atom t -> atom_tree (atom_node t).
Proof.
  unfold atom_node. intros [H|H]; rewrite H; constructor; exact H.
Qed.

Lemma attach_product prod n :
  product_pending prod -> atom_tree n -> product_tree (attach prod n).
Proof.
  destruct prod as [[p op]|]; simpl.
  - intros [Hp Hop] Hn. apply product_star; assumption.
  - intros _ Hn. apply product_atom. exact Hn.
Qed.

Lemma attach_sum sum n :
  sum_pending sum -> product_tree n -> sum_tree (attach sum n).
Proof.
  destruct sum as [[s op]|]; simpl.
  - intros [Hs Hop] Hn. apply sum_plus; assumption.
  - intros _ Hn. apply sum_product. exact Hn.
Qed.

Lemma leaves_attach left n :
  leaves (attach left n) = pending_leaves left ++ leaves n.
Proof.
  destruct left as [[l op]|]; simpl; [|reflexivity].
  rewrite <- app_assoc. reflexivity.
Qed.

Lemma sum_of_products_shape (rest : list (Token * Token)) :
  forall sum prod n,
    sum_pending sum -> product_pending prod -> atom_tree n ->
    Forall (fun oa => plus_or_star (fst oa) /\ is_atom (snd oa)) rest ->
    sum_tree (sum_of_products sum prod n rest).
Proof.
  induction rest as [|[op a] rest IH]; intros sum prod n Hs Hp Hn Hall; simpl.
  - apply attach_sum; [exact Hs|]. apply attach_product; assumption.
  - inversion Hall as [|? ? [Hop Ha] Hall']; subst. simpl in Hop, Ha.
    destruct (token_kinds.eqb (kind op) token_kinds.star) eqn:E.
    + apply kind_eqb_eq in E. apply IH; try assumption.
      * simpl. split; [apply attach_product; assumption|exact E].
      * apply atom_node_tree. exact Ha.
    + apply kind_eqb_neq in E. destruct Hop as [Hop|Hop]; [|contradiction].
      apply IH; try assumption.
      * simpl. split; [|exact Hop].
        apply attach_sum; [exact Hs|]. apply attach_product; assumption.
      * exact I.
      * apply atom_node_tree. exact Ha.
Qed.

Lemma sum_of_products_leaves (rest : list (Token * Token)) :
  forall sum prod n,
    leaves (sum_of_products sum prod n rest)
    = pending_leaves sum ++ pending_leaves prod ++ leaves n
        ++ flat_map (fun oa => [fst oa; snd oa]) rest.
Proof.
  induction rest as [|[op a] rest IH]; intros sum prod n; simpl.
  - rewrite !leaves_attach, app_nil_r. reflexivity.
  - destruct (token_kinds.eqb (kind op) token_kinds.star); rewrite IH; simpl;
      rewrite !leaves_attach, leaves_atom, <- !app_assoc; reflexivity.
Qed.

Lemma preempts_star_star (t op : Token) :
  kind t = token_kinds.star -> kind op = token_kinds.star ->
  preempts (Some t) op = false.
Proof. unfold preempts. intros -> ->. reflexivity. Qed.

Lemma preempts_star_plus (t op : Token) :
  kind t = token_kinds.star -> kind op = token_kinds.plus ->
  preempts (Some t) op = true.
Proof. unfold preempts. intros -> ->. reflexivity. Qed.

Lemma preempts_plus (t op : Token) :
  kind t = token_kinds.plus -> plus_or_star op ->
  preempts (Some t) op = false.
Proof. unfold preempts. intros -> [-> | ->]; reflexivity. Qed.

Lemma collapse_before_star (op : Token) sum prod n :
  kind op = token_kinds.star ->
  operator_kind token_kinds.plus sum -> operator_kind token_kinds.star prod ->
  collapse (Some op) (pending_of prod ++ pending_of sum) n
  = (pending_of sum, attach prod n).
Proof.
  intros Hop Hs Hp.
  destruct sum as [[s os]|], prod as [[p o]|];
    cbn [pending_of app collapse attach operator_kind] in *;
    rewrite ?(preempts_star_star op o Hop Hp);
    cbn [collapse];
    rewrite ?(preempts_star_plus op os Hop Hs); reflexivity.
Qed.

Lemma collapse_before_plus (op : Token) sum prod n :
  kind op = token_kinds.plus ->
  operator_kind token_kinds.plus sum -> operator_kind token_kinds.star prod ->
  collapse (Some op) (pending_of prod ++ pending_of sum) n
  = ([], attach sum (attach prod n)).
Proof.
  intros Hop Hs Hp.
  destruct sum as [[s os]|], prod as [[p o]|];
    cbn [pending_of app collapse attach operator_kind] in *;
    rewrite ?(preempts_plus op o Hop (or_intror Hp));
    cbn [collapse];
    rewrite ?(preempts_plus op os Hop (or_introl Hs)); reflexivity.
Qed.

(** On chains of [+] and [*] the engine builds the sum of products. *)
Lemma fold_chain_sum_of_products (rest : list (Token * Token)) :
  forall sum prod n,
    operator_kind token_kinds.plus sum ->
    operator_kind token_kinds.star prod ->
    Forall (fun oa => plus_or_star (fst oa)) rest ->
    fold_chain (pending_of prod ++ pending_of sum) n (atom_nodes rest)
    = sum_of_products sum prod n rest.
Proof.
  induction rest as [|[op a] rest IH]; intros sum prod n Hs Hp Hall.
  - destruct sum as [[s os]|], prod as [[p o]|]; reflexivity.
  - inversion Hall as [|? ? Hop Hall']; subst. cbn [fst] in Hop.
    cbn [atom_nodes map fold_chain sum_of_products fst snd].
    fold (atom_nodes rest).
    destruct (token_kinds.eqb (kind op) token_kinds.star) eqn:E.
    + apply kind_eqb_eq in E.
      rewrite (collapse_before_star op sum prod n E Hs Hp). cbn [fst snd].
      apply (IH sum (Some (attach prod n, op))); assumption.
    + apply kind_eqb_neq in E. destruct Hop as [Hop|Hop]; [|contradiction].
      rewrite (collapse_before_plus op sum prod n Hop Hs Hp). cbn [fst snd].
      apply (IH (Some (attach sum (attach prod n), op)) None);
        [exact Hop|exact I|exact Hall'].
Qed.

Lemma chain_tree_expected (first : Token) (rest : list (Token * Token)) :
  Forall (fun oa => plus_or_star (fst oa)) rest ->
  chain_tree (atom_node first) (atom_nodes rest) = expected_tree first rest.
Proof.
  intro Hall. unfold chain_tree, expected_tree.
  apply (fold_chain_sum_of_products rest None None); [exact I|exact I|exact Hall].
Qed.

Lemma plus_or_star_binary (op : Token) :
  plus_or_star op -> in_binary_operators (kind op) = true.
Proof. unfold in_binary_operators. intros [-> | ->]; reflexivity. Qed.

(** [parse_expression] on a chain of numbers and identifiers joined by [+]
    and [*]. *)
Lemma parse_expression_sum (tokens : list Token) (index : nat)
    (first : Token) (rest : list (Token * Token)) (post : list Token) :
  is_atom first ->
  Forall (fun oa => plus_or_star (fst oa) /\ is_atom (snd oa)) rest ->
  skipn index tokens = chain_tokens first rest ++ post ->
  stops post ->
  parse_expression tokens index
  = Ok (expected_tree first rest, index + length (chain_tokens first rest)).
Proof.
  intros Hf Hall Hs Hstop.
  rewrite <- chain_tree_expected.
  - apply parse_expression_chain with (post := post); try assumption.
    apply atoms_chain; [exact Hf|].
    eapply Forall_impl; [|exact Hall].
    intros oa [H1 H2]. split; [apply plus_or_star_binary|]; assumption.
  - eapply Forall_impl; [|exact Hall]. intros oa [H1 _]. exact H1.
Qed.

Lemma expected_tree_shape (first : Token) (rest : list (Token * Token)) :
  is_atom first ->
  Forall (fun oa => plus_or_star (fst oa) /\ is_atom (snd oa)) rest ->
  sum_tree (expected_tree first rest)
  /\ leaves (expected_tree first rest) = chain_tokens first rest.
Proof.
  intros Hf Hall. split.
  - apply sum_of_products_shape; try exact I;
      [apply atom_node_tree; exact Hf|exact Hall].
  - unfold expected_tree. rewrite sum_of_products_leaves, leaves_atom.
    reflexivity.
Qed.

(** *** The grammar determines the tree *)

Lemma atom_tree_leaves n :
  atom_tree n -> exists t, leaves n = [t] /\ is_atom t.
Proof.
  destruct 1 as [t H|t H]; exists t; (split; [reflexivity|]);
    [left|right]; exact H.
Qed.

Lemma atom_tree_unique n n' :
  atom_tree n -> atom_tree n' -> leaves n = leaves n' -> n = n'.
Proof.
  intros [t H|t H] [t' H'|t' H'] E; simpl in E; injection E as <-;
    try reflexivity; rewrite H in H'; discriminate H'.
Qed.

Lemma product_tree_leaves n :
  product_tree n ->
  leaves n <> []
  /\ Forall (fun t => kind t <> token_kinds.plus) (leaves n).
Proof.
  induction 1 as [n Hn|l op r Hl [IHne IHall] Hop Hr].
  - destruct (atom_tree_leaves n Hn) as (t & -> & Ht).
    split; [discriminate|]. constructor; [|constructor].
    destruct Ht as [-> | ->]; discriminate.
  - destruct (atom_tree_leaves r Hr) as (t & Hlr & Ht). simpl. rewrite Hlr.
    split; [destruct (leaves l); discriminate|].
    apply Forall_app. split; [exact IHall|].
    constructor; [rewrite Hop; discriminate|].
    constructor; [|constructor].
    destruct Ht as [-> | ->]; discriminate.
Qed.

Lemma product_tree_unique n :
  product_tree n ->
  forall n', product_tree n' -> leaves n = leaves n' -> n = n'.
Proof.
  induction 1 as [n Hn|l op r Hl IH Hop Hr]; intros n' Hn' E.
  - destruct Hn' as [n' Hn'|l' op' r' Hl' Hop' Hr'].
    + apply atom_tree_unique; assumption.
    + exfalso. destruct (atom_tree_leaves n Hn) as (t & Ht & _).
      destruct (atom_tree_leaves r' Hr') as (t' & Ht' & _).
      simpl in E. rewrite Ht, Ht' in E.
      destruct (leaves l') as [|x [|y rest]]; discriminate E.
  - destruct (atom_tree_leaves r Hr) as (t & Ht & _).
    destruct Hn' as [n' Hn'|l' op' r' Hl' Hop' Hr'].
    + exfalso. destruct (atom_tree_leaves n' Hn') as (t' & Ht' & _).
      simpl in E. rewrite Ht, Ht' in E.
      destruct (leaves l) as [|x [|y rest]]; discriminate E.
    + destruct (atom_tree_leaves r' Hr') as (t' & Ht' & _).
      simpl in E. rewrite Ht, Ht' in E.
      change (leaves l ++ [op; t]) with (leaves l ++ [op] ++ [t]) in E.
      change (leaves l' ++ [op'; t']) with (leaves l' ++ [op'] ++ [t']) in E.
      rewrite !app_assoc in E.
      apply app_inj_tail in E. destruct E as [E <-].
      apply app_inj_tail in E. destruct E as [E <-].
      rewrite (IH l' Hl' E).
      rewrite (atom_tree_unique r r' Hr Hr') by congruence.
      reflexivity.
Qed.

(** A list splits in one way only at its last [+]. *)
Lemma split_at_last_plus (l1 : list Token) : forall l2 a b r1 r2,
  l1 ++ a :: r1 = l2 ++ b :: r2 ->
  kind a = token_kinds.plus -> kind b = token_kinds.plus ->
  Forall (fun t => kind t <> token_kinds.plus) r1 ->
  Forall (fun t => kind t <> token_kinds.plus) r2 ->
  l1 = l2 /\ a = b /\ r1 = r2.
Proof.
  induction l1 as [|x l1 IH]; intros l2 a b r1 r2 E Ha Hb H1 H2.
  - destruct l2 as [|y l2]; simpl in E.
    + injection E as <- <-. auto.
    + exfalso. injection E as <- ->.
      apply Forall_app in H1. destruct H1 as [_ H1].
      inversion H1; contradiction.
  - destruct l2 as [|y l2]; simpl in E.
    + exfalso. injection E as -> <-.
      apply Forall_app in H2. destruct H2 as [_ H2].
      inversion H2; contradiction.
    + injection E as <- E.
      destruct (IH l2 a b r1 r2 E Ha Hb H1 H2) as (-> & -> & ->). auto.
Qed.

(** A tree of the grammar is determined by its leaves. *)
Lemma sum_tree_unique n :
  sum_tree n ->
  forall n', sum_tree n' -> leaves n = leaves n' -> n = n'.
Proof.
  induction 1 as [n Hn|l op r Hl IH Hop Hr]; intros n' Hn' E.
  - destruct Hn' as [n' Hn'|l' op' r' Hl' Hop' Hr'].
    + apply product_tree_unique; assumption.
    + exfalso. destruct (product_tree_leaves n Hn) as [_ Hall].
      rewrite E in Hall. simpl in Hall.
      apply Forall_app in Hall. destruct Hall as [_ Hall].
      inversion Hall; contradiction.
  - destruct Hn' as [n' Hn'|l' op' r' Hl' Hop' Hr'].
    + exfalso. destruct (product_tree_leaves n' Hn') as [_ Hall].
      rewrite <- E in Hall. simpl in Hall.
      apply Forall_app in Hall. destruct Hall as [_ Hall].
      inversion Hall; contradiction.
    + simpl in E.
      destruct (product_tree_leaves r Hr) as [_ Hr1].
      destruct (product_tree_leaves r' Hr') as [_ Hr2].
      destruct (split_at_last_plus _ _ _ _ _ _ E Hop Hop' Hr1 Hr2)
        as (El & <- & Er).
      rewrite (IH l' Hl' El).
      rewrite (product_tree_unique r Hr r' Hr' Er). reflexivity.
Qed.

(** C1: for every expression made of numbers and identifiers joined by [+]
    and [*], [parse_expression] consumes the whole expression and returns
    the sum-of-products tree: the one tree of the grammar [S ::= S + P | P],
    [P ::= P * A | A] (multiplication binds tighter, equal operators group
    to the left) whose leaves are the tokens of the expression in order.  In
    particular [a + b * c] gives [+(a, *(b, c))], [a * b + c] gives
    [+( *(a, b), c)] and [a + b + c] gives [+(+(a, b), c)]. *)
Theorem parse_expression_plus_star :
  (forall (tokens : list Token) (index : nat) (first : Token)
          (rest : list (Token * Token)) (post : list Token),
      is_atom first ->
      Forall (fun oa => plus_or_star (fst oa) /\ is_atom (snd oa)) rest ->
      skipn index tokens = chain_tokens first rest ++ post ->
      stops post ->
      parse_expression tokens index
      = Ok (expected_tree first rest, index + length (chain_tokens first rest))
      /\ sum_tree (expected_tree first rest)
      /\ leaves (expected_tree first rest) = chain_tokens first rest
      /\ (forall n, sum_tree n -> leaves n = chain_tokens first rest ->
                    n = expected_tree first rest))
  /\ (forall a b c p s : Token,
        is_atom a -> is_atom b -> is_atom c ->
        kind p = token_kinds.plus -> kind s = token_kinds.star ->
        parse_expression [a; p; b; s; c] 0
        = Ok (ast.BinaryOperatorNode (atom_node a) p
                (ast.BinaryOperatorNode (atom_node b) s (atom_node c)), 5))
  /\ (forall a b c p s : Token,
        is_atom a -> is_atom b -> is_atom c ->
        kind p = token_kinds.plus -> kind s = token_kinds.star ->
        parse_expression [a; s; b; p; c] 0
        = Ok (ast.BinaryOperatorNode
                (ast.BinaryOperatorNode (atom_node a) s (atom_node b))
                p (atom_node c), 5))
  /\ (forall a b c p q : Token,
        is_atom a -> is_atom b -> is_atom c ->
        kind p = token_kinds.plus -> kind q = token_kinds.plus ->
        parse_expression [a; p; b; q; c] 0
        = Ok (ast.BinaryOperatorNode
                (ast.BinaryOperatorNode (atom_node a) p (atom_node b))
                q (atom_node c), 5)).
Proof.
  assert (Hpair : forall op x, plus_or_star op -> is_atom x ->
                    (fun oa : Token * Token =>
                       plus_or_star (fst oa) /\ is_atom (snd oa)) (op, x))
    by (intros; split; assumption).
  split; [|split; [|split]].
  - intros tokens index first rest post Hf Hall Hs Hstop.
    split; [eapply parse_expression_sum; eassumption|].
    destruct (expected_tree_shape first rest Hf Hall) as [Hsum Hleaves].
    split; [exact Hsum|]. split; [exact Hleaves|].
    intros n Hn Hl. apply sum_tree_unique; [exact Hn|exact Hsum|].
    rewrite Hl, Hleaves. reflexivity.
  - intros a b c p s Ha Hb Hc Hp Hs.
    rewrite (parse_expression_sum [a; p; b; s; c] 0 a [(p, b); (s, c)] []);
      try reflexivity; try assumption; try exact I.
    + unfold expected_tree. simpl. rewrite Hp, Hs. reflexivity.
    + repeat (apply Forall_cons;
                [apply Hpair; [unfold plus_or_star; auto|assumption]|]).
      apply Forall_nil.
  - intros a b c p s Ha Hb Hc Hp Hs.
    rewrite (parse_expression_sum [a; s; b; p; c] 0 a [(s, b); (p, c)] []);
      try reflexivity; try assumption; try exact I.
    + unfold expected_tree. simpl. rewrite Hp, Hs. reflexivity.
    + repeat (apply Forall_cons;
                [apply Hpair; [unfold plus_or_star; auto|assumption]|]).
      apply Forall_nil.
  - intros a b c p q Ha Hb Hc Hp Hq.
    rewrite (parse_expression_sum [a; p; b; q; c] 0 a [(p, b); (q, c)] []);
      try reflexivity; try assumption; try exact I.
    + unfold expected_tree. simpl. rewrite Hp, Hq. reflexivity.
    + repeat (apply Forall_cons;
                [apply Hpair; [unfold plus_or_star; auto|assumption]|]).
      apply Forall_nil.
Qed.

(** The three sample expressions on concrete tokens, and a longer chain
    followed by a semicolon. *)
Lemma parse_expression_plus_star_witness :
  parse_expression [t_id "a"; t_plus; t_id "b"; t_star; t_id "c"] 0
  = Ok (ast.BinaryOperatorNode (ast.IdentifierNode (t_id "a")) t_plus
          (ast.BinaryOperatorNode (ast.IdentifierNode (t_id "b")) t_star
             (ast.IdentifierNode (t_id "c"))), 5)
  /\ parse_expression
       [t_return; t_id "a"; t_star; t_num "2"; t_plus; t_id "b"; t_star;
        t_num "3"; t_star; t_id "c"; t_semi] 1
     = Ok (expected_tree (t_id "a")
             [(t_star, t_num "2"); (t_plus, t_id "b"); (t_star, t_num "3");
              (t_star, t_id "c")], 10).
Proof.
  split.
  - apply (proj1 (proj2 parse_expression_plus_star)
             (t_id "a") (t_id "b") (t_id "c") t_plus t_star);
      unfold is_atom; simpl; auto.
  - apply (proj1 parse_expression_plus_star
             [t_return; t_id "a"; t_star; t_num "2"; t_plus; t_id "b"; t_star;
              t_num "3"; t_star; t_id "c"; t_semi] 1 (t_id "a")
             [(t_star, t_num "2"); (t_plus, t_id "b"); (t_star, t_num "3");
              (t_star, t_id "c")] [t_semi]).
    + unfold is_atom. simpl. auto.
    + repeat (apply Forall_cons;
                [split; unfold plus_or_star, is_atom; simpl; auto|]).
      apply Forall_nil.
    + reflexivity.
    + reflexivity.
Defined.

(** *** Assignment *)

Lemma preempts_assignment (t op : Token) :
  kind t = token_kinds.equals -> kind op = token_kinds.equals ->
  preempts (Some t) op = true.
Proof. unfold preempts. intros -> ->. reflexivity. Qed.

Lemma collapse_before_assignment (op : Token) (p : Pending) (n : Node) :
  kind op = token_kinds.equals -> assignments p ->
  collapse (Some op) p n = (p, n).
Proof.
  intros Hop Hp. destruct p as [|[l o] p]; [reflexivity|].
  inversion Hp as [|? ? Ho _]; subst. cbn [snd] in Ho. cbn [collapse].
  rewrite (preempts_assignment op o Hop Ho). reflexivity.
Qed.

(** On chains of [=] the engine reduces nothing until the chain ends, and
    then groups from the right. *)
Lemma fold_chain_assignments (rest : list (Token * Node)) :
  forall (p : Pending) (n : Node),
    assignments p ->
    Forall (fun om => kind (fst om) = token_kinds.equals) rest ->
    fold_chain p n rest = snd (collapse None p (right_chain n rest)).
Proof.
  induction rest as [|[op m] rest IH]; intros p n Hp Hall; [reflexivity|].
  inversion Hall as [|? ? Hop Hall']; subst. simpl in Hop.
  cbn [fold_chain]. rewrite (collapse_before_assignment op p n Hop Hp).
  cbn [fst snd]. rewrite IH; [reflexivity| |exact Hall'].
  constructor; [exact Hop|exact Hp].
Qed.

Lemma identifier_atom (t : Token) :
  kind t = token_kinds.identifier -> atom_node t = ast.IdentifierNode t.
Proof. unfold atom_node. intros ->. reflexivity. Qed.

Lemma atom_nodes_identifiers (rest : list (Token * Token)) :
  Forall (fun oa => kind (snd oa) = token_kinds.identifier) rest ->
  atom_nodes rest = map (fun oa => (fst oa, ast.IdentifierNode (snd oa))) rest.
Proof.
  induction 1 as [|[op a] rest Ha _ IH]; [reflexivity|].
  simpl in *. rewrite identifier_atom by exact Ha. f_equal. exact IH.
Qed.

(** C2: assignment is right-associative: for every chain of identifiers
    joined by [=], [parse_expression] consumes the whole chain and returns
    the tree grouped from the right; in particular [a = b = c] gives
    [=(a, =(b, c))]. *)
Theorem parse_expression_assignment_right_assoc :
  (forall (tokens : list Token) (index : nat) (first : Token)
          (rest : list (Token * Token)) (post : list Token),
      kind first = token_kinds.identifier ->
      Forall (fun oa => kind (fst oa) = token_kinds.equals
                        /\ kind (snd oa) = token_kinds.identifier) rest ->
      skipn index tokens = chain_tokens first rest ++ post ->
      stops post ->
      parse_expression tokens index
      = Ok (assignment_tree first rest,
            index + length (chain_tokens first rest)))
  /\ (forall a b c e1 e2 : Token,
        kind a = token_kinds.identifier -> kind b = token_kinds.identifier ->
        kind c = token_kinds.identifier ->
        kind e1 = token_kinds.equals -> kind e2 = token_kinds.equals ->
        parse_expression [a; e1; b; e2; c] 0
        = Ok (ast.BinaryOperatorNode (ast.IdentifierNode a) e1
                (ast.BinaryOperatorNode (ast.IdentifierNode b) e2
                   (ast.IdentifierNode c)), 5)).
Proof.
  assert (Hgen : forall tokens index first rest post,
      kind first = token_kinds.identifier ->
      Forall (fun oa : Token * Token =>
                kind (fst oa) = token_kinds.equals
                /\ kind (snd oa) = token_kinds.identifier) rest ->
      skipn index tokens = chain_tokens first rest ++ post ->
      stops post ->
      parse_expression tokens index
      = Ok (assignment_tree first rest,
            index + length (chain_tokens first rest))).
  { intros tokens index first rest post Hf Hall Hs Hstop.
    rewrite (parse_expression_chain tokens (chain_tokens first rest)
               (atom_node first) (atom_nodes rest) index post);
      try assumption.
    - f_equal. f_equal. unfold chain_tree, assignment_tree.
      rewrite fold_chain_assignments.
      + simpl. rewrite identifier_atom by exact Hf.
        rewrite atom_nodes_identifiers; [reflexivity|].
        eapply Forall_impl; [|exact Hall]. intros oa [_ H]. exact H.
      + constructor.
      + unfold atom_nodes. rewrite Forall_map.
        eapply Forall_impl; [|exact Hall]. intros oa [H _]. exact H.
    - apply atoms_chain; [right; exact Hf|].
      eapply Forall_impl; [|exact Hall].
      intros oa [H1 H2]. split; [|right; exact H2].
      unfold in_binary_operators. rewrite H1. reflexivity. }
  split; [exact Hgen|].
  intros a b c e1 e2 Ha Hb Hc H1 H2.
  apply (Hgen [a; e1; b; e2; c] 0 a [(e1, b); (e2, c)] []);
    try reflexivity; try assumption; try exact I.
  repeat constructor; assumption.
Qed.

Lemma parse_expression_assignment_witness :
  parse_expression [t_id "a"; t_eq; t_id "b"; t_eq; t_id "c"; t_semi] 0
  = Ok (ast.BinaryOperatorNode (ast.IdentifierNode (t_id "a")) t_eq
          (ast.BinaryOperatorNode (ast.IdentifierNode (t_id "b")) t_eq
             (ast.IdentifierNode (t_id "c"))), 5).
Proof.
  apply (proj1 parse_expression_assignment_right_assoc
           [t_id "a"; t_eq; t_id "b"; t_eq; t_id "c"; t_semi] 0
           (t_id "a") [(t_eq, t_id "b"); (t_eq, t_id "c")] [t_semi]).
  - reflexivity.
  - repeat constructor.
  - reflexivity.
  - reflexivity.
Defined.

(** ** The grammar productions *)

Section ProductionFacts.
Variable tokens : list Token.

Lemma match_tokens_Ok index ks j :
  match_tokens tokens index ks = Ok j ->
  j = index + length ks /\ kinds_at tokens index (length ks) = ks
  /\ length ks <= length tokens - index.
Proof.
  intro H.
  destruct (match_tokens_cases tokens index ks) as [[Hk Hm]|[Hk Hm]];
    rewrite Hm in H; [|discriminate H].
  injection H as <-. repeat split; [exact Hk|].
  destruct (Nat.le_gt_cases (length ks) (length tokens - index)) as [|Hlt];
    [assumption|].
  apply kinds_at_short in Hlt. rewrite Hk in Hlt. lia.
Qed.

Lemma match_token_Ok index k j :
  match_token tokens index k = Ok j ->
  j = S index /\ index < length tokens
  /\ exists t, nth_error tokens index = Some t /\ kind t = k.
Proof.
  intro H.
  destruct (match_token_cases tokens index k)
    as [(t & Hn & Hk & Hm)|[_ Hm]]; rewrite Hm in H; [|discriminate H].
  injection H as <-. repeat split.
  - apply nth_error_Some. congruence.
  - exists t. split; assumption.
Qed.

Lemma match_token_outcomes index k :
  match_token tokens index k = Ok (S index)
  \/ match_token tokens index k = Raise MatchError.
Proof.
  destruct (match_token_cases tokens index k)
    as [(t & _ & _ & Hm)|[_ Hm]]; auto.
Qed.

Lemma expect_semicolon_cases index :
  (exists t, nth_error tokens index = Some t
             /\ kind t = token_kinds.semicolon
             /\ expect_semicolon tokens index = Ok (S index))
  \/ ((forall t, nth_error tokens index = Some t ->
                 kind t <> token_kinds.semicolon)
      /\ expect_semicolon tokens index
         = Raise (ParserErr
                    (ParserError_new "expected semicolon" index tokens AFTER))).
Proof.
  unfold expect_semicolon.
  destruct (match_token_cases tokens index token_kinds.semicolon)
    as [(t & Hn & Hk & Hm)|[Hno Hm]]; rewrite Hm.
  - left. exists t. auto.
  - right. auto.
Qed.

Lemma expect_semicolon_Ok index j :
  expect_semicolon tokens index = Ok j -> j = S index /\ index < length tokens.
Proof.
  intro H.
  destruct (expect_semicolon_cases index) as [(t & Hn & _ & Hm)|[_ Hm]];
    rewrite Hm in H; [|discriminate H].
  injection H as <-. split; [reflexivity|].
  apply nth_error_Some. congruence.
Qed.

Lemma clean_Ok {A : Type} (a : A) : clean (Ok a).
Proof. split; discriminate. Qed.

Lemma clean_ParserErr {A : Type} (e : ParserError) :
  clean (Raise (ParserErr e) : Outcome A).
Proof. split; discriminate. Qed.

Lemma clean_bind {A B : Type} (m : Outcome A) (k : A -> Outcome B) :
  clean m -> (forall a, m = Ok a -> clean (k a)) -> clean (bind m k).
Proof.
  intros [H1 H2] Hk. destruct m as [a|e|]; simpl.
  - apply Hk. reflexivity.
  - split; [discriminate|]. intro E. apply H2. injection E as ->. reflexivity.
  - contradiction.
Qed.

Lemma clean_except_match_token index k e :
  clean (except_MatchError (match_token tokens index k) e).
Proof.
  destruct (match_token_outcomes index k) as [-> | ->]; simpl;
    [apply clean_Ok|apply clean_ParserErr].
Qed.

Lemma clean_expect_semicolon index : clean (expect_semicolon tokens index).
Proof.
  destruct (expect_semicolon_cases index) as [(t & _ & _ & ->)|[_ ->]];
    [apply clean_Ok|apply clean_ParserErr].
Qed.

Lemma clean_parse_expression index : clean (parse_expression tokens index).
Proof.
  split; [apply parse_expression_not_OutOfFuel|].
  intro H. apply parse_expression_Raise in H.
  destruct H as [H|[H _]]; discriminate H.
Qed.

Lemma clean_parse_return index : clean (parse_return tokens index).
Proof.
  unfold parse_return.
  apply clean_bind; [apply clean_except_match_token|]. intros i1 _.
  apply clean_bind; [apply clean_parse_expression|]. intros r _.
  apply clean_bind; [apply clean_expect_semicolon|]. intros i2 _.
  apply clean_Ok.
Qed.

Lemma clean_parse_expr_statement index :
  clean (parse_expr_statement tokens index).
Proof.
  unfold parse_expr_statement.
  apply clean_bind; [apply clean_parse_expression|]. intros r _.
  apply clean_bind; [apply clean_expect_semicolon|]. intros i2 _.
  apply clean_Ok.
Qed.

Lemma clean_parse_declaration index :
  clean (parse_declaration tokens index).
Proof.
  unfold parse_declaration.
  apply clean_bind; [apply clean_except_match_token|]. intros i1 _.
  apply clean_bind; [apply clean_except_match_token|]. intros i2 _.
  apply clean_bind.
  { destruct (nth_error tokens (i2 - 1)); split; discriminate. }
  intros t _.
  apply clean_bind; [apply clean_expect_semicolon|]. intros i3 _.
  apply clean_Ok.
Qed.

Lemma clean_parse_statement index self :
  clean (fst (parse_statement tokens index self)).
Proof.
  unfold parse_statement.
  pose proof (clean_parse_return index) as Hr.
  destruct (parse_return tokens index) as [a|[e| | |]|]; simpl;
    try exact Hr.
  apply clean_parse_expr_statement.
Qed.

(** *** Progress of the productions *)

Lemma except_MatchError_Ok {A : Type} (m : Outcome A) e a :
  except_MatchError m e = Ok a -> m = Ok a.
Proof. destruct m as [x|[| | |]|]; simpl; intro H; try discriminate H; exact H. Qed.

Lemma bind_Ok {A B : Type} (m : Outcome A) (k : A -> Outcome B) b :
  bind m k = Ok b -> exists a, m = Ok a /\ k a = Ok b.
Proof.
  destruct m as [a|e|]; simpl; intro H; try discriminate H.
  exists a. split; [reflexivity|exact H].
Qed.

Lemma parse_return_progress index n j :
  parse_return tokens index = Ok (n, j) ->
  index < j /\ j <= length tokens.
Proof.
  unfold parse_return. intro H.
  apply bind_Ok in H. destruct H as (i1 & H1 & H).
  apply except_MatchError_Ok, match_token_Ok in H1. destruct H1 as (-> & _ & _).
  apply bind_Ok in H. destruct H as ([e i2] & H2 & H).
  apply parse_expression_progress in H2.
  apply bind_Ok in H. destruct H as (i3 & H3 & H).
  apply expect_semicolon_Ok in H3. simpl in H3.
  injection H as _ <-. lia.
Qed.

Lemma parse_expr_statement_progress index n j :
  parse_expr_statement tokens index = Ok (n, j) ->
  index < j /\ j <= length tokens.
Proof.
  unfold parse_expr_statement. intro H.
  apply bind_Ok in H. destruct H as ([e i2] & H2 & H).
  apply parse_expression_progress in H2.
  apply bind_Ok in H. destruct H as (i3 & H3 & H).
  apply expect_semicolon_Ok in H3. simpl in H3.
  injection H as _ <-. lia.
Qed.

Lemma parse_declaration_progress index n j :
  parse_declaration tokens index = Ok (n, j) ->
  index < j /\ j <= length tokens.
Proof.
  unfold parse_declaration. intro H.
  apply bind_Ok in H. destruct H as (i1 & H1 & H).
  apply except_MatchError_Ok, match_token_Ok in H1. destruct H1 as (-> & _ & _).
  apply bind_Ok in H. destruct H as (i2 & H2 & H).
  apply except_MatchError_Ok, match_token_Ok in H2. destruct H2 as (-> & _ & _).
  apply bind_Ok in H. destruct H as (t & _ & H).
  apply bind_Ok in H. destruct H as (i3 & H3 & H).
  apply expect_semicolon_Ok in H3.
  injection H as _ <-. lia.
Qed.

Lemma parse_statement_progress index self n j self' :
  parse_statement tokens index self = (Ok (n, j), self') ->
  index < j /\ j <= length tokens.
Proof.
  unfold parse_statement. intro H.
  destruct (parse_return tokens index) as [[n1 j1]|[e| | |]|] eqn:Hr;
    try discriminate H.
  - injection H as <- <- _. eapply parse_return_progress. exact Hr.
  - injection H as H _. eapply parse_expr_statement_progress. exact H.
Qed.

Lemma main_loop_progress (fuel : nat) : forall index nodes self nodes' j self',
  main_loop tokens fuel index nodes self = (Ok (nodes', j), self') ->
  index <= j /\ (index <= length tokens -> j <= length tokens).
Proof.
  induction fuel as [|fuel IH]; intros index nodes self nodes' j self' H;
    [discriminate H|].
  simpl in H.
  destruct (parse_statement tokens index self)
    as [[[n1 j1]|[e| | |]|] self1] eqn:Hst; try discriminate H.
  - apply parse_statement_progress in Hst. apply IH in H. lia.
  - destruct (parse_declaration tokens index) as [[n1 j1]|[e'| | |]|] eqn:Hd;
      try discriminate H.
    + apply parse_declaration_progress in Hd. apply IH in H. lia.
    + injection H as _ <- _. lia.
Qed.

Lemma parse_main_progress index self n j self' :
  parse_main tokens index self = (Ok (n, j), self') ->
  index < j /\ j <= length tokens.
Proof.
  unfold parse_main. intro H.
  destruct (except_MatchError (match_tokens tokens index kinds_before) _)
    as [i1|e|] eqn:H1; try discriminate H.
  apply except_MatchError_Ok, match_tokens_Ok in H1.
  destruct H1 as (-> & _ & Hlen). simpl in Hlen.
  destruct (main_loop tokens _ _ [] self)
    as [[[nodes i2]|e|] self1] eqn:Hl; try discriminate H.
  apply main_loop_progress in Hl.
  injection H as H _. apply bind_Ok in H. destruct H as (i3 & H3 & H).
  apply except_MatchError_Ok, match_token_Ok in H3.
  destruct H3 as (-> & Hlt & _). injection H as _ <-.
  simpl in Hl. lia.
Qed.
End ProductionFacts.

(** C10: every production that succeeds returns an index strictly greater
    than the one it started from and at most the number of tokens; none of
    them succeeds on zero tokens or reports a position beyond the end. *)
Theorem productions_progress :
  forall (tokens : list Token) (index : nat) (self self' : ParserState)
         (node : Node) (index' : nat),
    (parse_main tokens index self = (Ok (node, index'), self')
     \/ parse_statement tokens index self = (Ok (node, index'), self')
     \/ parse_return tokens index = Ok (node, index')
     \/ parse_expr_statement tokens index = Ok (node, index')
     \/ parse_expression tokens index = Ok (node, index')
     \/ parse_declaration tokens index = Ok (node, index')) ->
    index < index' /\ index' <= length tokens.
Proof.
  intros tokens index self self' node index' [H|[H|[H|[H|[H|H]]]]].
  - eapply parse_main_progress. exact H.
  - eapply parse_statement_progress. exact H.
  - eapply parse_return_progress. exact H.
  - eapply parse_expr_statement_progress. exact H.
  - eapply parse_expression_progress. exact H.
  - eapply parse_declaration_progress. exact H.
Qed.

Lemma productions_progress_witness :
  0 < 9 /\ 9 <= length [t_int; t_main; t_lparen; t_rparen; t_lbrace;
                        t_return; t_num "4"; t_semi; t_rbrace].
Proof.
  apply (productions_progress
           [t_int; t_main; t_lparen; t_rparen; t_lbrace;
            t_return; t_num "4"; t_semi; t_rbrace] 0 init_state
           (snd (parse_main [t_int; t_main; t_lparen; t_rparen; t_lbrace;
                             t_return; t_num "4"; t_semi; t_rbrace]
                            0 init_state))
           (ast.MainNode [ast.ReturnNode (ast.NumberNode (t_num "4"))]) 9).
  left. vm_compute. reflexivity.
Defined.

(** ** Termination *)

Section Termination.
Variable tokens : list Token.

Lemma main_loop_total (fuel : nat) : forall index nodes self,
  length tokens - index < fuel ->
  fst (main_loop tokens fuel index nodes self) <> OutOfFuel.
Proof.
  induction fuel as [|fuel IH]; intros index nodes self Hf; [lia|].
  simpl.
  pose proof (clean_parse_statement tokens index self) as [Hs _].
  destruct (parse_statement tokens index self)
    as [[[n1 j1]|[e| | |]|] self1] eqn:Hst; simpl in *;
    try discriminate; try contradiction.
  - apply parse_statement_progress in Hst. apply IH. lia.
  - pose proof (clean_parse_declaration tokens index) as [Hd _].
    destruct (parse_declaration tokens index) as [[n1 j1]|[e'| | |]|] eqn:Hdecl;
      simpl; try discriminate; try contradiction.
    apply parse_declaration_progress in Hdecl. apply IH. lia.
Qed.

Lemma parse_main_total index self :
  fst (parse_main tokens index self) <> OutOfFuel.
Proof.
  unfold parse_main.
  destruct (match_tokens_cases tokens index kinds_before)
    as [[_ Hm]|[_ Hm]]; rewrite Hm; cbn [except_MatchError fst];
    [|discriminate].
  assert (length tokens - (index + length kinds_before)
          < S (length tokens - (index + length kinds_before))) as Hlt by lia.
  pose proof (main_loop_total _ _ [] self Hlt) as Hl.
  destruct (main_loop tokens (S (length tokens - (index + length kinds_before)))
                      (index + length kinds_before) [] self)
    as [[[nodes i2]|e|] self1]; cbn [fst] in *;
    try discriminate; try contradiction.
  destruct (match_token_outcomes tokens i2 token_kinds.close_brack)
    as [-> | ->]; cbn [except_MatchError bind]; discriminate.
Qed.

Lemma parse_total : fst (parse tokens) <> OutOfFuel.
Proof.
  unfold parse. pose proof (parse_main_total 0 init_state) as Hm.
  destruct (parse_main tokens 0 init_state) as [[[n j]|[e| | |]|] self];
    cbn [fst] in *; try discriminate; try contradiction.
  - destruct (skipn j tokens); cbn [fst]; discriminate.
  - destruct (best_error (log_error e self)); discriminate.
Qed.
End Termination.

(** C9: the shift-reduce loop terminates on every token list and every
    starting position, and so does every top-level parse.  Each pass that
    continues the loop is a shift, which advances the cursor, or a
    reduction, which leaves the cursor in place and shrinks the stack or
    keeps its height and turns its top raw token into a node; hence
    [3 * (len(tokens) - index) + 1] passes always suffice for the loop to
    stop (normally or with an exception), and neither [parse_expression] nor
    [parse] is ever cut off. *)
Theorem parser_terminates :
  (forall (tokens : list Token) (stack : list StackItem) (i : nat)
          (stack' : list StackItem) (i' : nat),
      step tokens stack i = Continue stack' i' ->
      (i' = S i /\ i < length tokens)
      \/ (i' = i /\ length stack' < length stack)
      \/ (i' = i /\ length stack' = length stack
          /\ raw_count stack' < raw_count stack))
  /\ (forall (tokens : list Token) (index fuel : nat),
        3 * (length tokens - index) < fuel ->
        loop tokens fuel [] index <> OutOfFuel)
  /\ (forall (tokens : list Token) (index : nat),
        parse_expression tokens index <> OutOfFuel)
  /\ (forall tokens : list Token, fst (parse tokens) <> OutOfFuel).
Proof.
  split; [|split; [|split]].
  - intros tokens stack i stack' i' H.
    apply step_Continue, transition_progress in H.
    destruct H as [(? & ? & _)|[(? & ? & _)|(? & ? & ?)]]; auto.
  - intros tokens index fuel H. apply loop_enough_fuel.
    unfold measure, raw_count. simpl. lia.
  - intros tokens index. apply parse_expression_not_OutOfFuel.
  - intro tokens. apply parse_total.
Qed.

Lemma parser_terminates_witness :
  loop [t_id "a"; t_plus; t_id "b"] 10 [] 0 <> OutOfFuel.
Proof.
  apply (proj1 (proj2 parser_terminates) [t_id "a"; t_plus; t_id "b"] 0 10).
  simpl. lia.
Defined.

(** ** The result of [parse_expression] *)

(** C3, as the code has it: when the loop stops, [parse_expression] succeeds
    exactly when the stack is not empty and its bottom item is an expression
    node, whatever lies above it; it returns that node and the starting
    position plus the span of that node alone.  When the stack is empty or
    its bottom item is a raw token, it raises "expected expression" anchored
    GOT at the starting position. *)
Theorem parse_expression_bottom_of_stack :
  forall (tokens : list Token) (index : nat) (final : list StackItem) (i : nat),
    steps tokens [] index final i ->
    step tokens final i = Break ->
    (forall above n len,
        final = above ++ [mkStackItem (Nd n) len] ->
        parse_expression tokens index = Ok (n, index + len))
    /\ (final = [] \/ (exists above t len,
                          final = above ++ [mkStackItem (Tok t) len]) ->
        parse_expression tokens index
        = Raise (ParserErr
                   (ParserError_new "expected expression" index tokens GOT))).
Proof.
  intros tokens index final i Hst Hbr.
  rewrite (parse_expression_steps tokens index final i Hst Hbr).
  split.
  - intros above n len ->. apply finish_node.
  - intros [-> | (above & t & len & ->)];
      [apply finish_empty|apply finish_token].
Qed.

Lemma parse_expression_bottom_of_stack_witness :
  parse_expression [t_lparen; t_id "a"; t_plus; t_id "b"; t_semi] 0
  = Raise (ParserErr
             (ParserError_new "expected expression" 0
                [t_lparen; t_id "a"; t_plus; t_id "b"; t_semi] GOT)).
Proof.
  refine (proj2 (parse_expression_bottom_of_stack
                   [t_lparen; t_id "a"; t_plus; t_id "b"; t_semi] 0
                   [node_item (ast.BinaryOperatorNode
                                 (ast.IdentifierNode (t_id "a")) t_plus
                                 (ast.IdentifierNode (t_id "b")));
                    token_item t_lparen] 4 _ _) _).
  - repeat (eapply steps_step; [reflexivity|]). apply steps_refl.
  - reflexivity.
  - right. exists [node_item (ast.BinaryOperatorNode
                                (ast.IdentifierNode (t_id "a")) t_plus
                                (ast.IdentifierNode (t_id "b")))],
             t_lparen, 1.
    reflexivity.
Defined.

(** On [a +] the loop stops with the operator left on the stack above the
    node of [a], and [parse_expression] returns that node: dangling tokens
    above the bottom node do not make it fail. *)
Lemma parse_expression_dangling_operator :
  steps [t_id "a"; t_plus] [] 0
        [token_item t_plus; node_item (ast.IdentifierNode (t_id "a"))] 2
  /\ step [t_id "a"; t_plus]
          [token_item t_plus; node_item (ast.IdentifierNode (t_id "a"))] 2
     = Break
  /\ parse_expression [t_id "a"; t_plus] 0
     = Ok (ast.IdentifierNode (t_id "a"), 1)
  /\ ~ (exists e, parse_expression [t_id "a"; t_plus] 0 = Raise (ParserErr e)).
Proof.
  split; [|split; [|split]].
  - repeat (eapply steps_step; [reflexivity|]). apply steps_refl.
  - reflexivity.
  - reflexivity.
  - intros [e H]. discriminate H.
Qed.

(** ** Diagnostics of the return production *)

Lemma parse_return_no_keyword (tokens : list Token) (index : nat) :
  (forall t, nth_error tokens index = Some t ->
             kind t <> token_kinds.return_kw) ->
  parse_return tokens index
  = Raise (ParserErr
             (ParserError_new "expected return keyword" index tokens GOT)).
Proof.
  intro Hno. unfold parse_return.
  destruct (match_token_cases tokens index token_kinds.return_kw)
    as [(t & Hn & Hk & _)|[_ Hm]].
  - exfalso. exact (Hno t Hn Hk).
  - rewrite Hm. reflexivity.
Qed.

Lemma parse_return_no_semicolon (tokens : list Token) (index : nat)
    (kw : Token) (e : Node) (j : nat) :
  nth_error tokens index = Some kw -> kind kw = token_kinds.return_kw ->
  parse_expression tokens (S index) = Ok (e, j) ->
  (forall t, nth_error tokens j = Some t -> kind t <> token_kinds.semicolon) ->
  parse_return tokens index
  = Raise (ParserErr (ParserError_new "expected semicolon" j tokens AFTER)).
Proof.
  intros Hn Hk He Hno. unfold parse_return.
  destruct (match_token_cases tokens index token_kinds.return_kw)
    as [(t & _ & _ & Hm)|[Hno' _]].
  - rewrite Hm. cbn [except_MatchError bind]. rewrite He. cbn [bind fst snd].
    destruct (expect_semicolon_cases tokens j) as [(t' & Hn' & Hk' & _)|[_ Hs]].
    + exfalso. exact (Hno t' Hn' Hk').
    + rewrite Hs. reflexivity.
  - exfalso. exact (Hno' kw Hn Hk).
Qed.

(** C6, as the code has it: when the return keyword is missing at the
    starting position, [parse_return] raises "expected return keyword"
    anchored GOT at the starting position; when the keyword and the
    expression are there and the semicolon is missing, it raises "expected
    semicolon" anchored AFTER, at the index that follows the last consumed
    token; and it never raises the internal [MatchError]. *)
Theorem parse_return_diagnostics :
  forall (tokens : list Token) (index : nat),
    ((forall t, nth_error tokens index = Some t ->
                kind t <> token_kinds.return_kw) ->
     parse_return tokens index
     = Raise (ParserErr
                (ParserError_new "expected return keyword" index tokens GOT)))
    /\ (forall (kw : Token) (e : Node) (j : nat),
          nth_error tokens index = Some kw ->
          kind kw = token_kinds.return_kw ->
          parse_expression tokens (S index) = Ok (e, j) ->
          (forall t, nth_error tokens j = Some t ->
                     kind t <> token_kinds.semicolon) ->
          parse_return tokens index
          = Raise (ParserErr
                     (ParserError_new "expected semicolon" j tokens AFTER)))
    /\ parse_return tokens index <> Raise MatchError.
Proof.
  intros tokens index. split; [|split].
  - apply parse_return_no_keyword.
  - apply parse_return_no_semicolon.
  - apply clean_parse_return.
Qed.

(** The truncated input [return 4]: one diagnostic, anchored AFTER at the
    index that follows the token [4]. *)
Lemma parse_return_diagnostics_witness :
  parse_return [t_return; t_num "4"] 0
  = Raise (ParserErr
             (ParserError_new "expected semicolon" 2
                              [t_return; t_num "4"] AFTER)).
Proof.
  apply (proj1 (proj2 (parse_return_diagnostics [t_return; t_num "4"] 0))
           t_return (ast.NumberNode (t_num "4")) 2).
  - reflexivity.
  - reflexivity.
  - reflexivity.
  - intros t H. discriminate H.
Defined.

(** With no return keyword at the starting position the diagnostic is
    anchored GOT, not AT. *)
Lemma parse_return_missing_keyword_not_AT :
  (forall t, nth_error [t_num "4"; t_semi] 0 = Some t ->
             kind t <> token_kinds.return_kw)
  /\ parse_return [t_num "4"; t_semi] 0
     = Raise (ParserErr
                (ParserError_new "expected return keyword" 0
                                 [t_num "4"; t_semi] GOT))
  /\ ~ (exists e, parse_return [t_num "4"; t_semi] 0 = Raise (ParserErr e)
                  /\ message_type e = AT).
Proof.
  split; [|split].
  - intros t H. injection H as <-. discriminate.
  - reflexivity.
  - intros (e & H & Hm). injection H as <-. discriminate Hm.
Qed.

(** ** Leftover tokens *)

(** C8: when the main production succeeds and tokens remain after the index
    it returns, [parse] raises "unexpected token" anchored AT that index,
    the position of the first leftover token, and returns no tree. *)
Theorem parse_leftover_tokens :
  forall (tokens : list Token) (node : Node) (index : nat) (self : ParserState),
    parse_main tokens 0 init_state = (Ok (node, index), self) ->
    index < length tokens ->
    fst (parse tokens)
    = Raise (ParserErr (ParserError_new "unexpected token" index tokens AT))
    /\ exists leftover, nth_error tokens index = Some leftover.
Proof.
  intros tokens node index self Hm Hlt. unfold parse. rewrite Hm.
  destruct (skipn index tokens) as [|t rest] eqn:Hs.
  - apply skipn_nil_length in Hs. lia.
  - split; [reflexivity|]. exists t. apply (skipn_head Hs).
Qed.

(** [int main(){ return 4; } extra]: the error is anchored at index 9, the
    token [extra]. *)
Lemma parse_leftover_tokens_witness :
  fst (parse [t_int; t_main; t_lparen; t_rparen; t_lbrace; t_return;
              t_num "4"; t_semi; t_rbrace; t_id "extra"])
  = Raise (ParserErr
             (ParserError_new "unexpected token" 9
                [t_int; t_main; t_lparen; t_rparen; t_lbrace; t_return;
                 t_num "4"; t_semi; t_rbrace; t_id "extra"] AT))
  /\ exists leftover,
       nth_error [t_int; t_main; t_lparen; t_rparen; t_lbrace; t_return;
                  t_num "4"; t_semi; t_rbrace; t_id "extra"] 9
       = Some leftover.
Proof.
  apply (parse_leftover_tokens
           [t_int; t_main; t_lparen; t_rparen; t_lbrace; t_return;
            t_num "4"; t_semi; t_rbrace; t_id "extra"]
           (ast.MainNode [ast.ReturnNode (ast.NumberNode (t_num "4"))]) 9
           (snd (parse_main [t_int; t_main; t_lparen; t_rparen; t_lbrace;
                             t_return; t_num "4"; t_semi; t_rbrace;
                             t_id "extra"] 0 init_state))).
  - vm_compute. reflexivity.
  - simpl. lia.
Defined.

(** ** The best-error slot *)

Lemma tracks_init : tracks init_state.
Proof. reflexivity. Qed.

Lemma tracks_log_error (error : ParserError) (self : ParserState) :
  tracks self -> tracks (log_error error self).
Proof.
  unfold tracks, log_error. simpl.
  destruct (best_error self) as [best|].
  - intros (older & newer & Hl & Ho & Hn).
    destruct (amount_parsed best <=? amount_parsed error) eqn:E.
    + apply Nat.leb_le in E. exists (logged self), []. rewrite Hl.
      split; [reflexivity|]. split; [|constructor].
      apply Forall_app. split.
      * eapply Forall_impl; [|exact Ho]. simpl. intros x Hx. lia.
      * constructor; [exact E|].
        eapply Forall_impl; [|exact Hn]. simpl. intros x Hx. lia.
    + apply Nat.leb_gt in E. exists older, (newer ++ [error]). rewrite Hl.
      split; [rewrite <- app_assoc; reflexivity|]. split; [exact Ho|].
      apply Forall_app. split; [exact Hn|]. constructor; [exact E|constructor].
  - intros ->. exists [], []. split; [reflexivity|]. split; constructor.
Qed.

Lemma log_error_some (error : ParserError) (self : ParserState) :
  exists best, best_error (log_error error self) = Some best.
Proof.
  unfold log_error. simpl. destruct (best_error self) as [b|]; [|eauto].
  destruct (amount_parsed b <=? amount_parsed error); eauto.
Qed.

Section Tracking.
Variable tokens : list Token.

Lemma tracks_parse_statement index self :
  tracks self -> tracks (snd (parse_statement tokens index self)).
Proof.
  intro H. unfold parse_statement.
  destruct (parse_return tokens index) as [a|[e| | |]|]; simpl; try exact H.
  apply tracks_log_error. exact H.
Qed.

Lemma tracks_main_loop (fuel : nat) : forall index nodes self,
  tracks self -> tracks (snd (main_loop tokens fuel index nodes self)).
Proof.
  induction fuel as [|fuel IH]; intros index nodes self H; [exact H|].
  simpl. pose proof (tracks_parse_statement index self H) as Hs.
  destruct (parse_statement tokens index self)
    as [[[n1 j1]|[e| | |]|] self1]; simpl in Hs; try exact Hs.
  - apply IH. exact Hs.
  - destruct (parse_declaration tokens index) as [[n1 j1]|[e'| | |]|]; simpl;
      try (apply tracks_log_error; exact Hs).
    + apply IH. apply tracks_log_error. exact Hs.
    + do 2 apply tracks_log_error. exact Hs.
Qed.

Lemma tracks_parse_main index self :
  tracks self -> tracks (snd (parse_main tokens index self)).
Proof.
  intro H. unfold parse_main.
  destruct (except_MatchError (match_tokens tokens index kinds_before) _)
    as [i1|e|]; try exact H.
  pose proof (tracks_main_loop (S (length tokens - i1)) i1 [] self H) as Hl.
  destruct (main_loop tokens (S (length tokens - i1)) i1 [] self)
    as [[[nodes i2]|e|] self1]; exact Hl.
Qed.

Lemma tracks_parse : tracks (snd (parse tokens)).
Proof.
  unfold parse.
  pose proof (tracks_parse_main 0 init_state tracks_init) as Hm.
  destruct (parse_main tokens 0 init_state) as [[[n j]|[e| | |]|] self];
    cbn [snd] in *; try exact Hm.
  - destruct (skipn j tokens); exact Hm.
  - apply tracks_log_error. exact Hm.
Qed.

Lemma parse_raises_best e self :
  parse_main tokens 0 init_state = (Raise (ParserErr e), self) ->
  exists best,
    parse tokens = (Raise (ParserErr best), log_error e self)
    /\ best_error (log_error e self) = Some best
    /\ newest_max (logged self ++ [e]) best.
Proof.
  intro Hm. unfold parse. rewrite Hm. cbv zeta.
  pose proof (tracks_parse_main 0 init_state tracks_init) as Ht.
  rewrite Hm in Ht. cbn [snd] in Ht.
  apply (tracks_log_error e) in Ht.
  destruct (log_error_some e self) as (best & Hb).
  exists best. rewrite Hb. split; [reflexivity|]. split; [reflexivity|].
  unfold tracks in Ht. rewrite Hb in Ht. exact Ht.
Qed.
End Tracking.

(** C4: the best-error slot is an invariant of every [log_error] call.  At
    any point of a parse it holds, among all the errors logged so far, the
    newest of those whose amount parsed is maximal (nothing before the first
    error): this holds on a fresh parser, is preserved by [log_error], and
    so holds in the state every production leaves behind.  When the main
    production fails with an error [e], [parse] logs [e] and raises the
    error the slot holds then, the newest maximal one among the logged
    errors followed by [e]. *)
Theorem best_error_tracking :
  forall (tokens : list Token),
    tracks init_state
    /\ (forall error self, tracks self -> tracks (log_error error self))
    /\ (forall index self,
          tracks self ->
          tracks (snd (parse_statement tokens index self))
          /\ tracks (snd (parse_main tokens index self)))
    /\ tracks (snd (parse tokens))
    /\ (forall e self,
          parse_main tokens 0 init_state = (Raise (ParserErr e), self) ->
          exists best,
            parse tokens = (Raise (ParserErr best), log_error e self)
            /\ best_error (log_error e self) = Some best
            /\ newest_max (logged self ++ [e]) best).
Proof.
  intro tokens. split; [exact tracks_init|].
  split; [exact tracks_log_error|].
  split; [|split].
  - intros index self H. split.
    + apply tracks_parse_statement. exact H.
    + apply tracks_parse_main. exact H.
  - apply tracks_parse.
  - apply parse_raises_best.
Qed.

Lemma best_error_tracking_witness :
  exists best,
    parse missing_semicolon
    = (Raise (ParserErr best),
       log_error (ParserError_new "expected closing brace" 5
                                  missing_semicolon GOT)
                 (snd (parse_main missing_semicolon 0 init_state)))
    /\ best_error
         (log_error (ParserError_new "expected closing brace" 5
                                     missing_semicolon GOT)
                    (snd (parse_main missing_semicolon 0 init_state)))
       = Some best
    /\ newest_max
         (logged (snd (parse_main missing_semicolon 0 init_state))
            ++ [ParserError_new "expected closing brace" 5
                                missing_semicolon GOT])
         best.
Proof.
  apply (proj2 (proj2 (proj2 (proj2 (best_error_tracking missing_semicolon))))).
  vm_compute. reflexivity.
Defined.

Lemma parse_missing_semicolon :
  fst (parse missing_semicolon)
  = Raise (ParserErr
             (ParserError_new "expected semicolon" 7 missing_semicolon AFTER)).
Proof. vm_compute. reflexivity. Qed.

(** ** Round trip: the tokens under a tree *)

Lemma firstn_plus {A : Type} (a b : nat) : forall l : list A,
  firstn (a + b) l = firstn a l ++ firstn b (skipn a l).
Proof.
  induction a as [|a IH]; intro l; [reflexivity|].
  destruct l as [|x l]; simpl.
  - rewrite firstn_nil. reflexivity.
  - rewrite IH. reflexivity.
Qed.

Lemma segment_nil (tokens : list Token) (i : nat) : segment tokens i i = [].
Proof. unfold segment. rewrite Nat.sub_diag. reflexivity. Qed.

Lemma segment_app (tokens : list Token) (i k j : nat) :
  i <= k -> k <= j ->
  segment tokens i j = segment tokens i k ++ segment tokens k j.
Proof.
  intros H1 H2. unfold segment.
  replace (j - i) with ((k - i) + (j - k)) by lia.
  rewrite firstn_plus. f_equal. rewrite skipn_skipn.
  replace (k - i + i) with k by lia. reflexivity.
Qed.

Lemma segment_one (tokens : list Token) (i : nat) (t : Token) :
  nth_error tokens i = Some t -> segment tokens i (S i) = [t].
Proof.
  intro H. unfold segment. replace (S i - i) with 1 by lia.
  rewrite <- hd_error_skipn in H.
  destruct (skipn i tokens) as [|x rest]; [discriminate H|].
  injection H as ->. reflexivity.
Qed.

Lemma segment_cons (tokens : list Token) (i j : nat) (t : Token) :
  nth_error tokens i = Some t -> i < j ->
  segment tokens i j = t :: segment tokens (S i) j.
Proof.
  intros H Hlt. rewrite (segment_app tokens i (S i) j) by lia.
  rewrite (segment_one tokens i t H). reflexivity.
Qed.

Lemma segment_snoc (tokens : list Token) (i j : nat) (t : Token) :
  nth_error tokens j = Some t -> i <= j ->
  segment tokens i (S j) = segment tokens i j ++ [t].
Proof.
  intros H Hle. rewrite (segment_app tokens i j (S j)) by lia.
  rewrite (segment_one tokens j t H). reflexivity.
Qed.

Lemma segment_all (tokens : list Token) :
  segment tokens 0 (length tokens) = tokens.
Proof. unfold segment. rewrite Nat.sub_0_r. simpl. apply firstn_all. Qed.

Lemma segment_prefix (tokens : list Token) (i k j : nat) :
  i <= k -> k <= j ->
  firstn (k - i) (segment tokens i j) = segment tokens i k.
Proof.
  intros H1 H2. unfold segment. rewrite firstn_firstn.
  f_equal. lia.
Qed.

Lemma describe_leaf (t : Token) :
  is_leaf_kind (kind t) = true -> describe t = leaf t.
Proof. unfold describe, leaf. intros ->. reflexivity. Qed.

Lemma describe_punct (t : Token) (k : TokenKind) :
  kind t = k -> is_leaf_kind k = false -> describe t = punct k.
Proof. unfold describe, punct. intros -> ->. reflexivity. Qed.

Lemma binary_is_leaf (k : TokenKind) :
  in_binary_operators k = true -> is_leaf_kind k = true.
Proof. destruct k; simpl; intro H; try discriminate H; reflexivity. Qed.

Lemma stack_yield_cons (s : StackItem) (stack : list StackItem) :
  stack_yield (s :: stack) = stack_yield stack ++ yield s.
Proof.
  unfold stack_yield. simpl. rewrite map_app, concat_app. simpl.
  rewrite app_nil_r. reflexivity.
Qed.

Lemma stack_yield_app (s1 s2 : list StackItem) :
  stack_yield (s1 ++ s2) = stack_yield s2 ++ stack_yield s1.
Proof.
  unfold stack_yield. rewrite rev_app_distr, map_app, concat_app. reflexivity.
Qed.

Section EngineYield.
Variable tokens : list Token.
Variable index : nat.

Lemma yields_ok_init : yields_ok tokens index [] index.
Proof.
  split; [|constructor]. rewrite segment_nil. reflexivity.
Qed.

Lemma yields_ok_transition stack i stack' i' :
  transition tokens stack i stack' i' ->
  index <= i ->
  yields_ok tokens index stack i -> yields_ok tokens index stack' i'.
Proof.
  intros Ht Hle [Hy Hall]. destruct Ht.
  - inversion Hall as [|? ? Ha Hall1]; subst. split.
    + rewrite <- Hy, !stack_yield_cons. f_equal. unfold yield. simpl.
      rewrite describe_leaf; [reflexivity|]. rewrite H. reflexivity.
    + constructor; [reflexivity|assumption].
  - inversion Hall as [|? ? Ha Hall1]; subst. split.
    + rewrite <- Hy, !stack_yield_cons. f_equal. unfold yield. simpl.
      rewrite describe_leaf; [reflexivity|]. rewrite H. reflexivity.
    + constructor; [reflexivity|assumption].
  - inversion Hall as [|? ? Ha Hall1]; subst.
    inversion Hall1 as [|? ? Hb Hall2]; subst.
    inversion Hall2 as [|? ? Hc Hall3]; subst. split.
    + rewrite <- Hy, !stack_yield_cons. rewrite <- !app_assoc. f_equal.
      unfold yield. simpl.
      rewrite (describe_punct o token_kinds.open_paren H0 eq_refl).
      rewrite (describe_punct c token_kinds.close_paren H eq_refl).
      reflexivity.
    + constructor; [|assumption]. unfold yield in *. simpl in *.
      rewrite length_app. simpl. lia.
  - inversion Hall as [|? ? Ha Hall1]; subst.
    inversion Hall1 as [|? ? Hb Hall2]; subst.
    inversion Hall2 as [|? ? Hc Hall3]; subst. split.
    + rewrite <- Hy, !stack_yield_cons. rewrite <- !app_assoc. f_equal.
      unfold yield. simpl.
      rewrite (describe_leaf op (binary_is_leaf _ H)). reflexivity.
    + constructor; [|assumption]. unfold yield in *. simpl in *.
      rewrite length_app. simpl. lia.
  - split.
    + rewrite stack_yield_cons, Hy.
      rewrite (segment_snoc tokens index i t H Hle), map_app. reflexivity.
    + constructor; [reflexivity|assumption].
Qed.

Lemma yields_ok_steps stack i stack' i' :
  steps tokens stack i stack' i' ->
  spans_ok tokens index stack i ->
  yields_ok tokens index stack i -> yields_ok tokens index stack' i'.
Proof.
  induction 1 as [|s i s1 i1 s2 i2 Hs Hrest IH]; intros Hsp Hy; [assumption|].
  apply step_Continue in Hs. apply IH.
  - eapply spans_ok_transition; eassumption.
  - eapply yields_ok_transition; [exact Hs| |exact Hy].
    destruct Hsp as [Hsum _]. lia.
Qed.

(** The node returned by [parse_expression] stands for exactly the tokens
    between the starting position and the returned index. *)
Lemma parse_expression_flatten n j :
  parse_expression tokens index = Ok (n, j) ->
  flatten n = map describe (segment tokens index j).
Proof.
  intro H. apply parse_expression_Ok in H.
  destruct H as (final & i & above & len & Hst & _ & -> & ->).
  pose proof (spans_ok_steps _ _ _ _ _ _ Hst (spans_ok_init _ _)) as Hsp.
  pose proof (yields_ok_steps _ _ _ _ Hst (spans_ok_init _ _) yields_ok_init)
    as [Hy Hall].
  destruct Hsp as (Hsum & _ & _).
  rewrite total_length_app in Hsum. unfold total_length in Hsum at 2.
  simpl in Hsum.
  apply Forall_app in Hall. destruct Hall as [_ Hall].
  inversion Hall as [|? ? Hlen _]; subst. unfold yield in Hlen. simpl in Hlen.
  rewrite stack_yield_app in Hy. unfold stack_yield at 1 in Hy.
  simpl in Hy. rewrite app_nil_r in Hy. unfold yield at 1 in Hy. simpl in Hy.
  remember (index + (total_length above + (len + 0))) as i eqn:Hi.
  assert (firstn (index + len - index) (segment tokens index i)
          = segment tokens index (index + len)) as Hpre
    by (apply segment_prefix; lia).
  rewrite <- Hpre, <- firstn_map, <- Hy.
  replace (index + len - index) with (length (flatten n) + 0) by lia.
  rewrite firstn_app_2. simpl. rewrite app_nil_r. reflexivity.
Qed.
End EngineYield.

Section ProductionYield.
Variable tokens : list Token.

Lemma expect_semicolon_token index j :
  expect_semicolon tokens index = Ok j ->
  j = S index
  /\ exists s, nth_error tokens index = Some s
               /\ kind s = token_kinds.semicolon.
Proof.
  intro H.
  destruct (expect_semicolon_cases tokens index)
    as [(s & Hn & Hk & Hm)|[_ Hm]]; rewrite Hm in H; [|discriminate H].
  injection H as <-. split; [reflexivity|]. exists s. auto.
Qed.

Lemma parse_return_flatten index n j :
  parse_return tokens index = Ok (n, j) ->
  flatten n = map describe (segment tokens index j).
Proof.
  unfold parse_return. intro H.
  apply bind_Ok in H. destruct H as (i1 & H1 & H).
  apply except_MatchError_Ok, match_token_Ok in H1.
  destruct H1 as (-> & _ & kw & Hkw & Hkind).
  apply bind_Ok in H. destruct H as ([e i2] & H2 & H).
  pose proof (parse_expression_progress _ _ _ _ H2) as [Hlt _].
  apply parse_expression_flatten in H2.
  apply bind_Ok in H. destruct H as (i3 & H3 & H).
  apply expect_semicolon_token in H3. cbn [fst snd] in *.
  destruct H3 as (-> & s & Hs & Hsk). injection H as <- <-.
  rewrite (segment_cons tokens index (S i2) kw Hkw) by lia.
  rewrite (segment_snoc tokens (S index) i2 s Hs) by lia.
  simpl. rewrite map_app, <- H2. simpl.
  rewrite (describe_punct kw token_kinds.return_kw Hkind eq_refl).
  rewrite (describe_punct s token_kinds.semicolon Hsk eq_refl).
  reflexivity.
Qed.

Lemma parse_expr_statement_flatten index n j :
  parse_expr_statement tokens index = Ok (n, j) ->
  flatten n = map describe (segment tokens index j).
Proof.
  unfold parse_expr_statement. intro H.
  apply bind_Ok in H. destruct H as ([e i2] & H2 & H).
  pose proof (parse_expression_progress _ _ _ _ H2) as [Hlt _].
  apply parse_expression_flatten in H2.
  apply bind_Ok in H. destruct H as (i3 & H3 & H).
  apply expect_semicolon_token in H3. cbn [fst snd] in *.
  destruct H3 as (-> & s & Hs & Hsk). injection H as <- <-.
  rewrite (segment_snoc tokens index i2 s Hs) by lia.
  simpl. rewrite map_app, <- H2. simpl.
  rewrite (describe_punct s token_kinds.semicolon Hsk eq_refl).
  reflexivity.
Qed.

Lemma parse_declaration_flatten index n j :
  parse_declaration tokens index = Ok (n, j) ->
  flatten n = map describe (segment tokens index j).
Proof.
  unfold parse_declaration. intro H.
  apply bind_Ok in H. destruct H as (i1 & H1 & H).
  apply except_MatchError_Ok, match_token_Ok in H1.
  destruct H1 as (-> & _ & ty & Hty & Htyk).
  apply bind_Ok in H. destruct H as (i2 & H2 & H).
  apply except_MatchError_Ok, match_token_Ok in H2.
  destruct H2 as (-> & _ & name & Hname & Hnamek).
  apply bind_Ok in H. destruct H as (v & Hv & H).
  replace (S (S index) - 1) with (S index) in Hv by lia.
  rewrite Hname in Hv. injection Hv as <-.
  apply bind_Ok in H. destruct H as (i3 & H3 & H).
  apply expect_semicolon_token in H3.
  destruct H3 as (-> & s & Hs & Hsk). injection H as <- <-.
  rewrite (segment_cons tokens index _ ty Hty) by lia.
  rewrite (segment_cons tokens (S index) _ name Hname) by lia.
  rewrite (segment_one tokens (S (S index)) s Hs).
  simpl.
  rewrite (describe_punct ty token_kinds.int_kw Htyk eq_refl).
  rewrite (describe_punct s token_kinds.semicolon Hsk eq_refl).
  rewrite describe_leaf by (rewrite Hnamek; reflexivity).
  reflexivity.
Qed.

Lemma parse_statement_flatten index self n j self' :
  parse_statement tokens index self = (Ok (n, j), self') ->
  flatten n = map describe (segment tokens index j).
Proof.
  unfold parse_statement. intro H.
  destruct (parse_return tokens index) as [[n1 j1]|[e| | |]|] eqn:Hr;
    try discriminate H.
  - injection H as <- <- _. apply parse_return_flatten. exact Hr.
  - injection H as H _. apply parse_expr_statement_flatten. exact H.
Qed.

Lemma main_loop_flatten (fuel : nat) : forall index nodes self nodes' j self',
  main_loop tokens fuel index nodes self = (Ok (nodes', j), self') ->
  exists more,
    nodes' = nodes ++ more
    /\ flat_map flatten more = map describe (segment tokens index j).
Proof.
  induction fuel as [|fuel IH]; intros index nodes self nodes' j self' H;
    [discriminate H|].
  simpl in H.
  destruct (parse_statement tokens index self)
    as [[[n1 j1]|[e| | |]|] self1] eqn:Hst; try discriminate H.
  - pose proof (parse_statement_progress _ _ _ _ _ _ Hst) as [Hlt _].
    apply parse_statement_flatten in Hst.
    pose proof (main_loop_progress _ _ _ _ _ _ _ _ H) as [Hle _].
    apply IH in H. destruct H as (more & -> & Hm).
    exists (n1 :: more). split; [rewrite <- app_assoc; reflexivity|].
    simpl. rewrite Hst, Hm, <- map_app.
    rewrite <- (segment_app tokens index j1 j) by lia. reflexivity.
  - destruct (parse_declaration tokens index) as [[n1 j1]|[e'| | |]|] eqn:Hd;
      try discriminate H.
    + pose proof (parse_declaration_progress _ _ _ _ Hd) as [Hlt _].
      apply parse_declaration_flatten in Hd.
      pose proof (main_loop_progress _ _ _ _ _ _ _ _ H) as [Hle _].
      apply IH in H. destruct H as (more & -> & Hm).
      exists (n1 :: more). split; [rewrite <- app_assoc; reflexivity|].
      simpl. rewrite Hd, Hm, <- map_app.
      rewrite <- (segment_app tokens index j1 j) by lia. reflexivity.
    + injection H as <- <- _. exists []. rewrite app_nil_r, segment_nil.
      split; reflexivity.
Qed.

Lemma describe_keywords (l : list Token) :
  map kind l = kinds_before -> map describe l = map punct kinds_before.
Proof.
  intro H. rewrite <- H. rewrite map_map. apply map_ext_in.
  intros t Hin. apply describe_punct; [reflexivity|].
  assert (In (kind t) kinds_before) as Hk
    by (rewrite <- H; apply in_map; exact Hin).
  simpl in Hk.
  repeat (destruct Hk as [<-|Hk]; [reflexivity|]). contradiction.
Qed.

Lemma parse_main_flatten index self n j self' :
  parse_main tokens index self = (Ok (n, j), self') ->
  flatten n = map describe (segment tokens index j).
Proof.
  unfold parse_main. intro H.
  destruct (except_MatchError (match_tokens tokens index kinds_before) _)
    as [i1|e|] eqn:H1; try discriminate H.
  apply except_MatchError_Ok, match_tokens_Ok in H1.
  destruct H1 as (-> & Hk & Hlen).
  destruct (main_loop tokens _ _ [] self)
    as [[[nodes i2]|e|] self1] eqn:Hl; try discriminate H.
  pose proof (main_loop_progress _ _ _ _ _ _ _ _ Hl) as [Hle _].
  apply main_loop_flatten in Hl. destruct Hl as (more & -> & Hm).
  injection H as H _. apply bind_Ok in H. destruct H as (i3 & H3 & H).
  apply except_MatchError_Ok, match_token_Ok in H3.
  destruct H3 as (-> & Hlt & c & Hc & Hck). injection H as <- <-.
  rewrite (segment_snoc tokens index i2 c Hc) by lia.
  rewrite (segment_app tokens index (index + length kinds_before) i2) by lia.
  rewrite !map_app. cbn [flatten app]. rewrite Hm.
  change (map describe [c]) with [describe c].
  rewrite (describe_punct c token_kinds.close_brack Hck eq_refl).
  rewrite <- app_assoc. f_equal.
  symmetry. apply describe_keywords. unfold segment.
  replace (index + length kinds_before - index) with (length kinds_before)
    by lia.
  exact Hk.
Qed.

(** The tree returned by [parse] stands for the whole token list. *)
Lemma parse_flatten n :
  fst (parse tokens) = Ok n -> flatten n = map describe tokens.
Proof.
  unfold parse. intro H.
  destruct (parse_main tokens 0 init_state)
    as [[[node j]|[e| | |]|] self] eqn:Hm; cbn [fst] in H;
    try discriminate H.
  - destruct (skipn j tokens) as [|t rest] eqn:Hs; cbn [fst] in H;
      [|discriminate H].
    injection H as <-.
    pose proof (parse_main_progress _ _ _ _ _ _ Hm) as [_ Hle].
    apply skipn_nil_length in Hs.
    apply parse_main_flatten in Hm.
    replace j with (length tokens) in Hm by lia.
    rewrite segment_all in Hm. exact Hm.
  - destruct (best_error (log_error e self)); discriminate H.
Qed.
End ProductionYield.

(** ** Round trip: valid programs *)

Lemma chain_append l first rest :
  chain_of l first rest ->
  forall op r first' rest',
    in_binary_operators (kind op) = true ->
    chain_of r first' rest' ->
    chain_of (l ++ op :: r) first (rest ++ (op, first') :: rest').
Proof.
  induction 1 as [a n Ha|a n op0 e m rest0 Ha Hop0 He IH];
    intros op r first' rest' Hop Hr.
  - apply chain_more; assumption.
  - rewrite <- app_assoc. simpl.
    apply chain_more; [exact Ha|exact Hop0|]. apply IH; assumption.
Qed.

Lemma expression_chain e :
  expression e -> exists first rest, chain_of e first rest.
Proof.
  induction 1 as [t Hk|t Hk|o e c Ho He IH Hc|l op r Hl IHl Hop Hr IHr].
  - eexists. exists []. apply chain_one. apply operand_number. exact Hk.
  - eexists. exists []. apply chain_one. apply operand_identifier. exact Hk.
  - destruct IH as (first & rest & Hch).
    eexists. exists []. apply chain_one.
    apply (operand_paren o e c first rest); assumption.
  - destruct IHl as (f1 & r1 & H1). destruct IHr as (f2 & r2 & H2).
    exists f1, (r1 ++ (op, f2) :: r2). apply chain_append; assumption.
Qed.

(** An expression starts with a number, an identifier or an open
    parenthesis. *)
Lemma expression_starts e :
  expression e ->
  exists t rest, e = t :: rest
                 /\ kind t <> token_kinds.return_kw
                 /\ kind t <> token_kinds.int_kw.
Proof.
  induction 1 as [t Hk|t Hk|o e c Ho He IH Hc|l op r Hl IHl Hop Hr IHr].
  - exists t, []. rewrite Hk. repeat split; discriminate.
  - exists t, []. rewrite Hk. repeat split; discriminate.
  - exists o, (e ++ [c]). rewrite Ho. repeat split; discriminate.
  - destruct IHl as (t & rest & -> & H1 & H2).
    exists t, (rest ++ op :: r). repeat split; assumption.
Qed.

Section ParsingValidPrograms.
Variable tokens : list Token.

Lemma parse_expression_nothing index t :
  nth_error tokens index = Some t -> may_shift (kind t) = false ->
  parse_expression tokens index
  = Raise (ParserErr (ParserError_new "expected expression" index tokens GOT)).
Proof.
  intros Hn Hm.
  rewrite (parse_expression_steps tokens index [] index (steps_refl _ _ _)).
  - reflexivity.
  - unfold step. simpl. unfold shift.
    destruct (index =? length tokens); [reflexivity|].
    rewrite Hn, Hm. reflexivity.
Qed.

Lemma expect_semicolon_there index s :
  nth_error tokens index = Some s -> kind s = token_kinds.semicolon ->
  expect_semicolon tokens index = Ok (S index).
Proof.
  intros Hn Hk.
  destruct (expect_semicolon_cases tokens index)
    as [(s' & _ & _ & Hm)|[Hno _]]; [exact Hm|].
  exfalso. exact (Hno s Hn Hk).
Qed.

Lemma match_token_there index t k :
  nth_error tokens index = Some t -> kind t = k ->
  match_token tokens index k = Ok (S index).
Proof.
  intros Hn Hk.
  destruct (match_token_cases tokens index k)
    as [(t' & _ & _ & Hm)|[Hno _]]; [exact Hm|].
  exfalso. exact (Hno t Hn Hk).
Qed.

Lemma match_token_absent index t k :
  nth_error tokens index = Some t -> kind t <> k ->
  match_token tokens index k = Raise MatchError.
Proof.
  intros Hn Hk.
  destruct (match_token_cases tokens index k)
    as [(t' & Hn' & Hk' & _)|[_ Hm]]; [|exact Hm].
  exfalso. rewrite Hn in Hn'. injection Hn' as <-. contradiction.
Qed.

Lemma semicolon_stops s post :
  kind s = token_kinds.semicolon -> stops (s :: post).
Proof. simpl. intros ->. reflexivity. Qed.

Lemma parse_expr_statement_valid index e s post :
  expression e -> kind s = token_kinds.semicolon ->
  skipn index tokens = e ++ s :: post ->
  exists n, parse_expr_statement tokens index
            = Ok (n, index + length (e ++ [s])).
Proof.
  intros He Hs Hsk. destruct (expression_chain e He) as (first & rest & Hch).
  unfold parse_expr_statement.
  rewrite (parse_expression_chain tokens e first rest index (s :: post) Hch Hsk
             (semicolon_stops s post Hs)).
  cbn [bind fst snd].
  apply skipn_past in Hsk. apply skipn_head in Hsk. destruct Hsk as [Hn _].
  rewrite (expect_semicolon_there _ s Hn Hs). cbn [bind].
  eexists. f_equal. f_equal. rewrite length_app. simpl. lia.
Qed.

Lemma parse_return_valid index kw e s post :
  kind kw = token_kinds.return_kw -> expression e ->
  kind s = token_kinds.semicolon ->
  skipn index tokens = kw :: e ++ s :: post ->
  exists n, parse_return tokens index
            = Ok (n, index + length (kw :: e ++ [s])).
Proof.
  intros Hkw He Hs Hsk. destruct (expression_chain e He) as (first & rest & Hch).
  destruct (skipn_head Hsk) as [Hn Hsk1].
  unfold parse_return.
  rewrite (match_token_there index kw _ Hn Hkw). cbn [except_MatchError bind].
  rewrite (parse_expression_chain tokens e first rest (S index) (s :: post)
             Hch Hsk1 (semicolon_stops s post Hs)).
  cbn [bind fst snd].
  apply skipn_past in Hsk1. apply skipn_head in Hsk1. destruct Hsk1 as [Hn1 _].
  rewrite (expect_semicolon_there _ s Hn1 Hs). cbn [bind].
  eexists. f_equal. f_equal. simpl. rewrite length_app. simpl. lia.
Qed.

Lemma parse_declaration_valid index ty name s post :
  kind ty = token_kinds.int_kw -> kind name = token_kinds.identifier ->
  kind s = token_kinds.semicolon ->
  skipn index tokens = ty :: name :: s :: post ->
  exists n, parse_declaration tokens index = Ok (n, index + 3).
Proof.
  intros Hty Hname Hs Hsk.
  destruct (skipn_head Hsk) as [Hn0 Hsk1].
  destruct (skipn_head Hsk1) as [Hn1 Hsk2].
  destruct (skipn_head Hsk2) as [Hn2 _].
  unfold parse_declaration.
  rewrite (match_token_there index ty _ Hn0 Hty). cbn [except_MatchError bind].
  rewrite (match_token_there (S index) name _ Hn1 Hname).
  cbn [except_MatchError bind].
  replace (S (S index) - 1) with (S index) by lia. rewrite Hn1. cbn [bind].
  rewrite (expect_semicolon_there _ s Hn2 Hs). cbn [bind].
  eexists. f_equal. f_equal. lia.
Qed.

(** Where no statement starts, [parse_statement] fails with a diagnostic
    after logging the one of the return production. *)
Lemma parse_statement_fails index t self :
  nth_error tokens index = Some t ->
  kind t <> token_kinds.return_kw -> may_shift (kind t) = false ->
  exists e self', parse_statement tokens index self
                  = (Raise (ParserErr e), self').
Proof.
  intros Hn Hk Hm. unfold parse_statement.
  rewrite parse_return_no_keyword.
  - unfold parse_expr_statement.
    rewrite (parse_expression_nothing index t Hn Hm). cbn [bind]. eauto.
  - intros t' Hn'. rewrite Hn in Hn'. injection Hn' as <-. exact Hk.
Qed.

Lemma parse_declaration_fails index t :
  nth_error tokens index = Some t -> kind t <> token_kinds.int_kw ->
  exists e, parse_declaration tokens index = Raise (ParserErr e).
Proof.
  intros Hn Hk. unfold parse_declaration.
  rewrite (match_token_absent index t _ Hn Hk). cbn [except_MatchError bind].
  eauto.
Qed.

(** On a statement or declaration one pass of the loop of [parse_main]
    succeeds: the statement production does, or it fails with a diagnostic
    and the declaration production succeeds. *)
Lemma body_item_parsed it index post self :
  body_item it -> skipn index tokens = it ++ post ->
  (exists n self', parse_statement tokens index self
                   = (Ok (n, index + length it), self'))
  \/ (exists e self' n,
        parse_statement tokens index self = (Raise (ParserErr e), self')
        /\ parse_declaration tokens index = Ok (n, index + length it)).
Proof.
  intros Hit Hsk.
  destruct Hit as [kw e s Hkw He Hs|e s He Hs|ty name s Hty Hname Hs].
  - left. simpl in Hsk. rewrite <- app_assoc in Hsk. simpl in Hsk.
    destruct (parse_return_valid index kw e s post Hkw He Hs Hsk) as (n & Hr).
    unfold parse_statement. rewrite Hr. eauto.
  - left. rewrite <- app_assoc in Hsk. simpl in Hsk.
    destruct (parse_expr_statement_valid index e s post He Hs Hsk) as (n & Hr).
    destruct (expression_starts e He) as (t & rest & -> & Hnr & _).
    simpl in Hsk. destruct (skipn_head Hsk) as [Hn _].
    unfold parse_statement. rewrite parse_return_no_keyword.
    + rewrite Hr. eauto.
    + intros t' Hn'. rewrite Hn in Hn'. injection Hn' as <-. exact Hnr.
  - right. simpl in Hsk. destruct (skipn_head Hsk) as [Hn _].
    destruct (parse_statement_fails index ty self Hn) as (e & self' & Hf).
    { rewrite Hty. discriminate. }
    { rewrite Hty. reflexivity. }
    destruct (parse_declaration_valid index ty name s post Hty Hname Hs Hsk)
      as (n & Hd).
    exists e, self', n. split; [exact Hf|exact Hd].
Qed.

Lemma body_item_nonempty it : body_item it -> 1 <= length it.
Proof. destruct 1; simpl; rewrite ?length_app; simpl; lia. Qed.

(** The loop of [parse_main] reads a whole body and breaks at the closing
    brace. *)
Lemma main_loop_body items :
  body items ->
  forall fuel index nodes self close post,
    skipn index tokens = items ++ close :: post ->
    kind close = token_kinds.close_brack ->
    length items < fuel ->
    exists nodes' self',
      main_loop tokens fuel index nodes self
      = (Ok (nodes', index + length items), self').
Proof.
  induction 1 as [|it rest Hit Hrest IH];
    intros fuel index nodes self close post Hsk Hc Hf.
  - destruct fuel as [|fuel]; [lia|]. simpl in Hsk.
    destruct (skipn_head Hsk) as [Hn _]. simpl.
    destruct (parse_statement_fails index close self Hn) as (e & self' & Hs).
    { rewrite Hc. discriminate. }
    { rewrite Hc. reflexivity. }
    rewrite Hs.
    destruct (parse_declaration_fails index close Hn) as (e' & Hd).
    { rewrite Hc. discriminate. }
    rewrite Hd. rewrite Nat.add_0_r. eauto.
  - destruct fuel as [|fuel]; [lia|].
    rewrite <- app_assoc in Hsk.
    pose proof (body_item_nonempty it Hit) as Hlen.
    rewrite length_app in Hf.
    pose proof (skipn_past Hsk) as Hsk'.
    simpl.
    destruct (body_item_parsed it index _ self Hit Hsk)
      as [(n & self' & Hs)|(e & self' & n & Hs & Hd)].
    + rewrite Hs.
      destruct (IH fuel (index + length it) (nodes ++ [n]) self' close post
                  Hsk' Hc) as (nodes' & self'' & Hl); [lia|].
      rewrite Hl, length_app, Nat.add_assoc. eauto.
    + rewrite Hs, Hd.
      destruct (IH fuel (index + length it) (nodes ++ [n]) (log_error e self')
                  close post Hsk' Hc) as (nodes' & self'' & Hl); [lia|].
      rewrite Hl, length_app, Nat.add_assoc. eauto.
Qed.

(** [parse] succeeds on every valid program. *)
Lemma parse_valid :
  valid_program tokens -> exists node, fst (parse tokens) = Ok node.
Proof.
  intros (header & items & close & Htok & Hh & Hb & Hc).
  assert (length header = 5) as Hlen
    by (rewrite <- (length_map kind), Hh; reflexivity).
  assert (match_tokens tokens 0 kinds_before = Ok 5) as Hm.
  { destruct (match_tokens_cases tokens 0 kinds_before) as [[_ H]|[H _]];
      [exact H|].
    exfalso. apply H. unfold kinds_at. rewrite Htok. simpl skipn.
    change (length kinds_before) with 5. rewrite <- Hlen.
    rewrite firstn_app, Nat.sub_diag, firstn_all. simpl.
    rewrite app_nil_r. exact Hh. }
  assert (skipn 5 tokens = items ++ close :: []) as Hsk.
  { rewrite Htok, <- Hlen, skipn_app, skipn_all, Nat.sub_diag. reflexivity. }
  assert (length tokens = 5 + length items + 1) as Htl.
  { rewrite Htok, !length_app, Hlen. simpl. lia. }
  unfold parse, parse_main. rewrite Hm. cbn [except_MatchError].
  destruct (main_loop_body items Hb (S (length tokens - 5)) 5 [] init_state
              close [] Hsk Hc) as (nodes & self & Hl); [lia|].
  rewrite Hl.
  pose proof (skipn_past Hsk) as Hsk'. destruct (skipn_head Hsk') as [Hn Hend].
  rewrite (match_token_there _ close _ Hn Hc). cbn [except_MatchError bind].
  rewrite Hend. cbn [fst]. eexists. reflexivity.
Qed.
End ParsingValidPrograms.

(** Induction on trees, with the children of a [MainNode] covered. *)
Lemma Node_forall_ind (P : Node -> Prop) :
  (forall nodes, Forall P nodes -> P (ast.MainNode nodes)) ->
  (forall e, P e -> P (ast.ReturnNode e)) ->
  (forall e, P e -> P (ast.ExprStatementNode e)) ->
  (forall t, P (ast.NumberNode t)) ->
  (forall t, P (ast.IdentifierNode t)) ->
  (forall e, P e -> P (ast.ParenExprNode e)) ->
  (forall l op r, P l -> P r -> P (ast.BinaryOperatorNode l op r)) ->
  (forall t, P (ast.DeclarationNode t)) ->
  forall n, P n.
Proof.
  intros HM HR HE HN HI HP HB HD. fix IH 1.
  intros [nodes|e|e|t|t|e|l op r|t].
  - apply HM. induction nodes as [|n nodes IHnodes]; constructor;
      [apply IH|exact IHnodes].
  - apply HR, IH.
  - apply HE, IH.
  - apply HN.
  - apply HI.
  - apply HP, IH.
  - apply HB; apply IH.
  - apply HD.
Qed.

(** The leaves of a tree are the tokens its flattened span carries. *)
Lemma leaves_flatten : forall n, leaves n = flat_map stored (flatten n).
Proof.
  apply Node_forall_ind; intros; simpl;
    rewrite ?flat_map_app; simpl; rewrite ?app_nil_r;
    try congruence.
  induction H as [|n nodes Hn _ IH]; simpl; [reflexivity|].
  rewrite flat_map_app, Hn, IH. reflexivity.
Qed.

Lemma stored_describe (tokens : list Token) :
  flat_map stored (map describe tokens) = leaf_tokens tokens.
Proof.
  induction tokens as [|t tokens IH]; [reflexivity|].
  simpl. rewrite IH. unfold stored, describe. simpl.
  destruct (is_leaf_kind (kind t)); reflexivity.
Qed.

(** C5, as amended: on every valid token sequence [int main(){ <statements
    and declarations> }] the parse succeeds, and the token span of the
    returned tree, flattened from left to right, matches the input position
    by position: the same kind everywhere, and the very token of the input
    wherever the tree stores one (numbers, identifiers and operators).  The
    leaf tokens of the tree, read left to right, are the number, identifier
    and operator tokens of the input in their order; keyword and punctuation
    tokens are not kept in the tree, so the leaf tokens are a subsequence of
    the input and not the whole of it. *)
Theorem parse_round_trip :
  forall tokens : list Token,
    valid_program tokens ->
    exists node,
      fst (parse tokens) = Ok node
      /\ flatten node = map describe tokens
      /\ leaves node = leaf_tokens tokens.
Proof.
  intros tokens Hv. destruct (parse_valid tokens Hv) as (node & Hp).
  exists node. split; [exact Hp|].
  pose proof (parse_flatten tokens node Hp) as Hf. split; [exact Hf|].
  rewrite leaves_flatten, Hf. apply stored_describe.
Qed.

Lemma parse_round_trip_witness :
  exists node,
    fst (parse sample_program) = Ok node
    /\ flatten node = map describe sample_program
    /\ leaves node = leaf_tokens sample_program.
Proof.
  apply parse_round_trip.
  exists [t_int; t_main; t_lparen; t_rparen; t_lbrace],
         [t_int; t_id "x"; t_semi;
          t_id "x"; t_eq; t_lparen; t_num "4"; t_plus; t_id "y"; t_rparen;
          t_star; t_num "2"; t_semi;
          t_return; t_id "x"; t_semi],
         t_rbrace.
  split; [reflexivity|]. split; [reflexivity|]. split; [|reflexivity].
  apply (body_cons [t_int; t_id "x"; t_semi]).
  { apply item_declaration; reflexivity. }
  apply (body_cons [t_id "x"; t_eq; t_lparen; t_num "4"; t_plus; t_id "y";
                    t_rparen; t_star; t_num "2"; t_semi]).
  { apply (item_expression
             [t_id "x"; t_eq; t_lparen; t_num "4"; t_plus; t_id "y";
              t_rparen; t_star; t_num "2"] t_semi); [|reflexivity].
    apply (expression_binary [t_id "x"] t_eq
             [t_lparen; t_num "4"; t_plus; t_id "y"; t_rparen; t_star;
              t_num "2"]); [|reflexivity|].
    - apply expression_identifier. reflexivity.
    - apply (expression_binary
               [t_lparen; t_num "4"; t_plus; t_id "y"; t_rparen] t_star
               [t_num "2"]); [|reflexivity|].
      + apply (expression_paren t_lparen [t_num "4"; t_plus; t_id "y"]
                 t_rparen); [reflexivity| |reflexivity].
        apply (expression_binary [t_num "4"] t_plus [t_id "y"]);
          [|reflexivity|].
        * apply expression_number. reflexivity.
        * apply expression_identifier. reflexivity.
      + apply expression_number. reflexivity. }
  apply (body_cons [t_return; t_id "x"; t_semi] []).
  { apply (item_return t_return [t_id "x"] t_semi); try reflexivity.
    apply expression_identifier. reflexivity. }
  apply body_nil.
Defined.

(** On [int main(){ return 4; }] the tree is
    [MainNode [ReturnNode (NumberNode 4)]]: its only leaf token is [4], so
    the leaf tokens do not reproduce the nine tokens of the input.  No node
    is given the keyword, parenthesis, brace or semicolon tokens. *)
Lemma parse_leaves_omit_punctuation :
  valid_program
    [t_int; t_main; t_lparen; t_rparen; t_lbrace; t_return; t_num "4";
     t_semi; t_rbrace]
  /\ fst (parse [t_int; t_main; t_lparen; t_rparen; t_lbrace; t_return;
                 t_num "4"; t_semi; t_rbrace])
     = Ok (ast.MainNode [ast.ReturnNode (ast.NumberNode (t_num "4"))])
  /\ leaves (ast.MainNode [ast.ReturnNode (ast.NumberNode (t_num "4"))])
     = [t_num "4"]
  /\ ~ (exists node,
          fst (parse [t_int; t_main; t_lparen; t_rparen; t_lbrace; t_return;
                      t_num "4"; t_semi; t_rbrace]) = Ok node
          /\ leaves node
             = [t_int; t_main; t_lparen; t_rparen; t_lbrace; t_return;
                t_num "4"; t_semi; t_rbrace]).
Proof.
  split; [|split; [|split]].
  - exists [t_int; t_main; t_lparen; t_rparen; t_lbrace],
           [t_return; t_num "4"; t_semi], t_rbrace.
    split; [reflexivity|]. split; [reflexivity|]. split; [|reflexivity].
    apply (body_cons [t_return; t_num "4"; t_semi] []); [|apply body_nil].
    apply (item_return t_return [t_num "4"] t_semi); try reflexivity.
    apply expression_number. reflexivity.
  - vm_compute. reflexivity.
  - reflexivity.
  - intros (node & Hp & Hl). vm_compute in Hp. injection Hp as <-.
    discriminate Hl.
Qed.

(** The tree of the sample program, computed. *)
Lemma sample_program_parsed :
  fst (parse sample_program)
  = Ok (ast.MainNode
          [ast.DeclarationNode (t_id "x");
           ast.ExprStatementNode
             (ast.BinaryOperatorNode (ast.IdentifierNode (t_id "x")) t_eq
                (ast.BinaryOperatorNode
                   (ast.ParenExprNode
                      (ast.BinaryOperatorNode (ast.NumberNode (t_num "4"))
                         t_plus (ast.IdentifierNode (t_id "y"))))
                   t_star (ast.NumberNode (t_num "2"))));
           ast.ReturnNode (ast.IdentifierNode (t_id "x"))]).
Proof. vm_compute. reflexivity. Qed.

(** * Further properties of the parser *)

(** ** What [parse_expression] returns on any input *)

Section EngineTrees.
Variable tokens : list Token.

Lemma trees_ok_transition stack i stack' i' :
  transition tokens stack i stack' i' -> trees_ok stack -> trees_ok stack'.
Proof.
  unfold trees_ok. intros Ht Hall. destruct Ht.
  - inversion Hall; subst. constructor; [|assumption].
    simpl. apply expression_tree_number. assumption.
  - inversion Hall; subst. constructor; [|assumption].
    simpl. apply expression_tree_identifier. assumption.
  - inversion Hall as [|? ? Ha Hall1]; subst.
    inversion Hall1 as [|? ? Hb Hall2]; subst.
    inversion Hall2 as [|? ? Hc Hall3]; subst.
    constructor; [|assumption]. simpl in *.
    apply expression_tree_paren. exact Hb.
  - inversion Hall as [|? ? Ha Hall1]; subst.
    inversion Hall1 as [|? ? Hb Hall2]; subst.
    inversion Hall2 as [|? ? Hc Hall3]; subst.
    constructor; [|assumption]. simpl in *.
    apply expression_tree_binary; assumption.
  - constructor; [exact I|assumption].
Qed.

Lemma trees_ok_steps stack i stack' i' :
  steps tokens stack i stack' i' -> trees_ok stack -> trees_ok stack'.
Proof.
  induction 1 as [|s i s1 i1 s2 i2 Hs Hrest IH]; intro Hok; [assumption|].
  apply IH. eapply trees_ok_transition; [|exact Hok].
  apply step_Continue. exact Hs.
Qed.

Lemma parse_expression_tree index n j :
  parse_expression tokens index = Ok (n, j) -> expression_tree n.
Proof.
  intro H. apply parse_expression_Ok in H.
  destruct H as (final & i & above & len & Hst & _ & -> & _).
  apply trees_ok_steps in Hst; [|constructor].
  apply Forall_app in Hst. destruct Hst as [_ Hst].
  inversion Hst as [|? ? Hn _]; subst. exact Hn.
Qed.
End EngineTrees.

Lemma describe_is_leaf (t a : Token) :
  describe t = leaf a -> t = a.
Proof.
  unfold describe, leaf. intro H. injection H as _ H.
  destruct (is_leaf_kind (kind t)); [|discriminate H].
  injection H as ->. reflexivity.
Qed.

Lemma describe_is_punct (t : Token) (k : TokenKind) :
  describe t = punct k -> kind t = k.
Proof. unfold describe, punct. intro H. injection H as H _. exact H. Qed.

Lemma cons_eq {A : Type} (x y : A) (l l' : list A) :
  x :: l = y :: l' -> x = y /\ l = l'.
Proof. intro H. injection H. auto. Qed.

(** The tokens under an expression tree form an expression of the
    grammar. *)
Lemma expression_tree_tokens n :
  expression_tree n ->
  forall l, flatten n = map describe l -> expression l.
Proof.
  induction 1 as [t Hk|t Hk|e He IH|l0 op r Hl IHl Hop Hr IHr]; intros l E.
  - destruct l as [|a [|b l]]; try discriminate E.
    simpl in E. apply cons_eq in E. destruct E as [E _].
    symmetry in E. apply describe_is_leaf in E. subst a.
    apply expression_number. exact Hk.
  - destruct l as [|a [|b l]]; try discriminate E.
    simpl in E. apply cons_eq in E. destruct E as [E _].
    symmetry in E. apply describe_is_leaf in E. subst a.
    apply expression_identifier. exact Hk.
  - destruct l as [|o l]; [discriminate E|].
    simpl in E. apply cons_eq in E. destruct E as [Eo E].
    symmetry in E. apply map_eq_app in E.
    destruct E as (l1 & l2 & -> & E1 & E2).
    destruct l2 as [|c [|x l2]]; try discriminate E2.
    simpl in E2. apply cons_eq in E2. destruct E2 as [Ec _].
    apply expression_paren.
    + apply describe_is_punct. symmetry. exact Eo.
    + apply IH. symmetry. exact E1.
    + apply describe_is_punct. exact Ec.
  - simpl in E. symmetry in E. apply map_eq_app in E.
    destruct E as (l1 & l2 & -> & E1 & E2).
    destruct l2 as [|o l2]; [discriminate E2|].
    simpl in E2. apply cons_eq in E2. destruct E2 as [Eo E2].
    apply describe_is_leaf in Eo. subst o.
    apply expression_binary; [|exact Hop|].
    + apply IHl. symmetry. exact E1.
    + apply IHr. symmetry. exact E2.
Qed.

Lemma parse_expression_grammar (tokens : list Token) (index : nat)
    (n : Node) (j : nat) :
  parse_expression tokens index = Ok (n, j) ->
  expression (segment tokens index j).
Proof.
  intro H.
  apply (expression_tree_tokens n (parse_expression_tree tokens index n j H)).
  apply parse_expression_flatten. exact H.
Qed.

(** X1: whatever [parse_expression] returns, on any token list and from
    any index, is the tree of a well-formed expression that occupies exactly
    the tokens from the starting index to the returned index: the tree is an
    expression tree, its flattened span is [tokens[index:j]], and those
    tokens form an expression of the grammar. *)
Theorem parse_expression_sound :
  forall (tokens : list Token) (index : nat) (n : Node) (j : nat),
    parse_expression tokens index = Ok (n, j) ->
    expression_tree n
    /\ flatten n = map describe (segment tokens index j)
    /\ expression (segment tokens index j).
Proof.
  intros tokens index n j H.
  pose proof (parse_expression_tree tokens index n j H) as Ht.
  pose proof (parse_expression_flatten tokens index n j H) as Hf.
  split; [exact Ht|]. split; [exact Hf|].
  apply (expression_tree_tokens n Ht). exact Hf.
Qed.

(** On [a + b ) c] only [a + b] is returned. *)
Lemma parse_expression_sound_witness :
  expression_tree
    (ast.BinaryOperatorNode (ast.IdentifierNode (t_id "a")) t_plus
       (ast.IdentifierNode (t_id "b")))
  /\ flatten
       (ast.BinaryOperatorNode (ast.IdentifierNode (t_id "a")) t_plus
          (ast.IdentifierNode (t_id "b")))
     = map describe
         (segment [t_id "a"; t_plus; t_id "b"; t_rparen; t_id "c"] 0 3)
  /\ expression (segment [t_id "a"; t_plus; t_id "b"; t_rparen; t_id "c"] 0 3).
Proof.
  apply (parse_expression_sound
           [t_id "a"; t_plus; t_id "b"; t_rparen; t_id "c"] 0).
  reflexivity.
Defined.

(** ** The language [parse] accepts *)

Section AcceptedPrograms.
Variable tokens : list Token.

Lemma parse_return_item index n j :
  parse_return tokens index = Ok (n, j) -> body_item (segment tokens index j).
Proof.
  unfold parse_return. intro H.
  apply bind_Ok in H. destruct H as (i1 & H1 & H).
  apply except_MatchError_Ok, match_token_Ok in H1.
  destruct H1 as (-> & _ & kw & Hkw & Hkind).
  apply bind_Ok in H. destruct H as ([e i2] & H2 & H).
  pose proof (parse_expression_progress _ _ _ _ H2) as [Hlt _].
  apply parse_expression_grammar in H2. rename H2 into He.
  apply bind_Ok in H. destruct H as (i3 & H3 & H).
  apply expect_semicolon_token in H3. cbn [fst snd] in *.
  destruct H3 as (-> & s & Hs & Hsk). injection H as _ <-.
  rewrite (segment_cons tokens index (S i2) kw Hkw) by lia.
  rewrite (segment_snoc tokens (S index) i2 s Hs) by lia.
  apply item_return; assumption.
Qed.

Lemma parse_expr_statement_item index n j :
  parse_expr_statement tokens index = Ok (n, j) ->
  body_item (segment tokens index j).
Proof.
  unfold parse_expr_statement. intro H.
  apply bind_Ok in H. destruct H as ([e i2] & H2 & H).
  pose proof (parse_expression_progress _ _ _ _ H2) as [Hlt _].
  apply parse_expression_grammar in H2. rename H2 into He.
  apply bind_Ok in H. destruct H as (i3 & H3 & H).
  apply expect_semicolon_token in H3. cbn [fst snd] in *.
  destruct H3 as (-> & s & Hs & Hsk). injection H as _ <-.
  rewrite (segment_snoc tokens index i2 s Hs) by lia.
  apply item_expression; assumption.
Qed.

Lemma parse_declaration_item index n j :
  parse_declaration tokens index = Ok (n, j) ->
  body_item (segment tokens index j).
Proof.
  unfold parse_declaration. intro H.
  apply bind_Ok in H. destruct H as (i1 & H1 & H).
  apply except_MatchError_Ok, match_token_Ok in H1.
  destruct H1 as (-> & _ & ty & Hty & Htyk).
  apply bind_Ok in H. destruct H as (i2 & H2 & H).
  apply except_MatchError_Ok, match_token_Ok in H2.
  destruct H2 as (-> & _ & name & Hname & Hnamek).
  apply bind_Ok in H. destruct H as (v & _ & H).
  apply bind_Ok in H. destruct H as (i3 & H3 & H).
  apply expect_semicolon_token in H3.
  destruct H3 as (-> & s & Hs & Hsk). injection H as _ <-.
  rewrite (segment_cons tokens index _ ty Hty) by lia.
  rewrite (segment_cons tokens (S index) _ name Hname) by lia.
  rewrite (segment_one tokens (S (S index)) s Hs).
  apply item_declaration; assumption.
Qed.

Lemma parse_statement_item index self n j self' :
  parse_statement tokens index self = (Ok (n, j), self') ->
  body_item (segment tokens index j).
Proof.
  unfold parse_statement. intro H.
  destruct (parse_return tokens index) as [[n1 j1]|[e| | |]|] eqn:Hr;
    try discriminate H.
  - injection H as <- <- _. eapply parse_return_item. exact Hr.
  - injection H as H _. eapply parse_expr_statement_item. exact H.
Qed.

Lemma main_loop_body_sound (fuel : nat) :
  forall index nodes self nodes' j self',
    main_loop tokens fuel index nodes self = (Ok (nodes', j), self') ->
    body (segment tokens index j).
Proof.
  induction fuel as [|fuel IH]; intros index nodes self nodes' j self' H;
    [discriminate H|].
  simpl in H.
  destruct (parse_statement tokens index self)
    as [[[n1 j1]|[e| | |]|] self1] eqn:Hst; try discriminate H.
  - pose proof (parse_statement_progress _ _ _ _ _ _ Hst) as [Hlt _].
    apply parse_statement_item in Hst.
    pose proof (main_loop_progress _ _ _ _ _ _ _ _ H) as [Hle _].
    apply IH in H.
    rewrite (segment_app tokens index j1 j) by lia.
    apply body_cons; assumption.
  - destruct (parse_declaration tokens index) as [[n1 j1]|[e'| | |]|] eqn:Hd;
      try discriminate H.
    + pose proof (parse_declaration_progress _ _ _ _ Hd) as [Hlt _].
      apply parse_declaration_item in Hd.
      pose proof (main_loop_progress _ _ _ _ _ _ _ _ H) as [Hle _].
      apply IH in H.
      rewrite (segment_app tokens index j1 j) by lia.
      apply body_cons; assumption.
    + injection H as _ <- _. rewrite segment_nil. apply body_nil.
Qed.

Lemma parse_accepts_only_valid node :
  fst (parse tokens) = Ok node -> valid_program tokens.
Proof.
  unfold parse. intro H.
  destruct (parse_main tokens 0 init_state)
    as [[[n j]|[e| | |]|] self] eqn:Hm; cbn [fst] in H;
    try discriminate H;
    [|destruct (best_error (log_error e self)); discriminate H].
  destruct (skipn j tokens) as [|t rest] eqn:Hs; cbn [fst] in H;
    [|discriminate H].
  pose proof (parse_main_progress _ _ _ _ _ _ Hm) as [_ Hle].
  apply skipn_nil_length in Hs.
  assert (j = length tokens) as -> by lia. clear Hs Hle H.
  unfold parse_main in Hm.
  destruct (except_MatchError (match_tokens tokens 0 kinds_before) _)
    as [i1|e|] eqn:H1; try discriminate Hm.
  apply except_MatchError_Ok, match_tokens_Ok in H1.
  destruct H1 as (-> & Hk & Hlen).
  destruct (main_loop tokens _ _ [] init_state)
    as [[[nodes i2]|e|] self1] eqn:Hl; try discriminate Hm.
  pose proof (main_loop_progress _ _ _ _ _ _ _ _ Hl) as [Hle _].
  apply main_loop_body_sound in Hl.
  injection Hm as Hm _. apply bind_Ok in Hm. destruct Hm as (i3 & H3 & Hm).
  apply except_MatchError_Ok, match_token_Ok in H3.
  destruct H3 as (-> & Hlt & c & Hc & Hck). injection Hm as _ Hend.
  exists (segment tokens 0 (0 + length kinds_before)),
         (segment tokens (0 + length kinds_before) i2), c.
  repeat split.
  - rewrite <- (segment_all tokens) at 1. rewrite <- Hend.
    rewrite (segment_snoc tokens 0 i2 c Hc) by lia.
    rewrite (segment_app tokens 0 (0 + length kinds_before) i2) by lia.
    rewrite <- app_assoc. reflexivity.
  - unfold segment. rewrite Nat.sub_0_r. exact Hk.
  - exact Hl.
  - exact Hck.
Qed.
End AcceptedPrograms.

(** X2: [parse] returns a tree exactly on the token sequences of the
    grammar [int main ( ) { (return E ; | E ; | int identifier ;)* }] with
    [E ::= number | identifier | ( E ) | E op E]: every such sequence is
    accepted and nothing else is. *)
Theorem parse_accepts_exactly_valid_programs :
  forall tokens : list Token,
    (exists node, fst (parse tokens) = Ok node) <-> valid_program tokens.
Proof.
  intro tokens. split.
  - intros (node & H). eapply parse_accepts_only_valid. exact H.
  - apply parse_valid.
Qed.

(** [int main(){ a + ; }] is not in the grammar, so no tree is returned. *)
Lemma parse_accepts_exactly_valid_programs_witness :
  ~ valid_program
      [t_int; t_main; t_lparen; t_rparen; t_lbrace; t_id "a"; t_plus; t_semi;
       t_rbrace].
Proof.
  intro Hv.
  apply (proj2 (parse_accepts_exactly_valid_programs _)) in Hv.
  destruct Hv as (node & H). vm_compute in H. discriminate H.
Defined.

(** ** Precedence and associativity on every expression *)

Lemma may_be_left_preempts (child op : Token) :
  in_binary_operators (kind child) = true ->
  in_binary_operators (kind op) = true ->
  may_be_left child op = negb (preempts (Some op) child).
Proof.
  unfold may_be_left, preempts, in_binary_operators.
  destruct (kind child), (kind op); simpl; intros H1 H2;
    try discriminate; reflexivity.
Qed.

Lemma may_be_right_preempts (child op : Token) :
  in_binary_operators (kind child) = true ->
  in_binary_operators (kind op) = true ->
  may_be_right child op = preempts (Some child) op.
Proof.
  unfold may_be_right, preempts, in_binary_operators.
  destruct (kind child), (kind op); simpl; intros H1 H2;
    try discriminate; reflexivity.
Qed.

Lemma preempts_binary (t op : Token) :
  preempts (Some t) op = true -> in_binary_operators (kind t) = true.
Proof.
  intro H. destruct (in_binary_operators (kind t)) eqn:E; [reflexivity|].
  rewrite (preempts_no_operator t op E) in H. discriminate H.
Qed.

(** The reductions before the next operator [t] keep the pending operands
    in order, and leave an operand that fits to the left of [t] above
    operators that [t] may stand to the right of. *)
Lemma collapse_before_operator (t : Token) (p : Pending) : forall n,
  in_binary_operators (kind t) = true ->
  pending_ok p -> well_grouped n -> fits_top n p ->
  operand_fits may_be_left n t ->
  pending_ok ((snd (collapse (Some t) p n), t) :: fst (collapse (Some t) p n)).
Proof.
  induction p as [|[l op] p IH]; intros n Ht Hp Hn Hfit Hleft.
  - simpl. repeat split; assumption.
  - destruct Hp as (Hl & Hlf & Hop & Hadj & Hp). cbn [collapse].
    destruct (preempts (Some t) op) eqn:E.
    + cbn [fst snd pending_ok]. repeat split; try assumption.
      rewrite may_be_right_preempts; assumption.
    + apply IH; [exact Ht|exact Hp| | |].
      * apply well_grouped_binary; assumption.
      * destruct p as [|[l' op'] p]; [exact I|]. exact Hadj.
      * unfold operand_fits. simpl.
        rewrite may_be_left_preempts by assumption. rewrite E. reflexivity.
Qed.

(** At the end of a chain everything pending is reduced into one well
    grouped tree. *)
Lemma collapse_at_end (p : Pending) : forall n,
  pending_ok p -> well_grouped n -> fits_top n p ->
  well_grouped (snd (collapse None p n)).
Proof.
  induction p as [|[l op] p IH]; intros n Hp Hn Hfit; [exact Hn|].
  destruct Hp as (Hl & Hlf & Hop & Hadj & Hp). cbn [collapse preempts].
  apply IH; [exact Hp| |].
  - apply well_grouped_binary; assumption.
  - destruct p as [|[l' op'] p]; [exact I|]. exact Hadj.
Qed.

Lemma closed_fits_top n p : closed_operand n -> fits_top n p.
Proof.
  intros [_ Hroot]. unfold fits_top, operand_fits. rewrite Hroot.
  destruct p as [|[l op] p]; exact I.
Qed.

Lemma closed_fits_left n t : closed_operand n -> operand_fits may_be_left n t.
Proof. intros [_ Hroot]. unfold operand_fits. rewrite Hroot. exact I. Qed.

Lemma fold_chain_well_grouped (rest : list (Token * Node)) : forall p n,
  pending_ok p -> closed_operand n ->
  Forall (fun om => in_binary_operators (kind (fst om)) = true
                    /\ closed_operand (snd om)) rest ->
  well_grouped (fold_chain p n rest).
Proof.
  induction rest as [|[op m] rest IH]; intros p n Hp Hn Hall.
  - cbn [fold_chain]. apply collapse_at_end; [exact Hp|apply Hn|].
    apply closed_fits_top. exact Hn.
  - inversion Hall as [|? ? [Hop Hm] Hall']; subst. cbn [fst snd] in Hop, Hm.
    cbn [fold_chain]. apply IH; [|exact Hm|exact Hall'].
    apply collapse_before_operator; try assumption.
    + apply Hn.
    + apply closed_fits_top. exact Hn.
    + apply closed_fits_left. exact Hn.
Qed.

Lemma chains_well_grouped :
  (forall a n, operand_of a n -> closed_operand n)
  /\ (forall e first rest, chain_of e first rest ->
        closed_operand first
        /\ Forall (fun om => in_binary_operators (kind (fst om)) = true
                             /\ closed_operand (snd om)) rest).
Proof.
  apply operand_chain_ind.
  - intros t _. split; [constructor|reflexivity].
  - intros t _. split; [constructor|reflexivity].
  - intros o e c first rest _ _ _ [Hf Hall].
    split; [|reflexivity]. apply well_grouped_paren.
    apply fold_chain_well_grouped; [exact I|exact Hf|exact Hall].
  - intros a n _ Hn. split; [exact Hn|constructor].
  - intros a n op e m rest _ Hn Hop _ [Hm Hall].
    split; [exact Hn|]. constructor; [split; assumption|exact Hall].
Qed.

Lemma chain_tree_well_grouped e first rest :
  chain_of e first rest -> well_grouped (chain_tree first rest).
Proof.
  intro H. destruct chains_well_grouped as [_ Hc].
  destruct (Hc e first rest H) as [Hf Hall].
  apply fold_chain_well_grouped; [exact I|exact Hf|exact Hall].
Qed.

Lemma segment_of_prefix (tokens : list Token) (index : nat) (e post : list Token) :
  skipn index tokens = e ++ post ->
  segment tokens index (index + length e) = e.
Proof.
  intro H. unfold segment. rewrite H.
  replace (index + length e - index) with (length e + 0) by lia.
  rewrite firstn_app_2. simpl. apply app_nil_r.
Qed.

(** X3: on every well-formed expression, with any mix of [=], [+], [*] and
    parentheses, followed by the end of the input or by a token that cannot
    appear in an expression, [parse_expression] consumes the whole
    expression and returns a tree over exactly its tokens in which every
    binary node is grouped by precedence and associativity: the root
    operator of a left operand binds at least as tightly as the node's and
    is not an assignment under an assignment, the root operator of a right
    operand binds strictly tighter or both are assignments; parenthesised
    operands are never regrouped. *)
Theorem parse_expression_well_grouped :
  forall (tokens : list Token) (index : nat) (e post : list Token),
    expression e ->
    skipn index tokens = e ++ post ->
    stops post ->
    exists n,
      parse_expression tokens index = Ok (n, index + length e)
      /\ well_grouped n
      /\ flatten n = map describe e.
Proof.
  intros tokens index e post He Hs Hstop.
  destruct (expression_chain e He) as (first & rest & Hch).
  pose proof (parse_expression_chain tokens e first rest index post
                Hch Hs Hstop) as Hp.
  exists (chain_tree first rest). split; [exact Hp|].
  split; [apply (chain_tree_well_grouped e); exact Hch|].
  rewrite (parse_expression_flatten tokens index _ _ Hp).
  rewrite (segment_of_prefix tokens index e post Hs). reflexivity.
Qed.

(** [x = (a + b) * c + d = e ;] *)
Lemma parse_expression_well_grouped_witness :
  exists n,
    parse_expression
      [t_id "x"; t_eq; t_lparen; t_id "a"; t_plus; t_id "b"; t_rparen;
       t_star; t_id "c"; t_plus; t_id "d"; t_eq; t_id "e"; t_semi] 0
    = Ok (n, 0 + length [t_id "x"; t_eq; t_lparen; t_id "a"; t_plus;
                         t_id "b"; t_rparen; t_star; t_id "c"; t_plus;
                         t_id "d"; t_eq; t_id "e"])
    /\ well_grouped n
    /\ flatten n
       = map describe [t_id "x"; t_eq; t_lparen; t_id "a"; t_plus; t_id "b";
                       t_rparen; t_star; t_id "c"; t_plus; t_id "d"; t_eq;
                       t_id "e"].
Proof.
  apply (parse_expression_well_grouped _ 0 _ [t_semi]).
  - apply (expression_binary [t_id "x"] t_eq); [|reflexivity|].
    { apply expression_identifier. reflexivity. }
    apply (expression_binary
             [t_lparen; t_id "a"; t_plus; t_id "b"; t_rparen; t_star;
              t_id "c"; t_plus; t_id "d"] t_eq [t_id "e"]); [|reflexivity|].
    2: { apply expression_identifier. reflexivity. }
    apply (expression_binary
             [t_lparen; t_id "a"; t_plus; t_id "b"; t_rparen; t_star;
              t_id "c"] t_plus [t_id "d"]); [|reflexivity|].
    2: { apply expression_identifier. reflexivity. }
    apply (expression_binary
             [t_lparen; t_id "a"; t_plus; t_id "b"; t_rparen] t_star
             [t_id "c"]); [|reflexivity|].
    2: { apply expression_identifier. reflexivity. }
    apply (expression_paren t_lparen [t_id "a"; t_plus; t_id "b"] t_rparen);
      [reflexivity| |reflexivity].
    apply (expression_binary [t_id "a"] t_plus [t_id "b"]); [|reflexivity|];
      apply expression_identifier; reflexivity.
  - reflexivity.
  - reflexivity.
Defined.

(** ** The first token decides *)

Lemma bottom_cons (x y : StackItem) (s : list StackItem) :
  bottom (x :: y :: s) = bottom (y :: s).
Proof. reflexivity. Qed.

Lemma bottom_rev (s : list StackItem) : bottom s = hd_error (rev s).
Proof.
  induction s as [|x [|y s] IH]; [reflexivity|reflexivity|].
  rewrite bottom_cons, IH. simpl rev.
  destruct (rev s ++ [y]) eqn:E; [|reflexivity].
  destruct (rev s); discriminate E.
Qed.

Lemma finish_bottom (tokens : list Token) (index : nat) (s : list StackItem) :
  finish tokens index s
  = match bottom s with
    | Some {| item := Nd n; item_length := len |} => Ok (n, index + len)
    | _ => Raise (ParserErr
                    (ParserError_new "expected expression" index tokens GOT))
    end.
Proof.
  unfold finish. rewrite bottom_rev.
  destruct (rev s) as [|[[t|n] len] r]; reflexivity.
Qed.

Section FirstToken.
Variable tokens : list Token.

Lemma steps_invariant (P : list StackItem -> nat -> Prop) :
  (forall s i s' i', P s i -> step tokens s i = Continue s' i' -> P s' i') ->
  forall s i s' i', steps tokens s i s' i' -> P s i -> P s' i'.
Proof.
  intros Hstep s i s' i' H. induction H as [|s i s1 i1 s2 i2 Hs _ IH];
    intro HP; [exact HP|].
  apply IH. eapply Hstep; eassumption.
Qed.

Lemma transition_bottom_node s i s' i' :
  transition tokens s i s' i' -> bottom_is_node s -> bottom_is_node s'.
Proof.
  unfold bottom_is_node. intros Ht H. destruct Ht.
  - destruct below as [|y below]; [contradiction|exact H].
  - destruct below as [|y below]; [contradiction|exact H].
  - destruct below as [|y below]; [contradiction|exact H].
  - destruct below as [|y below]; [exact I|exact H].
  - destruct stack as [|y stack]; [contradiction|exact H].
Qed.

Lemma transition_bottom_stuck s i s' i' :
  transition tokens s i s' i' -> bottom_is_stuck s -> bottom_is_stuck s'.
Proof.
  unfold bottom_is_stuck. intros Ht H. destruct Ht.
  - destruct below as [|y below]; [|exact H]. simpl in H.
    exfalso. rewrite H0 in H. destruct H as [H|H]; discriminate H.
  - destruct below as [|y below]; [|exact H]. simpl in H.
    exfalso. rewrite H0 in H. destruct H as [H|H]; discriminate H.
  - destruct below as [|y below]; [|exact H]. simpl in H.
    exfalso. rewrite H1 in H. destruct H as [H|H]; discriminate H.
  - destruct below as [|y below]; [contradiction|exact H].
  - destruct stack as [|y stack]; [contradiction|exact H].
Qed.

(** From an index within the list the loop stops normally. *)
Lemma loop_stops index :
  index <= length tokens ->
  exists final i,
    steps tokens [] index final i /\ step tokens final i = Break
    /\ parse_expression tokens index = finish tokens index final.
Proof.
  intro Hle.
  destruct (loop tokens (S (measure tokens [] index)) [] index)
    as [final|e|] eqn:Hl.
  - destruct (loop_Ok_steps tokens _ _ _ _ Hl) as (i & Hst & Hbr).
    exists final, i. split; [exact Hst|]. split; [exact Hbr|].
    apply (parse_expression_steps tokens index final i Hst Hbr).
  - exfalso.
    assert (parse_expression tokens index = Raise e) as Hp
      by (unfold parse_expression; rewrite Hl; reflexivity).
    destruct (loop_Crash tokens _ _ _ _ Hl) as (-> & _).
    apply parse_expression_Raise in Hp.
    destruct Hp as [Hp|[_ Hp]]; [discriminate Hp|lia].
  - exfalso. exact (parse_expression_loop_total tokens index Hl).
Qed.

Lemma parse_expression_starts_with_operand index t :
  nth_error tokens index = Some t -> is_atom t ->
  exists n j, parse_expression tokens index = Ok (n, j).
Proof.
  intros Hn Hatom.
  assert (index < length tokens) as Hlt by (apply nth_error_Some; congruence).
  destruct (loop_stops index) as (final & i & Hst & Hbr & Hp); [lia|].
  set (J := fun (s : list StackItem) (i : nat) =>
              (s = [] /\ i = index) \/ (s = [token_item t] /\ i = S index)
              \/ bottom_is_node s).
  assert (J final i) as HJ.
  { apply (steps_invariant J) with (s := []) (i := index);
      [|exact Hst|left; auto].
    intros s i0 s' i' HJ Hs.
    destruct HJ as [[-> ->]|[[-> ->]|Hb]].
    - unfold step in Hs. simpl in Hs. unfold shift in Hs.
      destruct (index =? length tokens) eqn:E;
        [apply Nat.eqb_eq in E; lia|].
      rewrite Hn in Hs.
      destruct (may_shift (kind t)); [|discriminate Hs].
      injection Hs as <- <-. right. left. auto.
    - right. right. unfold step in Hs. simpl in Hs.
      destruct Hatom as [Hk|Hk]; rewrite Hk in Hs; simpl in Hs;
        injection Hs as <- _; exact I.
    - right. right. apply step_Continue in Hs.
      eapply transition_bottom_node; eassumption. }
  rewrite Hp, finish_bottom.
  destruct HJ as [[-> ->]|[[-> ->]|Hb]].
  - exfalso. unfold step in Hbr. simpl in Hbr. unfold shift in Hbr.
    destruct (index =? length tokens) eqn:E; [apply Nat.eqb_eq in E; lia|].
    rewrite Hn in Hbr.
    assert (may_shift (kind t) = true) as Hm
      by (unfold may_shift; destruct Hatom as [-> | ->]; reflexivity).
    rewrite Hm in Hbr. discriminate Hbr.
  - exfalso. unfold step in Hbr. simpl in Hbr.
    destruct Hatom as [Hk|Hk]; rewrite Hk in Hbr; discriminate Hbr.
  - unfold bottom_is_node in Hb.
    destruct (bottom final) as [[[x|n] len]|]; try contradiction. eauto.
Qed.

Lemma parse_expression_cannot_start index :
  index <= length tokens -> cannot_start tokens index ->
  parse_expression tokens index
  = Raise (ParserErr (ParserError_new "expected expression" index tokens GOT)).
Proof.
  intros Hle Hno.
  destruct (loop_stops index Hle) as (final & i & Hst & Hbr & Hp).
  set (K := fun (s : list StackItem) (i : nat) =>
              (s = [] /\ i = index) \/ bottom_is_stuck s).
  assert (K final i) as HK.
  { apply (steps_invariant K) with (s := []) (i := index);
      [|exact Hst|left; auto].
    intros s i0 s' i' HK0 Hs. destruct HK0 as [[-> ->]|Hb].
    - right. unfold step in Hs. simpl in Hs. unfold shift in Hs.
      destruct (index =? length tokens); [discriminate Hs|].
      unfold cannot_start in Hno.
      destruct (nth_error tokens index) as [t|]; [|discriminate Hs].
      destruct (may_shift (kind t)) eqn:Hm; [|discriminate Hs].
      injection Hs as <- _. unfold bottom_is_stuck. simpl.
      destruct Hno as (H1 & H2 & H3). unfold may_shift in Hm.
      destruct (kind t); simpl in Hm; try discriminate Hm;
        try contradiction; auto.
    - right. apply step_Continue in Hs.
      eapply transition_bottom_stuck; eassumption. }
  rewrite Hp, finish_bottom. destruct HK as [[-> _]|Hb]; [reflexivity|].
  unfold bottom_is_stuck in Hb.
  destruct (bottom final) as [[[x|n] len]|]; try contradiction. reflexivity.
Qed.

Lemma parse_expression_beyond_end index :
  length tokens < index -> parse_expression tokens index = Raise IndexError.
Proof.
  intro Hlt. unfold parse_expression. cbn [loop].
  assert (step tokens [] index = Crash) as ->.
  { unfold step. simpl. unfold shift.
    destruct (index =? length tokens) eqn:E; [apply Nat.eqb_eq in E; lia|].
    assert (nth_error tokens index = None) as ->
      by (apply nth_error_None; lia).
    reflexivity. }
  reflexivity.
Qed.
End FirstToken.

(** X4: the first token decides most outcomes of [parse_expression].  From
    an index within the list, if the token there is a number or an
    identifier the call succeeds whatever follows; if the input ends there
    or the token is neither a number, an identifier nor an open parenthesis
    (a close parenthesis, an operator, any keyword or other punctuation),
    it raises "expected expression" anchored GOT at that index. *)
Theorem parse_expression_first_token :
  forall (tokens : list Token) (index : nat),
    (forall t, nth_error tokens index = Some t -> is_atom t ->
               exists n j, parse_expression tokens index = Ok (n, j))
    /\ (index <= length tokens -> cannot_start tokens index ->
        parse_expression tokens index
        = Raise (ParserErr
                   (ParserError_new "expected expression" index tokens GOT))).
Proof.
  intros tokens index. split.
  - intros t. apply parse_expression_starts_with_operand.
  - apply parse_expression_cannot_start.
Qed.

(** [a b c] succeeds, [+ a] and the empty input fail. *)
Lemma parse_expression_first_token_witness :
  (exists n j, parse_expression [t_id "a"; t_id "b"; t_id "c"] 0 = Ok (n, j))
  /\ parse_expression [t_plus; t_id "a"] 0
     = Raise (ParserErr
                (ParserError_new "expected expression" 0
                                 [t_plus; t_id "a"] GOT))
  /\ parse_expression [] 0
     = Raise (ParserErr (ParserError_new "expected expression" 0 [] GOT)).
Proof.
  split; [|split].
  - apply (proj1 (parse_expression_first_token
                    [t_id "a"; t_id "b"; t_id "c"] 0) (t_id "a")).
    + reflexivity.
    + right. reflexivity.
  - apply (proj2 (parse_expression_first_token [t_plus; t_id "a"] 0)).
    + simpl. lia.
    + unfold cannot_start. simpl. repeat split; discriminate.
  - apply (proj2 (parse_expression_first_token [] 0)).
    + simpl. lia.
    + exact I.
Defined.

(** X5: for a starting index that is not negative, [parse_expression]
    raises [IndexError] exactly when the index lies beyond the end of the
    token list; at the end of the list itself it raises its own diagnostic.
    Negative indices, which Python reads from the end of the list, are not
    parse positions and are left out: the index is an integer here and the
    statement assumes [0 <= index]. *)
Theorem parse_expression_index_error :
  forall (tokens : list Token) (index : Z),
    (0 <= index)%Z ->
    (parse_expression tokens (Z.to_nat index) = Raise IndexError
     <-> (Z.of_nat (length tokens) < index)%Z).
Proof.
  intros tokens index Hpos. split.
  - intro H. apply parse_expression_Raise in H.
    destruct H as [H|[_ H]]; [discriminate H|lia].
  - intro H. apply parse_expression_beyond_end. lia.
Qed.

(** Index 2 on a list of one token. *)
Lemma parse_expression_index_error_witness :
  (0 <= 2)%Z
  /\ parse_expression [t_id "a"] (Z.to_nat 2) = Raise IndexError.
Proof.
  assert (0 <= 2)%Z as Hpos by lia.
  split; [exact Hpos|].
  apply (proj2 (parse_expression_index_error [t_id "a"] 2%Z Hpos)).
  simpl. lia.
Defined.

(** ** Only diagnostics leave the parser *)

Section Diagnostics.
Variable tokens : list Token.

Lemma diagnostic_bind {A B : Type} (m : Outcome A) (k : A -> Outcome B) :
  diagnostic (length tokens) m ->
  (forall a, m = Ok a -> diagnostic (length tokens) (k a)) ->
  diagnostic (length tokens) (bind m k).
Proof.
  intros Hm Hk. destruct m as [a|[e| | |]|]; simpl in *;
    try contradiction; [apply Hk; reflexivity|exact Hm].
Qed.

Lemma diagnostic_match_token index k e :
  error_index e <= length tokens ->
  diagnostic (length tokens)
             (except_MatchError (match_token tokens index k) e).
Proof.
  intro He. destruct (match_token_outcomes tokens index k) as [-> | ->];
    simpl; [exact I|exact He].
Qed.

Lemma diagnostic_expect_semicolon index :
  index <= length tokens ->
  diagnostic (length tokens) (expect_semicolon tokens index).
Proof.
  intro Hle.
  destruct (expect_semicolon_cases tokens index) as [(t & _ & _ & ->)|[_ ->]];
    simpl; [exact I|exact Hle].
Qed.

Lemma diagnostic_parse_expression index :
  index <= length tokens ->
  diagnostic (length tokens) (parse_expression tokens index).
Proof.
  intro Hle.
  pose proof (parse_expression_not_OutOfFuel tokens index) as Hf.
  destruct (parse_expression tokens index) as [a|e|] eqn:Hp;
    [exact I| |contradiction].
  apply parse_expression_Raise in Hp.
  destruct Hp as [-> |[_ Hp]]; [exact Hle|lia].
Qed.

Lemma diagnostic_parse_return index :
  index <= length tokens ->
  diagnostic (length tokens) (parse_return tokens index).
Proof.
  intro Hle. unfold parse_return.
  apply diagnostic_bind; [apply diagnostic_match_token; exact Hle|].
  intros i1 H1. apply except_MatchError_Ok, match_token_Ok in H1.
  destruct H1 as (-> & Hlt & _).
  apply diagnostic_bind; [apply diagnostic_parse_expression; lia|].
  intros [e i2] H2. apply parse_expression_progress in H2.
  apply diagnostic_bind; [apply diagnostic_expect_semicolon; simpl; lia|].
  intros i3 _. exact I.
Qed.

Lemma diagnostic_parse_expr_statement index :
  index <= length tokens ->
  diagnostic (length tokens) (parse_expr_statement tokens index).
Proof.
  intro Hle. unfold parse_expr_statement.
  apply diagnostic_bind; [apply diagnostic_parse_expression; lia|].
  intros [e i2] H2. apply parse_expression_progress in H2.
  apply diagnostic_bind; [apply diagnostic_expect_semicolon; simpl; lia|].
  intros i3 _. exact I.
Qed.

Lemma diagnostic_parse_declaration index :
  index <= length tokens ->
  diagnostic (length tokens) (parse_declaration tokens index).
Proof.
  intro Hle. unfold parse_declaration.
  apply diagnostic_bind; [apply diagnostic_match_token; exact Hle|].
  intros i1 H1. apply except_MatchError_Ok, match_token_Ok in H1.
  destruct H1 as (-> & Hlt & _).
  apply diagnostic_bind; [apply diagnostic_match_token; simpl; lia|].
  intros i2 H2. apply except_MatchError_Ok, match_token_Ok in H2.
  destruct H2 as (-> & Hlt2 & name & Hname & _).
  replace (S (S index) - 1) with (S index) by lia. rewrite Hname.
  cbn [bind].
  apply diagnostic_bind; [apply diagnostic_expect_semicolon; lia|].
  intros i3 _. exact I.
Qed.

Lemma log_within_log_error e self :
  error_index e <= length tokens ->
  log_within (length tokens) self ->
  log_within (length tokens) (log_error e self).
Proof.
  intros He Hs. unfold log_within, log_error. simpl.
  apply Forall_app. split; [exact Hs|]. constructor; [exact He|constructor].
Qed.

Lemma diagnostic_parse_statement index self :
  index <= length tokens ->
  diagnostic (length tokens) (fst (parse_statement tokens index self)).
Proof.
  intros Hle. unfold parse_statement.
  pose proof (diagnostic_parse_return index Hle) as Hr.
  destruct (parse_return tokens index) as [a|[e| | |]|]; simpl in *;
    try contradiction; [exact I|].
  apply diagnostic_parse_expr_statement; exact Hle.
Qed.

Lemma log_within_parse_statement index self :
  index <= length tokens ->
  log_within (length tokens) self ->
  log_within (length tokens) (snd (parse_statement tokens index self)).
Proof.
  intros Hle Hlog. unfold parse_statement.
  pose proof (diagnostic_parse_return index Hle) as Hr.
  destruct (parse_return tokens index) as [a|[e| | |]|]; simpl in *;
    try contradiction; try exact Hlog.
  apply log_within_log_error; assumption.
Qed.

(** The loop of [parse_main] never raises: it returns the index at which
    neither a statement nor a declaration starts. *)
Lemma main_loop_returns (fuel : nat) : forall index nodes self,
  index <= length tokens ->
  length tokens - index < fuel ->
  exists nodes' j self',
    main_loop tokens fuel index nodes self = (Ok (nodes', j), self')
    /\ index <= j /\ j <= length tokens.
Proof.
  induction fuel as [|fuel IH]; intros index nodes self Hle Hf; [lia|].
  simpl.
  pose proof (diagnostic_parse_statement index self Hle) as Hd.
  destruct (parse_statement tokens index self)
    as [[[n1 j1]|[e| | |]|] self1] eqn:Hst; simpl in Hd;
    try contradiction.
  - apply parse_statement_progress in Hst.
    destruct (IH j1 (nodes ++ [n1]) self1) as (nodes' & j & self' & Hm & H1 & H2);
      [lia|lia|].
    exists nodes', j, self'. repeat split; try assumption. lia.
  - pose proof (diagnostic_parse_declaration index Hle) as Hdd.
    destruct (parse_declaration tokens index) as [[n1 j1]|[e'| | |]|] eqn:Hdecl;
      simpl in Hdd; try contradiction.
    + apply parse_declaration_progress in Hdecl.
      destruct (IH j1 (nodes ++ [n1]) (log_error e self1))
        as (nodes' & j & self' & Hm & H1 & H2); [lia|lia|].
      exists nodes', j, self'. repeat split; try assumption. lia.
    + exists nodes, index, (log_error e' (log_error e self1)).
      repeat split; lia.
Qed.

Lemma log_within_main_loop (fuel : nat) : forall index nodes self,
  index <= length tokens ->
  log_within (length tokens) self ->
  log_within (length tokens) (snd (main_loop tokens fuel index nodes self)).
Proof.
  induction fuel as [|fuel IH]; intros index nodes self Hle Hlog;
    [exact Hlog|].
  simpl.
  pose proof (diagnostic_parse_statement index self Hle) as Hd.
  pose proof (log_within_parse_statement index self Hle Hlog) as Hl.
  destruct (parse_statement tokens index self)
    as [[[n1 j1]|[e| | |]|] self1] eqn:Hst; simpl in Hd, Hl;
    try contradiction; try exact Hl.
  - apply parse_statement_progress in Hst. apply IH; [lia|exact Hl].
  - pose proof (diagnostic_parse_declaration index Hle) as Hdd.
    pose proof (log_within_log_error e self1 Hd Hl) as Hl2.
    destruct (parse_declaration tokens index) as [[n1 j1]|[e'| | |]|] eqn:Hdecl;
      simpl in Hdd; try contradiction; simpl.
    + apply parse_declaration_progress in Hdecl. apply IH; [lia|exact Hl2].
    + apply log_within_log_error; assumption.
Qed.

(** The two ways [parse_main] fails. *)
Lemma parse_main_Raise index self x self' :
  parse_main tokens index self = (Raise x, self') ->
  (x = ParserErr (ParserError_new "expected main function starting" index
                                  tokens AT)
   /\ self' = self
   /\ kinds_at tokens index (length kinds_before) <> kinds_before)
  \/ (exists j,
        x = ParserErr (ParserError_new "expected closing brace" j tokens GOT)
        /\ index + length kinds_before <= j /\ j <= length tokens
        /\ kinds_at tokens index (length kinds_before) = kinds_before
        /\ (forall t, nth_error tokens j = Some t ->
                      kind t <> token_kinds.close_brack)).
Proof.
  intros H. unfold parse_main in H.
  destruct (match_tokens_cases tokens index kinds_before)
    as [[Hk Hm]|[Hk Hm]]; rewrite Hm in H; cbn [except_MatchError] in H.
  - right.
    pose proof (match_tokens_Ok tokens index kinds_before _ Hm)
      as (_ & _ & Hlen).
    assert (length kinds_before = 5) as Hfive by reflexivity.
    destruct (main_loop_returns
                (S (length tokens - (index + length kinds_before)))
                (index + length kinds_before) [] self)
      as (nodes & j & self1 & Hl & H1 & H2); [lia|lia|].
    rewrite Hl in H.
    destruct (match_token_cases tokens j token_kinds.close_brack)
      as [(t & _ & _ & Hc)|[Hno Hc]]; rewrite Hc in H;
      cbn [except_MatchError bind] in H; [discriminate H|].
    injection H as <- <-. exists j. repeat split; assumption.
  - left. injection H as <- <-. repeat split. exact Hk.
Qed.

Lemma log_within_parse_main index self :
  log_within (length tokens) self ->
  log_within (length tokens) (snd (parse_main tokens index self)).
Proof.
  intro Hlog. unfold parse_main.
  destruct (match_tokens_cases tokens index kinds_before)
    as [[Hk Hm]|[Hk Hm]]; rewrite Hm; cbn [except_MatchError];
    [|exact Hlog].
  pose proof (match_tokens_Ok tokens index kinds_before _ Hm)
    as (_ & _ & Hlen).
  assert (length kinds_before = 5) as Hfive by reflexivity.
  assert (index + length kinds_before <= length tokens) as Hle by lia.
  pose proof (log_within_main_loop
                (S (length tokens - (index + length kinds_before)))
                (index + length kinds_before) [] self Hle Hlog) as Hl.
  destruct (main_loop tokens _ _ [] self) as [[[nodes j]|e|] self1];
    exact Hl.
Qed.

Lemma diagnostic_parse_main index self :
  index <= length tokens ->
  diagnostic (length tokens) (fst (parse_main tokens index self)).
Proof.
  intros Hle.
  pose proof (parse_main_total tokens index self) as Htotal.
  destruct (parse_main tokens index self) as [[[n j]|x|] self'] eqn:Hm;
    cbn [fst snd] in *; [exact I| |contradiction].
  destruct (parse_main_Raise index self x self' Hm)
    as [(-> & _ & _)|(j & -> & H1 & H2 & _ & _)]; simpl; assumption.
Qed.

Lemma newest_max_In l e : newest_max l e -> In e l.
Proof.
  intros (older & newer & -> & _). apply in_or_app. right. left. reflexivity.
Qed.

Lemma diagnostic_parse : diagnostic (length tokens) (fst (parse tokens)).
Proof.
  assert (log_within (length tokens) init_state) as Hinit by constructor.
  pose proof (diagnostic_parse_main 0 init_state (Nat.le_0_l _)) as Hd.
  pose proof (log_within_parse_main 0 init_state Hinit) as Hlog.
  pose proof (tracks_parse_main tokens 0 init_state tracks_init) as Ht.
  unfold parse.
  destruct (parse_main tokens 0 init_state) as [[[n j]|[e| | |]|] self] eqn:Hm;
    cbn [fst snd] in *; try contradiction.
  - destruct (skipn j tokens) eqn:Hs; cbn [fst]; [exact I|].
    apply parse_main_progress in Hm. simpl. lia.
  - pose proof (tracks_log_error e self Ht) as Ht'.
    pose proof (log_within_log_error e self Hd Hlog) as Hlog'.
    unfold tracks in Ht'.
    destruct (best_error (log_error e self)) as [best|] eqn:Hb.
    + simpl. apply newest_max_In in Ht'.
      unfold log_within in Hlog'. rewrite Forall_forall in Hlog'.
      apply Hlog'. exact Ht'.
    + destruct (log_error_some e self) as (b & Hsome). congruence.
Qed.
End Diagnostics.

(** X6: the only exception [parse] raises is [ParserError]: on every token
    list it returns a tree or raises a diagnostic, never the internal
    [MatchError], an [IndexError] or a [TypeError], and the diagnostic is
    anchored at an index between 0 and [len(tokens)]. *)
Theorem parse_raises_only_diagnostics :
  forall tokens : list Token,
    (exists node, fst (parse tokens) = Ok node)
    \/ (exists e, fst (parse tokens) = Raise (ParserErr e)
                  /\ error_index e <= length tokens).
Proof.
  intro tokens. pose proof (diagnostic_parse tokens) as H.
  destruct (fst (parse tokens)) as [node|[e| | |]|]; simpl in H;
    try contradiction; [left|right]; eauto.
Qed.

(** X7: [parse_main] fails in two ways only.  When the five opening kinds
    do not match, it raises "expected main function starting" anchored AT
    the starting index and logs nothing.  Otherwise the statement loop
    always comes to an end, and the error is "expected closing brace"
    anchored GOT at the index where the loop stopped, a position within the
    list that does not hold a closing brace.  No error of a statement or
    declaration is ever raised by [parse_main] itself; those are only
    logged. *)
Theorem parse_main_failures :
  forall (tokens : list Token) (index : nat) (self self' : ParserState)
         (x : Exception),
    parse_main tokens index self = (Raise x, self') ->
    (x = ParserErr (ParserError_new "expected main function starting" index
                                    tokens AT)
     /\ self' = self
     /\ kinds_at tokens index (length kinds_before) <> kinds_before)
    \/ (exists j,
          x = ParserErr (ParserError_new "expected closing brace" j tokens GOT)
          /\ index + length kinds_before <= j /\ j <= length tokens
          /\ kinds_at tokens index (length kinds_before) = kinds_before
          /\ (forall t, nth_error tokens j = Some t ->
                        kind t <> token_kinds.close_brack)).
Proof.
  intros tokens index self self' x H.
  destruct (parse_main_Raise tokens index self x self' H)
    as [Hheader|(j & Hbrace)].
  - left. exact Hheader.
  - right. exists j. exact Hbrace.
Qed.

Lemma parse_main_failures_witness :
  (ParserErr (ParserError_new "expected closing brace" 5 missing_semicolon GOT)
   = ParserErr (ParserError_new "expected main function starting" 0
                                missing_semicolon AT)
   /\ snd (parse_main missing_semicolon 0 init_state) = init_state
   /\ kinds_at missing_semicolon 0 (length kinds_before) <> kinds_before)
  \/ (exists j,
        ParserErr (ParserError_new "expected closing brace" 5
                                   missing_semicolon GOT)
        = ParserErr (ParserError_new "expected closing brace" j
                                     missing_semicolon GOT)
        /\ 0 + length kinds_before <= j /\ j <= length missing_semicolon
        /\ kinds_at missing_semicolon 0 (length kinds_before) = kinds_before
        /\ (forall t, nth_error missing_semicolon j = Some t ->
                      kind t <> token_kinds.close_brack)).
Proof.
  apply (parse_main_failures missing_semicolon 0 init_state).
  vm_compute. reflexivity.
Defined.

(** ** Single-token matchers and the declaration production *)

Lemma match_token_has_kind (tokens : list Token) (index : nat) (k : TokenKind) :
  (has_kind tokens index k /\ match_token tokens index k = Ok (S index))
  \/ (~ has_kind tokens index k
      /\ match_token tokens index k = Raise MatchError).
Proof.
  destruct (match_token_cases tokens index k)
    as [(t & Hn & Hk & Hm)|[Hno Hm]].
  - left. split; [exists t; auto|exact Hm].
  - right. split; [|exact Hm]. intros (t & Hn & Hk). exact (Hno t Hn Hk).
Qed.

(** X8: the single-token matchers.  [match_token] returns [index + 1]
    exactly when a token of the expected kind stands at [index], and raises
    [MatchError] otherwise, also at and beyond the end of the list.
    [expect_semicolon] returns [index + 1] exactly when a semicolon stands
    at [index]; in every other case, the end of the input included, it
    raises "expected semicolon" anchored AFTER at [index], never a
    [MatchError]. *)
Theorem single_token_matchers :
  forall (tokens : list Token) (index : nat) (k : TokenKind),
    (match_token tokens index k = Ok (S index) <-> has_kind tokens index k)
    /\ (~ has_kind tokens index k ->
        match_token tokens index k = Raise MatchError)
    /\ (expect_semicolon tokens index = Ok (S index)
        <-> has_kind tokens index token_kinds.semicolon)
    /\ (~ has_kind tokens index token_kinds.semicolon ->
        expect_semicolon tokens index
        = Raise (ParserErr
                   (ParserError_new "expected semicolon" index tokens AFTER))).
Proof.
  intros tokens index k. split; [|split; [|split]].
  - destruct (match_token_has_kind tokens index k) as [[Hh Hm]|[Hh Hm]];
      rewrite Hm; split; intro H; try assumption; try reflexivity.
    + discriminate H.
    + contradiction.
  - intro Hno.
    destruct (match_token_has_kind tokens index k) as [[Hh _]|[_ Hm]];
      [contradiction|exact Hm].
  - unfold expect_semicolon.
    destruct (match_token_has_kind tokens index token_kinds.semicolon)
      as [[Hh Hm]|[Hh Hm]]; rewrite Hm; split; intro H;
      try assumption; try reflexivity.
    + discriminate H.
    + contradiction.
  - intro Hno. unfold expect_semicolon.
    destruct (match_token_has_kind tokens index token_kinds.semicolon)
      as [[Hh _]|[_ Hm]]; [contradiction|rewrite Hm; reflexivity].
Qed.

Lemma single_token_matchers_witness :
  match_token [t_int] 1 token_kinds.int_kw = Raise MatchError
  /\ expect_semicolon [t_return; t_num "4"] 2
     = Raise (ParserErr
                (ParserError_new "expected semicolon" 2
                                 [t_return; t_num "4"] AFTER)).
Proof.
  split.
  - apply (proj1 (proj2 (single_token_matchers [t_int] 1 token_kinds.int_kw))).
    intros (t & H & _). discriminate H.
  - apply (proj2 (proj2 (proj2 (single_token_matchers
                                  [t_return; t_num "4"] 2
                                  token_kinds.semicolon)))).
    intros (t & H & _). discriminate H.
Defined.

Section DeclarationContract.
Variable tokens : list Token.
Variable index : nat.

Lemma match_token_missing k :
  ~ has_kind tokens index k -> match_token tokens index k = Raise MatchError.
Proof.
  intro Hno.
  destruct (match_token_has_kind tokens index k) as [[Hh _]|[_ Hm]];
    [contradiction|exact Hm].
Qed.

Lemma parse_declaration_no_type :
  ~ has_kind tokens index token_kinds.int_kw ->
  parse_declaration tokens index
  = Raise (ParserErr (ParserError_new "expected type name" index tokens GOT)).
Proof.
  intro Hno. unfold parse_declaration.
  rewrite (match_token_missing _ Hno). reflexivity.
Qed.
End DeclarationContract.

(** X9: the declaration production, case by case.  Without the type keyword
    at [index] it raises "expected type name" anchored GOT at [index]; with
    it but without an identifier next, "expected identifier" anchored AFTER
    at [index + 1]; with both but without a semicolon, "expected semicolon"
    anchored AFTER at [index + 2]; with all three it returns the
    declaration of the identifier token and [index + 3]. *)
Theorem parse_declaration_contract :
  forall (tokens : list Token) (index : nat),
    (~ has_kind tokens index token_kinds.int_kw ->
     parse_declaration tokens index
     = Raise (ParserErr
                (ParserError_new "expected type name" index tokens GOT)))
    /\ (has_kind tokens index token_kinds.int_kw ->
        ~ has_kind tokens (S index) token_kinds.identifier ->
        parse_declaration tokens index
        = Raise (ParserErr
                   (ParserError_new "expected identifier" (S index) tokens
                                    AFTER)))
    /\ (forall name,
          has_kind tokens index token_kinds.int_kw ->
          nth_error tokens (S index) = Some name ->
          kind name = token_kinds.identifier ->
          (~ has_kind tokens (S (S index)) token_kinds.semicolon ->
           parse_declaration tokens index
           = Raise (ParserErr
                      (ParserError_new "expected semicolon" (S (S index))
                                       tokens AFTER)))
          /\ (has_kind tokens (S (S index)) token_kinds.semicolon ->
              parse_declaration tokens index
              = Ok (ast.DeclarationNode name, S (S (S index))))).
Proof.
  intros tokens index. split; [|split].
  - apply parse_declaration_no_type.
  - intros (ty & Hty & Htyk) Hno. unfold parse_declaration.
    rewrite (match_token_there tokens index ty _ Hty Htyk).
    cbn [except_MatchError bind].
    rewrite (match_token_missing tokens (S index) _ Hno). reflexivity.
  - intros name (ty & Hty & Htyk) Hname Hnamek.
    assert (parse_declaration tokens index
            = (index3 <- expect_semicolon tokens (S (S index)) ;;
               Ok (ast.DeclarationNode name, index3))) as Hd.
    { unfold parse_declaration.
      rewrite (match_token_there tokens index ty _ Hty Htyk).
      cbn [except_MatchError bind].
      rewrite (match_token_there tokens (S index) name _ Hname Hnamek).
      cbn [except_MatchError bind].
      replace (S (S index) - 1) with (S index) by lia.
      rewrite Hname. reflexivity. }
    rewrite Hd. split.
    + intro Hno.
      destruct (expect_semicolon_cases tokens (S (S index)))
        as [(s & Hs & Hsk & _)|[_ Hm]]; [|rewrite Hm; reflexivity].
      exfalso. apply Hno. exists s. auto.
    + intros (s & Hs & Hsk).
      rewrite (expect_semicolon_there tokens _ s Hs Hsk). reflexivity.
Qed.

(** [int x] at the end of the input: the semicolon is missed after the
    identifier. *)
Lemma parse_declaration_contract_witness :
  parse_declaration [t_int; t_id "x"] 0
  = Raise (ParserErr
             (ParserError_new "expected semicolon" 2 [t_int; t_id "x"] AFTER)).
Proof.
  apply (proj1 (proj2 (proj2 (parse_declaration_contract [t_int; t_id "x"] 0))
                  (t_id "x") (ex_intro _ t_int (conj eq_refl eq_refl))
                  eq_refl eq_refl)).
  intros (t & H & _). discriminate H.
Defined.

(** ** The statement production and the log *)

(** X10: what [parse_statement] raises is never the error of the return
    production.  From an index within the list, when it fails the return
    production has failed with a diagnostic, exactly that diagnostic has
    been logged, and the error raised is the one of the expression
    statement: "expected expression" anchored GOT at the starting index, or
    "expected semicolon" anchored AFTER at a later index.  In particular a
    statement that starts with the return keyword and fails is reported as
    "expected expression" at the keyword. *)
Theorem parse_statement_failures :
  forall (tokens : list Token) (index : nat) (self self' : ParserState)
         (x : Exception),
    index <= length tokens ->
    parse_statement tokens index self = (Raise x, self') ->
    (exists e, parse_return tokens index = Raise (ParserErr e)
               /\ self' = log_error e self)
    /\ (x = ParserErr (ParserError_new "expected expression" index tokens GOT)
        \/ exists j,
             index < j /\ j <= length tokens
             /\ x = ParserErr
                      (ParserError_new "expected semicolon" j tokens AFTER))
    /\ (has_kind tokens index token_kinds.return_kw ->
        x = ParserErr (ParserError_new "expected expression" index tokens GOT)).
Proof.
  intros tokens index self self' x Hle H. unfold parse_statement in H.
  pose proof (diagnostic_parse_return tokens index Hle) as Hd.
  destruct (parse_return tokens index) as [a|[e| | |]|] eqn:Hr;
    simpl in Hd; try contradiction; [discriminate H|].
  injection H as Hx <-. split; [exists e; auto|].
  unfold parse_expr_statement in Hx.
  destruct (parse_expression tokens index) as [[n j]|y|] eqn:Hp;
    cbn [bind fst snd] in Hx.
  - pose proof (parse_expression_progress tokens index n j Hp) as [Hlt Hj].
    split.
    + right. exists j.
      destruct (expect_semicolon_cases tokens j) as [(s & _ & _ & Hs)|[_ Hs]];
        rewrite Hs in Hx; cbn [bind] in Hx; [discriminate Hx|].
      injection Hx as <-. auto.
    + intros (kw & Hkw & Hkind). exfalso.
      assert (cannot_start tokens index) as Hc.
      { unfold cannot_start. rewrite Hkw, Hkind.
        repeat split; discriminate. }
      rewrite (parse_expression_cannot_start tokens index Hle Hc) in Hp.
      discriminate Hp.
  - injection Hx as <-. apply parse_expression_Raise in Hp.
    destruct Hp as [-> |[_ Hp]]; [|lia]. split; [left|intros _]; reflexivity.
  - exfalso. exact (parse_expression_not_OutOfFuel tokens index Hp).
Qed.

(** [return 4 }]: the missing semicolon is logged, "expected expression" at
    the keyword is raised. *)
Lemma parse_statement_failures_witness :
  (exists e, parse_return [t_return; t_num "4"; t_rbrace] 0
             = Raise (ParserErr e)
             /\ snd (parse_statement [t_return; t_num "4"; t_rbrace] 0
                                     init_state)
                = log_error e init_state)
  /\ (ParserErr (ParserError_new "expected expression" 0
                                 [t_return; t_num "4"; t_rbrace] GOT)
      = ParserErr (ParserError_new "expected expression" 0
                                   [t_return; t_num "4"; t_rbrace] GOT)
      \/ exists j,
           0 < j /\ j <= length [t_return; t_num "4"; t_rbrace]
           /\ ParserErr (ParserError_new "expected expression" 0
                                         [t_return; t_num "4"; t_rbrace] GOT)
              = ParserErr (ParserError_new "expected semicolon" j
                                           [t_return; t_num "4"; t_rbrace]
                                           AFTER))
  /\ (has_kind [t_return; t_num "4"; t_rbrace] 0 token_kinds.return_kw ->
      ParserErr (ParserError_new "expected expression" 0
                                 [t_return; t_num "4"; t_rbrace] GOT)
      = ParserErr (ParserError_new "expected expression" 0
                                   [t_return; t_num "4"; t_rbrace] GOT)).
Proof.
  apply (parse_statement_failures [t_return; t_num "4"; t_rbrace] 0
                                  init_state).
  - simpl. lia.
  - vm_compute. reflexivity.
Defined.

Lemma continues_refl self : continues self self.
Proof.
  split; [exists []; rewrite app_nil_r; reflexivity|].
  intros b Hb. exists b. auto.
Qed.

Lemma continues_trans s1 s2 s3 :
  continues s1 s2 -> continues s2 s3 -> continues s1 s3.
Proof.
  intros [[m1 H1] B1] [[m2 H2] B2]. split.
  - exists (m1 ++ m2). rewrite H2, H1, app_assoc. reflexivity.
  - intros b Hb. destruct (B1 b Hb) as (b' & Hb' & Hle).
    destruct (B2 b' Hb') as (b'' & Hb'' & Hle').
    exists b''. split; [exact Hb''|lia].
Qed.

Lemma continues_log_error e self : continues self (log_error e self).
Proof.
  split; [exists [e]; reflexivity|].
  intros b Hb. unfold log_error. simpl. rewrite Hb.
  destruct (amount_parsed b <=? amount_parsed e) eqn:E.
  - apply Nat.leb_le in E. exists e. auto.
  - exists b. auto.
Qed.

Section LogGrows.
Variable tokens : list Token.

Lemma continues_parse_statement index self :
  continues self (snd (parse_statement tokens index self)).
Proof.
  unfold parse_statement.
  destruct (parse_return tokens index) as [a|[e| | |]|]; simpl;
    try apply continues_refl.
  apply continues_log_error.
Qed.

Lemma continues_main_loop (fuel : nat) : forall index nodes self,
  continues self (snd (main_loop tokens fuel index nodes self)).
Proof.
  induction fuel as [|fuel IH]; intros index nodes self;
    [apply continues_refl|].
  simpl. pose proof (continues_parse_statement index self) as Hs.
  destruct (parse_statement tokens index self)
    as [[[n1 j1]|[e| | |]|] self1]; simpl in Hs; try exact Hs.
  - eapply continues_trans; [exact Hs|apply IH].
  - assert (continues self (log_error e self1)) as Hs2
      by (eapply continues_trans; [exact Hs|apply continues_log_error]).
    destruct (parse_declaration tokens index) as [[n1 j1]|[e'| | |]|]; simpl;
      try exact Hs2.
    + eapply continues_trans; [exact Hs2|apply IH].
    + eapply continues_trans; [exact Hs2|apply continues_log_error].
Qed.

Lemma continues_parse_main index self :
  continues self (snd (parse_main tokens index self)).
Proof.
  unfold parse_main.
  destruct (except_MatchError (match_tokens tokens index kinds_before) _)
    as [i1|e|]; try apply continues_refl.
  pose proof (continues_main_loop (S (length tokens - i1)) i1 [] self) as Hl.
  destruct (main_loop tokens (S (length tokens - i1)) i1 [] self)
    as [[[nodes i2]|e|] self1]; exact Hl.
Qed.
End LogGrows.

(** X11: no production forgets or lowers the best error.  Across
    [log_error], [parse_statement] and [parse_main] the history of logged
    errors only grows, and a best error once held is still held afterwards
    or has been replaced by an error that parsed at least as much. *)
Theorem best_error_never_lowered :
  forall (tokens : list Token) (index : nat) (self : ParserState)
         (e : ParserError),
    continues self (log_error e self)
    /\ continues self (snd (parse_statement tokens index self))
    /\ continues self (snd (parse_main tokens index self)).
Proof.
  intros tokens index self e. split; [|split].
  - apply continues_log_error.
  - apply continues_parse_statement.
  - apply continues_parse_main.
Qed.

(** ** Tokens before the starting index *)

Section Prefix.
Variable pre tokens : list Token.

Lemma nth_error_prefix i :
  nth_error (pre ++ tokens) (length pre + i) = nth_error tokens i.
Proof.
  rewrite nth_error_app2 by lia. f_equal. lia.
Qed.

Lemma reduce_binary_prefix stack i :
  reduce_binary (pre ++ tokens) stack (length pre + i)
  = reduce_binary tokens stack i.
Proof.
  unfold reduce_binary, next_is_higher, both_assignment.
  rewrite nth_error_prefix. reflexivity.
Qed.

Lemma shift_prefix stack i :
  shift (pre ++ tokens) stack (length pre + i)
  = match shift tokens stack i with
    | Continue s i' => Continue s (length pre + i')
    | r => r
    end.
Proof.
  unfold shift. rewrite nth_error_prefix, length_app.
  destruct (Nat.eqb_spec i (length tokens)) as [->|Hne].
  - rewrite Nat.eqb_refl. reflexivity.
  - destruct (Nat.eqb_spec (length pre + i) (length pre + length tokens));
      [lia|].
    destruct (nth_error tokens i) as [t|]; [|reflexivity].
    destruct (may_shift (kind t)); [|reflexivity].
    rewrite Nat.add_succ_r. reflexivity.
Qed.

Lemma step_prefix stack i :
  step (pre ++ tokens) stack (length pre + i)
  = match step tokens stack i with
    | Continue s i' => Continue s (length pre + i')
    | r => r
    end.
Proof.
  unfold step. rewrite reduce_binary_prefix.
  destruct (reduce_number stack); [reflexivity|].
  destruct (reduce_identifier stack); [reflexivity|].
  destruct (reduce_paren stack); [reflexivity|].
  destruct (reduce_binary tokens stack i); [reflexivity|].
  apply shift_prefix.
Qed.

Lemma loop_prefix (fuel : nat) : forall stack i,
  loop (pre ++ tokens) fuel stack (length pre + i) = loop tokens fuel stack i.
Proof.
  induction fuel as [|fuel IH]; intros stack i; [reflexivity|].
  cbn [loop]. rewrite step_prefix.
  destruct (step tokens stack i) as [s i'| |]; [apply IH|reflexivity..].
Qed.

Lemma measure_prefix index :
  measure (pre ++ tokens) [] (length pre + index) = measure tokens [] index.
Proof.
  unfold measure. rewrite length_app.
  replace (length pre + length tokens - (length pre + index))
    with (length tokens - index) by lia.
  reflexivity.
Qed.
End Prefix.

(** X12: [parse_expression] reads no token before its starting index: with
    any tokens put in front of the list and the index moved accordingly it
    builds the same tree, returns the index moved by the same amount, and
    fails in the same way at the moved index. *)
Theorem parse_expression_ignores_prefix :
  forall (pre tokens : list Token) (index : nat),
    parse_expression (pre ++ tokens) (length pre + index)
    = match parse_expression tokens index with
      | Ok (n, j) => Ok (n, length pre + j)
      | Raise (ParserErr _) =>
          Raise (ParserErr
                   (ParserError_new "expected expression" (length pre + index)
                                    (pre ++ tokens) GOT))
      | r => r
      end.
Proof.
  intros pre tokens index. unfold parse_expression.
  rewrite measure_prefix, loop_prefix.
  destruct (loop tokens (S (measure tokens [] index)) [] index)
    as [final|e|] eqn:Hl; [| |reflexivity].
  - unfold finish.
    destruct (rev final) as [|[[t|n] len] r]; try reflexivity.
    rewrite Nat.add_assoc. reflexivity.
  - destruct (loop_Crash tokens _ _ _ _ Hl) as (-> & _). reflexivity.
Qed.

(** ** Tokens after the first one that cannot be shifted *)

Section Suffix.
Variable l : list Token.
Variable stop : Token.
Variable rest : list Token.
Hypothesis stop_stops : may_shift (kind stop) = false.

Lemma stop_not_operator : in_binary_operators (kind stop) = false.
Proof.
  unfold may_shift in stop_stops.
  apply orb_false_elim in stop_stops. apply stop_stops.
Qed.

Lemma nth_error_before_stop i :
  i < length l -> nth_error (l ++ stop :: rest) i = nth_error l i.
Proof. intro H. apply nth_error_app1. exact H. Qed.

Lemma nth_error_at_stop :
  nth_error (l ++ stop :: rest) (length l) = Some stop.
Proof. rewrite nth_error_app2, Nat.sub_diag by lia. reflexivity. Qed.

Lemma reduce_binary_suffix stack i :
  i <= length l ->
  reduce_binary (l ++ stop :: rest) stack i = reduce_binary l stack i.
Proof.
  intro Hle. unfold reduce_binary, next_is_higher, both_assignment.
  destruct (Nat.eq_dec i (length l)) as [->|Hne].
  - rewrite nth_error_at_stop.
    assert (nth_error l (length l) = None) as ->
      by (apply nth_error_None; lia).
    pose proof stop_not_operator as Hno. unfold in_binary_operators in Hno.
    assert (assignment_operators (kind stop) = false) as Ha
      by (destruct (kind stop); try reflexivity; discriminate Hno).
    destruct stack as [|[[?|r] rlen] [|[[op|?] oplen] [|[[?|l0] llen] below]]];
      try reflexivity.
    rewrite Ha.
    destruct (binary_operators (kind stop)); [discriminate Hno|].
    rewrite andb_false_r. reflexivity.
  - rewrite nth_error_before_stop by lia. reflexivity.
Qed.

Lemma shift_suffix stack i :
  i <= length l ->
  shift (l ++ stop :: rest) stack i = shift l stack i.
Proof.
  intro Hle. unfold shift. rewrite length_app. simpl length.
  destruct (Nat.eqb_spec i (length l + S (length rest))) as [E|_]; [lia|].
  destruct (Nat.eqb_spec i (length l)) as [->|Hne].
  - rewrite nth_error_at_stop, stop_stops. reflexivity.
  - rewrite nth_error_before_stop by lia. reflexivity.
Qed.

Lemma step_suffix stack i :
  i <= length l ->
  step (l ++ stop :: rest) stack i = step l stack i.
Proof.
  intro Hle. unfold step.
  rewrite reduce_binary_suffix, shift_suffix by exact Hle. reflexivity.
Qed.

Lemma steps_suffix s i s' i' :
  steps l s i s' i' -> i <= length l ->
  steps (l ++ stop :: rest) s i s' i' /\ i' <= length l.
Proof.
  induction 1 as [|s i s1 i1 s2 i2 Hs _ IH]; intro Hle.
  - split; [apply steps_refl|exact Hle].
  - assert (i1 <= length l) as Hle1.
    { apply step_Continue, transition_progress in Hs.
      destruct Hs as [(-> & ? & _)|[(-> & _)|(-> & _)]]; lia. }
    destruct (IH Hle1) as [Hst Hle2]. split; [|exact Hle2].
    eapply steps_step; [|exact Hst]. rewrite step_suffix by exact Hle.
    exact Hs.
Qed.
End Suffix.

(** X13: [parse_expression] reads nothing beyond the first token that
    cannot appear in an expression.  Started within [l], on [l] followed by
    such a token and anything else it behaves as on [l] alone: the same
    tree and index, or the same failure. *)
Theorem parse_expression_ignores_rest :
  forall (l : list Token) (stop : Token) (rest : list Token) (index : nat),
    may_shift (kind stop) = false ->
    index <= length l ->
    parse_expression (l ++ stop :: rest) index
    = match parse_expression l index with
      | Raise (ParserErr _) =>
          Raise (ParserErr
                   (ParserError_new "expected expression" index
                                    (l ++ stop :: rest) GOT))
      | r => r
      end.
Proof.
  intros l stop rest index Hstop Hle.
  destruct (loop_stops l index Hle) as (final & i & Hst & Hbr & Hp).
  destruct (steps_suffix l stop rest Hstop _ _ _ _ Hst Hle) as [Hst' Hi].
  assert (step (l ++ stop :: rest) final i = Break) as Hbr'
    by (rewrite step_suffix; assumption).
  rewrite (parse_expression_steps _ index final i Hst' Hbr'), Hp.
  unfold finish. destruct (rev final) as [|[[t|n] len] r]; reflexivity.
Qed.

Lemma parse_expression_ignores_rest_witness :
  parse_expression ([t_id "a"; t_plus; t_id "b"]
                      ++ t_semi :: [t_rbrace; t_plus]) 0
  = match parse_expression [t_id "a"; t_plus; t_id "b"] 0 with
    | Raise (ParserErr _) =>
        Raise (ParserErr
                 (ParserError_new "expected expression" 0
                    ([t_id "a"; t_plus; t_id "b"]
                       ++ t_semi :: [t_rbrace; t_plus]) GOT))
    | r => r
    end.
Proof.
  apply (parse_expression_ignores_rest
           [t_id "a"; t_plus; t_id "b"] t_semi [t_rbrace; t_plus] 0).
  - reflexivity.
  - simpl. lia.
Defined.

(** ** Parentheses *)

(** X14: parentheses group.  For every well-formed expression [e], the
    tree of [( e )] is the parenthesised tree of [e] parsed on its own,
    whatever operators [e] contains; two more tokens are consumed. *)
Theorem parse_expression_parenthesised :
  forall (e post : list Token) (o c : Token),
    expression e ->
    kind o = token_kinds.open_paren ->
    kind c = token_kinds.close_paren ->
    stops post ->
    exists n,
      parse_expression e 0 = Ok (n, length e)
      /\ parse_expression (o :: e ++ c :: post) 0
         = Ok (ast.ParenExprNode n, length e + 2).
Proof.
  intros e post o c He Ho Hc Hstop.
  destruct (expression_chain e He) as (first & rest & Hch).
  exists (chain_tree first rest). split.
  - rewrite (parse_expression_chain e e first rest 0 [] Hch);
      [reflexivity| |exact I].
    simpl. rewrite app_nil_r. reflexivity.
  - assert (chain_of (o :: e ++ [c])
                     (ast.ParenExprNode (chain_tree first rest)) []) as Hp
      by (apply chain_one, operand_paren; assumption).
    rewrite (parse_expression_chain (o :: e ++ c :: post) (o :: e ++ [c])
               _ [] 0 post Hp); [| |exact Hstop].
    + f_equal. f_equal. simpl. rewrite length_app. simpl. lia.
    + simpl. rewrite <- app_assoc. reflexivity.
Qed.

(** [(a + b) * c]: the sum stays together under the product. *)
Lemma parse_expression_parenthesised_witness :
  exists n,
    parse_expression [t_id "a"; t_plus; t_id "b"] 0
    = Ok (n, length [t_id "a"; t_plus; t_id "b"])
    /\ parse_expression
         (t_lparen :: [t_id "a"; t_plus; t_id "b"] ++ t_rparen :: []) 0
       = Ok (ast.ParenExprNode n, length [t_id "a"; t_plus; t_id "b"] + 2).
Proof.
  apply (parse_expression_parenthesised
           [t_id "a"; t_plus; t_id "b"] [] t_lparen t_rparen).
  - apply (expression_binary [t_id "a"] t_plus [t_id "b"]); [|reflexivity|];
      apply expression_identifier; reflexivity.
  - reflexivity.
  - reflexivity.
  - exact I.
Defined.
